(** * lily: identity graph over a flat key-value store

    A shallow embedding of the graph database (class [GraphDatabase]) and
    of the identity tracker with its risk engine (class [UserTracker]),
    of the worker's [authenticate] and of the key encoding helpers of
    [LilyCrypto], and the properties of the specification and of the code
    checked against them.

    Modelling conventions.
    - The host key-value namespace is a finite map from key strings to the
      JSON documents the code stores there.
    - [nanoid(14)] and [Date.now()] are host oracles: the world carries the
      sequence of values they are going to return.
    - An [async] method is a computation in the monad [M] (state plus
      exceptions).  [Promise.all [p1; ...; pn]] runs its members in array
      order, each to completion: the schedule of a single sequential writer.
    - JavaScript numbers are integers ([Z]). *)

From Stdlib Require Import ZArith String Ascii List Bool Lia DecimalString.
From stdpp Require Import base option list sorting gmap strings fin_maps.

Local Open Scope string_scope.
Local Open Scope Z_scope.
Local Open Scope list_scope.

(** ** Strings *)

Notation "s1 +++ s2" := (String.append s1 s2)
  (at level 60, right associativity) : string_scope.

Definition colon : ascii := ":"%char.

(** [has_colon s]: the character [':'] occurs in [s]. *)
Fixpoint has_colon (s : string) : bool :=
  match s with
  | EmptyString => false
  | String c r => if Ascii.eqb c colon then true else has_colon r
  end.

(** [key.split(":").pop()]: the part of [s] after its last [':'], all of [s]
    when it has none. *)
Fixpoint last_segment (s : string) : string :=
  match s with
  | EmptyString => EmptyString
  | String c r =>
      if has_colon r then last_segment r
      else if Ascii.eqb c colon then r else s
  end.

(** Decimal rendering of an integer, as a template literal prints it. *)
Definition string_of_Z (n : Z) : string :=
  NilZero.string_of_int (Z.to_int n).

(** ** Data model *)

Record DeviceMetadata := {
  browser : string;
  browserVersion : string;
  os : string;
  osVersion : string;
  device : string;
  deviceType : string;
  cpu : string;
  userAgent : string
}.

(** The JSON values of node property maps: strings (type tags, natural
    keys, timestamps), numbers, and the [metadata] object of a fingerprint. *)
Inductive value :=
| VStr (s : string)
| VNum (n : Z)
| VMeta (m : DeviceMetadata).

(** The JSON values of edge property maps: the strings and numbers that
    [updateConnection] writes there ([firstSeen], [lastSeen], [count]). *)
Inductive prim :=
| PStr (s : string)
| PNum (n : Z).

(** [`${value}`] *)
Definition template (v : value) : string :=
  match v with
  | VStr s => s
  | VNum n => string_of_Z n
  | VMeta _ => "[object Object]"
  end.

Record Node := {
  node_id : string;
  node_properties : gmap string value;
  inEdges : list string;
  outEdges : list string
}.

Record Edge := {
  edge_id : string;
  edge_type : string;
  edge_properties : gmap string prim;
  fromNodeId : string;
  toNodeId : string
}.

(** What [JSON.stringify] writes under a key: a node, an edge, or the index
    record [{nodeId, value}]. *)
Inductive json :=
| JNode (n : Node)
| JEdge (e : Edge)
| JIndex (nodeId : string) (v : value).

(** ** The host: key-value namespace, identifier source, clock *)

Record World := {
  kv : gmap string json;
  nanoid_draws : nat -> string;
  drawn : nat;
  clock : nat -> Z;
  ticks : nat
}.

Definition with_kv (w : World) (m : gmap string json) : World :=
  {| kv := m; nanoid_draws := nanoid_draws w; drawn := drawn w;
     clock := clock w; ticks := ticks w |}.

Inductive Outcome (A : Type) :=
| Ok (a : A)
| Throw (msg : string).
Arguments Ok {A} a.
Arguments Throw {A} msg.

Definition M (A : Type) : Type := World -> Outcome A * World.

#[global] Instance M_ret : MRet M := fun A a w => (Ok a, w).

#[global] Instance M_bind : MBind M := fun A B f m w =>
  match m w with
  | (Ok a, w') => f a w'
  | (Throw e, w') => (Throw e, w')
  end.

Definition throw {A} (msg : string) : M A := fun w => (Throw msg, w).

(** [for (const x of xs) await f(x)], results discarded. *)
Fixpoint forM_ {A} (f : A -> M unit) (xs : list A) : M unit :=
  match xs with
  | [] => mret tt
  | x :: xs' => f x ;; forM_ f xs'
  end.

(** [Promise.all]: every member runs, in array order, also after one of them
    has rejected; the first rejection is the result. *)
Fixpoint Promise_all {A} (ps : list (M A)) : M (list A) :=
  match ps with
  | [] => mret []
  | p :: ps' =>
      fun w =>
        let '(r, w1) := p w in
        let '(rs, w2) := Promise_all ps' w1 in
        (match r, rs with
         | Ok a, Ok l => Ok (a :: l)
         | Throw e, _ => Throw e
         | Ok _, Throw e => Throw e
         end, w2)
  end.

Definition nanoid : M string :=
  fun w =>
    (Ok (nanoid_draws w (drawn w)),
     {| kv := kv w; nanoid_draws := nanoid_draws w; drawn := S (drawn w);
        clock := clock w; ticks := ticks w |}).


Definition kv_get (key : string) : M (option json) :=
  fun w => (Ok (kv w !! key), w).

Definition kv_put (key : string) (v : json) : M unit :=
  fun w => (Ok tt, with_kv w (<[key := v]> (kv w))).

Definition kv_delete (key : string) : M unit :=
  fun w => (Ok tt, with_kv w (delete key (kv w))).

(** The answer of [kv.list]: the keys of one page and, unless the listing is
    complete, the cursor of the next page ([list_complete] is
    [list_cursor = None]). *)
Record ListResult := {
  keys : list string;
  list_cursor : option nat
}.

Definition list_complete (lr : ListResult) : bool :=
  match list_cursor lr with None => true | Some _ => false end.

(** All keys of the namespace under [prefix], in ascending order. *)
Definition keys_with_prefix (prefix : string) (m : gmap string json) : list string :=
  merge_sort String.le (List.filter (String.prefix prefix) (map fst (map_to_list m))).

(** A host that fills every page: [limit] keys from the cursor position on
    when there are that many.  The cursor is opaque to the code; here it is
    the number of keys already listed. *)
Definition kv_list (prefix : string) (limit : nat) (cursor : option nat) : M ListResult :=
  fun w =>
    let start := default 0%nat cursor in
    let rest := drop start (keys_with_prefix prefix (kv w)) in
    (Ok {| keys := take limit rest;
           list_cursor := if (length rest <=? limit)%nat then None
                          else Some (start + limit)%nat |}, w).


(** ** GraphDatabase

    The database as the tracker constructs it, [new GraphDatabase(kv)]: no
    option given, so the prefixes and the batch size are the defaults. *)

Definition NODE_PREFIX : string := "node:".
Definition EDGE_PREFIX : string := "edge:".
Definition INDEX_PREFIX : string := "index:".
Definition BATCH_SIZE : nat := 100.

Record QueryOptions := {
  q_type : option string;
  q_property : option string;
  q_value : option value;
  q_limit : option nat;
  q_cursor : option nat
}.

Record QueryResult := {
  items : list Node;
  cursor : option nat;
  hasMore : bool
}.

(** [`${this.INDEX_PREFIX}${key}:${value}:${nodeId}`] *)
Definition index_key (key : string) (v : value) (nodeId : string) : string :=
  INDEX_PREFIX +++ key +++ ":" +++ template v +++ ":" +++ nodeId.

Definition void {A} (m : M A) : M unit := m ;; mret tt.

Definition with_properties (n : Node) (p : gmap string value) : Node :=
  {| node_id := node_id n; node_properties := p;
     inEdges := inEdges n; outEdges := outEdges n |}.

Definition with_inEdges (n : Node) (l : list string) : Node :=
  {| node_id := node_id n; node_properties := node_properties n;
     inEdges := l; outEdges := outEdges n |}.

Definition with_outEdges (n : Node) (l : list string) : Node :=
  {| node_id := node_id n; node_properties := node_properties n;
     inEdges := inEdges n; outEdges := l |}.

Definition put_index (nodeId : string) (kvp : string * value) : M unit :=
  kv_put (index_key kvp.1 kvp.2 nodeId) (JIndex nodeId kvp.2).

Definition delete_index (nodeId : string) (kvp : string * value) : M unit :=
  kv_delete (index_key kvp.1 kvp.2 nodeId).

Definition createNode (properties : gmap string value) : M Node :=
  nodeId ← nanoid;
  let node := {| node_id := nodeId; node_properties := properties;
                 inEdges := []; outEdges := [] |} in
  kv_put (NODE_PREFIX +++ nodeId) (JNode node);;
  Promise_all (map (put_index nodeId) (map_to_list properties));;
  mret node.

(** [JSON.parse] of what is stored under the node key.  Only node records
    are ever written under [NODE_PREFIX]. *)
Definition getNode (nodeId : string) : M (option Node) :=
  node ← kv_get (NODE_PREFIX +++ nodeId);
  mret (match node with Some (JNode n) => Some n | _ => None end).

Definition updateNode (nodeId : string) (properties : gmap string value) : M (option Node) :=
  node ← getNode nodeId;
  match node with
  | None => mret None
  | Some node =>
      let deletePromises := map (delete_index nodeId) (map_to_list (node_properties node)) in
      (* { ...node.properties, ...properties } *)
      let node := with_properties node (properties ∪ node_properties node) in
      let indexPromises := map (put_index nodeId) (map_to_list (node_properties node)) in
      Promise_all (deletePromises ++ indexPromises
                   ++ [kv_put (NODE_PREFIX +++ nodeId) (JNode node)]);;
      mret (Some node)
  end.

Definition getEdge (edgeId : string) : M (option Edge) :=
  edge ← kv_get (EDGE_PREFIX +++ edgeId);
  mret (match edge with Some (JEdge e) => Some e | _ => None end).

Definition createEdge (fromNodeId0 toNodeId0 type : string)
    (properties : gmap string prim) : M Edge :=
  ends ← Promise_all [getNode fromNodeId0; getNode toNodeId0];
  match ends with
  | [Some fromNode; Some toNode] =>
      edgeId ← nanoid;
      let edge := {| edge_id := edgeId; edge_type := type;
                     edge_properties := properties;
                     fromNodeId := fromNodeId0; toNodeId := toNodeId0 |} in
      let fromNode := with_outEdges fromNode (outEdges fromNode ++ [edgeId]) in
      let toNode := with_inEdges toNode (inEdges toNode ++ [edgeId]) in
      Promise_all [kv_put (EDGE_PREFIX +++ edgeId) (JEdge edge);
                   kv_put (NODE_PREFIX +++ fromNodeId0) (JNode fromNode);
                   kv_put (NODE_PREFIX +++ toNodeId0) (JNode toNode)];;
      mret edge
  | _ => throw "Source or target node not found"
  end.

Definition updateEdge (edgeId : string) (properties : gmap string prim) : M (option Edge) :=
  edge ← getEdge edgeId;
  match edge with
  | None => mret None
  | Some edge =>
      let edge := {| edge_id := edge_id edge; edge_type := edge_type edge;
                     edge_properties := properties ∪ edge_properties edge;
                     fromNodeId := fromNodeId edge; toNodeId := toNodeId edge |} in
      kv_put (EDGE_PREFIX +++ edgeId) (JEdge edge);;
      mret (Some edge)
  end.

Definition is_not (edgeId : string) (i : string) : bool := negb (String.eqb i edgeId).

Definition deleteEdge (edgeId : string) : M bool :=
  edge ← getEdge edgeId;
  match edge with
  | None => mret false
  | Some edge =>
      ends ← Promise_all [getNode (fromNodeId edge); getNode (toNodeId edge)];
      let fromNode := ends !! 0%nat ≫= id in
      let toNode := ends !! 1%nat ≫= id in
      match fromNode with
      | Some fromNode =>
          kv_put (NODE_PREFIX +++ fromNodeId edge)
            (JNode (with_outEdges fromNode (List.filter (is_not edgeId) (outEdges fromNode))))
      | None => mret tt
      end;;
      match toNode with
      | Some toNode =>
          kv_put (NODE_PREFIX +++ toNodeId edge)
            (JNode (with_inEdges toNode (List.filter (is_not edgeId) (inEdges toNode))))
      | None => mret tt
      end;;
      kv_delete (EDGE_PREFIX +++ edgeId);;
      mret true
  end.

Definition deleteNode (nodeId : string) : M bool :=
  node ← getNode nodeId;
  match node with
  | None => mret false
  | Some node =>
      let edgePromises := map (fun edgeId => void (deleteEdge edgeId))
                              (inEdges node ++ outEdges node) in
      let indexPromises := map (delete_index nodeId) (map_to_list (node_properties node)) in
      Promise_all (edgePromises ++ indexPromises
                   ++ [kv_delete (NODE_PREFIX +++ nodeId)]);;
      mret true
  end.

(** [if (type) ... else if (property && value !== undefined) ...]: an empty
    string is falsy. *)
Definition query_prefix (o : QueryOptions) : string :=
  match q_type o with
  | Some (String c r as type) => INDEX_PREFIX +++ "type:" +++ type +++ ":"
  | _ =>
      match q_property o, q_value o with
      | Some (String c r as property), Some v =>
          INDEX_PREFIX +++ property +++ ":" +++ template v +++ ":"
      | _, _ => INDEX_PREFIX
      end
  end.

(** The part of [query] after the listing has come back. *)
Definition query_result (limit : nat) (listResult : ListResult) : M QueryResult :=
  let nodeIds := map last_segment (take limit (keys listResult)) in
  nodes ← Promise_all (map getNode nodeIds);
  let validNodes := omap id nodes in
  mret {| items := validNodes;
          cursor := if negb (list_complete listResult)
                    then list_cursor listResult else None;
          hasMore := negb (list_complete listResult)
                     && (limit <? length (keys listResult))%nat |}.

Definition query (o : QueryOptions) : M QueryResult :=
  let limit := default BATCH_SIZE (q_limit o) in
  listResult ← kv_list (query_prefix o) (limit + 1) (q_cursor o);
  query_result limit listResult.

(** [direction: "in" | "out"], in this order. *)
Inductive Direction := Incoming | Outgoing.

(** [!edgeType || edge.type === edgeType]: an edge type that is not given,
    or given as the empty string, admits every edge. *)
Definition admits (edgeType : option string) (edge : Edge) : bool :=
  match edgeType with
  | Some (String c r as type) => String.eqb (edge_type edge) type
  | _ => true
  end.

Definition adjacency (direction : Direction) (node : Node) : list string :=
  match direction with Outgoing => outEdges node | Incoming => inEdges node end.

Definition far_end (direction : Direction) (edge : Edge) : string :=
  match direction with Outgoing => toNodeId edge | Incoming => fromNodeId edge end.

Definition getConnectedNodes (nodeId : string) (direction : Direction)
    (edgeType : option string) : M (list Node) :=
  node ← getNode nodeId;
  match node with
  | None => mret []
  | Some node =>
      let edgeIds := adjacency direction node in
      edges ← Promise_all (map getEdge edgeIds);
      let validEdges :=
        omap (fun edge : option Edge =>
                e ← edge; if admits edgeType e then Some e else None) edges in
      let connectedNodeIds := map (far_end direction) validEdges in
      nodes ← Promise_all (map getNode connectedNodeIds);
      mret (omap id nodes)
  end.

(** [for (const x of xs) st = await f(st, x)]: a loop that threads its
    state. *)
Fixpoint foldM {A S} (f : S -> A -> M S) (st : S) (xs : list A) : M S :=
  match xs with
  | [] => mret st
  | x :: xs' => st' ← f st x; foldM f st' xs'
  end.

(** The two variables the generator of [traverse] closes over. *)
Record Walk := {
  visited : gset string;
  walk_result : list Node
}.

(** [direction: "in" | "out" | "both"] of [traverse], as the array
    [directions] the generator loops over. *)
Inductive Span := Along (direction : Direction) | Both.

Definition directions_of (direction : Span) : list Direction :=
  match direction with
  | Both => [Incoming; Outgoing]
  | Along d => [d]
  end.

(** The generator [traverseNodes(nodeId, depth)], by the number of levels
    left, [maxDepth - depth]: none is left exactly when
    [depth >= maxDepth], and the recursive call at [depth + 1] has one
    less.  Nobody consumes what it yields, so it runs to its end. *)
Fixpoint traverseNodes (direction : Span) (edgeType : option string)
    (levels : nat) (nodeId : string) (st : Walk) : M Walk :=
  match levels with
  | O => mret st
  | S levels' =>
      if bool_decide (nodeId ∈ visited st) then mret st else
      let st := {| visited := {[ nodeId ]} ∪ visited st;
                   walk_result := walk_result st |} in
      node ← getNode nodeId;
      match node with
      | None => mret st
      | Some node =>
          let st := {| visited := visited st;
                       walk_result := walk_result st ++ [node] |} in
          foldM (fun st dir =>
                   connected ← getConnectedNodes nodeId dir edgeType;
                   foldM (fun st nextNode =>
                            traverseNodes direction edgeType levels' (node_id nextNode) st)
                         st connected)
                st (directions_of direction)
      end
  end.

(** [traverse(startNodeId, {maxDepth, direction, edgeType})], with the
    defaults [maxDepth = 3] and [direction = "out"]. *)
Definition traverse (startNodeId : string) (maxDepth : option Z)
    (direction : option Span) (edgeType : option string) : M (list Node) :=
  let maxDepth := default 3 maxDepth in
  let direction := default (Along Outgoing) direction in
  st ← traverseNodes direction edgeType (Z.to_nat maxDepth) startNodeId
         {| visited := ∅; walk_result := [] |};
  mret (walk_result st).

(** ** Dates

    [new Date(ms).toISOString()] and [new Date(s).getTime()] of the host,
    for time values whose year has four digits. *)

Fixpoint zeros (n : nat) : string :=
  match n with O => "" | S n' => "0" +++ zeros n' end.

(** [n] in decimal, zero-padded on the left to [width] characters. *)
Definition pad (width : nat) (n : Z) : string :=
  let s := string_of_Z n in
  zeros (width - String.length s) +++ s.

(** Proleptic Gregorian date [(year, month, day)] of a day number counted
    from 1970-01-01. *)
Definition civil_from_days (days : Z) : Z * Z * Z :=
  let z := days + 719468 in
  let era := z / 146097 in
  let doe := z - era * 146097 in
  let yoe := (doe - doe / 1460 + doe / 36524 - doe / 146096) / 365 in
  let doy := doe - (365 * yoe + yoe / 4 - yoe / 100) in
  let mp := (5 * doy + 2) / 153 in
  let d := doy - (153 * mp + 2) / 5 + 1 in
  let m := if mp <? 10 then mp + 3 else mp - 9 in
  (yoe + era * 400 + (if m <=? 2 then 1 else 0), m, d).

Definition days_from_civil (y m d : Z) : Z :=
  let y := y - (if m <=? 2 then 1 else 0) in
  let era := y / 400 in
  let yoe := y - era * 400 in
  let doy := (153 * (if 2 <? m then m - 3 else m + 9) + 2) / 5 + d - 1 in
  let doe := yoe * 365 + yoe / 4 - yoe / 100 + doy in
  era * 146097 + doe - 719468.

Definition msPerDay : Z := 86400000.

Definition iso_date (days : Z) : string :=
  let '(y, m, d) := civil_from_days days in
  (if (0 <=? y) && (y <=? 9999) then pad 4 y
   else (if y <? 0 then "-" else "+") +++ pad 6 (Z.abs y))
  +++ "-" +++ pad 2 m +++ "-" +++ pad 2 d.

Definition iso_time (r : Z) : string :=
  pad 2 (r / 3600000) +++ ":" +++ pad 2 (r / 60000 mod 60) +++ ":"
  +++ pad 2 (r / 1000 mod 60) +++ "." +++ pad 3 (r mod 1000).

(** [new Date(ms).toISOString()]: ["YYYY-MM-DDTHH:mm:ss.sssZ"]. *)
Definition toISOString (ms : Z) : string :=
  iso_date (ms / msPerDay) +++ "T" +++ iso_time (ms mod msPerDay) +++ "Z".

Definition digit (c : ascii) : option Z :=
  let n := Z.of_nat (nat_of_ascii c) in
  if (48 <=? n) && (n <=? 57) then Some (n - 48) else None.

Fixpoint number_from (acc : Z) (s : string) : option Z :=
  match s with
  | EmptyString => Some acc
  | String c r =>
      match digit c with
      | Some d => number_from (10 * acc + d) r
      | None => None
      end
  end.

(** The [len] characters of [s] from position [pos], read as a decimal
    number; [None] when there are fewer or one of them is no digit. *)
Definition field (pos len : nat) (s : string) : option Z :=
  let t := String.substring pos len s in
  if (String.length t =? len)%nat then number_from 0 t else None.

Definition days_in_month (y m : Z) : Z :=
  if m =? 2 then
    if ((y mod 4 =? 0) && negb (y mod 100 =? 0)) || (y mod 400 =? 0) then 29 else 28
  else if (m =? 4) || (m =? 6) || (m =? 9) || (m =? 11) then 30 else 31.

(** [new Date(s).getTime()] for the two UTC date-time forms
    ["YYYY-MM-DDTHH:mm:ssZ"] and ["YYYY-MM-DDTHH:mm:ss.sssZ"]; [None] is
    [NaN], the answer for a string that is no date. *)
Definition iso_getTime (s : string) : option Z :=
  let n := String.length s in
  if negb ((n =? 20)%nat || (n =? 24)%nat) then None else
  if negb (String.eqb (String.substring 4 1 s) "-"
           && String.eqb (String.substring 7 1 s) "-"
           && String.eqb (String.substring 10 1 s) "T"
           && String.eqb (String.substring 13 1 s) ":"
           && String.eqb (String.substring 16 1 s) ":"
           && String.eqb (String.substring (n - 1) 1 s) "Z"
           && ((n =? 20)%nat || String.eqb (String.substring 19 1 s) "."))
  then None else
  y ← field 0 4 s; m ← field 5 2 s; d ← field 8 2 s;
  hh ← field 11 2 s; mm ← field 14 2 s; ss ← field 17 2 s;
  ms ← (if (n =? 20)%nat then Some 0 else field 20 3 s);
  if (1 <=? m) && (m <=? 12) && (1 <=? d) && (d <=? days_in_month y m)
     && (hh <=? 23) && (mm <=? 59) && (ss <=? 59)
  then Some (days_from_civil y m d * msPerDay
             + hh * 3600000 + mm * 60000 + ss * 1000 + ms)
  else None.

(** ** UserTracker *)

(** What the user-agent parser reports; every part may be missing. *)
Record UAResult := {
  browser_name : option string;
  browser_version : option string;
  os_name : option string;
  os_version : option string;
  device_model : option string;
  device_type : option string;
  cpu_architecture : option string
}.

(** [x || d] on an optional string: [undefined] and [""] are falsy. *)
Definition or_else (x : option string) (d : string) : string :=
  match x with
  | Some (String _ _ as s) => s
  | _ => d
  end.

(** An adjacency entry: the target node and the edge's properties read
    [as ConnectionStats]. *)
Record Connection := {
  conn_node : Node;
  stats : gmap string prim
}.


Inductive Level := LOW | MEDIUM | HIGH.






Record Event := {
  ev_type : string;
  ev_value : option value;
  timestamp : option prim
}.

Inductive Details :=
| NoDetails
| MultipleIPs (uniqueIPs : Z) (ips : list (option value))
| Switching (changesLastHour : Z)
| MultipleFingerprints (uniqueFingerprints : Z)
| Rapid (changes : Z) (timeWindow : string) (events : list Event).

Record RiskFactor := {
  factor_score : Z;
  reason : string;
  details : Details
}.

Record RiskAssessment := {
  score : Z;
  level : Level;
  factors : list RiskFactor
}.

(** [x >= since] for a property [x] of an edge and a string [since] that is
    no numeric literal (an ISO date): strings compare by code units, a
    number or [undefined] against such a string compares false. *)
Definition ge_since (x : option prim) (since : string) : bool :=
  match x with
  | Some (PStr s) => String.leb since s
  | _ => false
  end.

(** Equality of the members of a [Set]: strings and numbers by value,
    [undefined] with itself; two objects read from the store are never the
    same object. *)
Definition sameValueZero (a b : option value) : bool :=
  match a, b with
  | None, None => true
  | Some (VStr s), Some (VStr t) => String.eqb s t
  | Some (VNum n), Some (VNum m) => n =? m
  | _, _ => false
  end.

(** [new Set(l)], as the list of its members in insertion order. *)
Definition Set_of (l : list (option value)) : list (option value) :=
  fold_left (fun acc x => if existsb (sameValueZero x) acc then acc else acc ++ [x]) l [].

Definition size_of {A} (l : list A) : Z := Z.of_nat (length l).

Definition getRiskLevel (score : Z) : Level :=
  if 70 <=? score then HIGH
  else if 40 <=? score then MEDIUM
  else LOW.

(** [(edge.properties.count || 0) + 1] *)
Definition count_plus_one (count : option prim) : prim :=
  match count with
  | Some (PNum n) => PNum (n + 1)
  | Some (PStr (String _ _ as s)) => PStr (s +++ "1")
  | _ => PNum 1
  end.

Definition lastSeen_of (c : Connection) : option prim := stats c !! "lastSeen".
Definition ip_of (c : Connection) : option value := node_properties (conn_node c) !! "ip".
Definition fingerprint_of (c : Connection) : option value :=
  node_properties (conn_node c) !! "fingerprint".

Section UserTracker.

(** The hosts' user-agent parser, date parser and string collation. *)
Variable UAParser : string -> UAResult.
Variable getTime : string -> option Z.
Variable localeCompare : string -> string -> comparison.

Definition by_natural_key (type property v : string) : QueryOptions :=
  {| q_type := Some type; q_property := Some property; q_value := Some (VStr v);
     q_limit := None; q_cursor := None |}.

Definition getOrCreateUserNode (userId timestamp : string) : M Node :=
  users ← query (by_natural_key "USER" "userId" userId);
  match items users with
  | user :: _ =>
      updateNode (node_id user) {[ "lastSeen" := VStr timestamp ]};;
      mret user
  | [] =>
      createNode {[ "type" := VStr "USER"; "userId" := VStr userId;
                    "firstSeen" := VStr timestamp; "lastSeen" := VStr timestamp ]}
  end.

Definition getOrCreateIPNode (ip timestamp : string) : M Node :=
  ips ← query (by_natural_key "IP" "ip" ip);
  match items ips with
  | ipNode :: _ =>
      updateNode (node_id ipNode) {[ "lastSeen" := VStr timestamp ]};;
      mret ipNode
  | [] =>
      createNode {[ "type" := VStr "IP"; "ip" := VStr ip;
                    "firstSeen" := VStr timestamp; "lastSeen" := VStr timestamp ]}
  end.

Definition getOrCreateFingerprintNode (fingerprint userAgent0 timestamp : string) : M Node :=
  fps ← query (by_natural_key "FINGERPRINT" "fingerprint" fingerprint);
  match items fps with
  | fpNode :: _ =>
      updateNode (node_id fpNode) {[ "lastSeen" := VStr timestamp ]};;
      mret fpNode
  | [] =>
      let result := UAParser userAgent0 in
      createNode {[ "type" := VStr "FINGERPRINT"; "fingerprint" := VStr fingerprint;
                    "firstSeen" := VStr timestamp; "lastSeen" := VStr timestamp;
                    "metadata" := VMeta
                      {| browser := or_else (browser_name result) "Unknown";
                         browserVersion := or_else (browser_version result) "Unknown";
                         os := or_else (os_name result) "Unknown";
                         osVersion := or_else (os_version result) "Unknown";
                         device := or_else (device_model result) "Unknown";
                         deviceType := or_else (device_type result) "desktop";
                         cpu := or_else (cpu_architecture result) "Unknown";
                         userAgent := userAgent0 |} ]}
  end.

Fixpoint findEdge (edgeIds : list string) (type toNodeId0 : string) : M (option Edge) :=
  match edgeIds with
  | [] => mret None
  | edgeId :: rest =>
      edge ← getEdge edgeId;
      match edge with
      | Some e =>
          if String.eqb (edge_type e) type && String.eqb (toNodeId e) toNodeId0
          then mret (Some e)
          else findEdge rest type toNodeId0
      | None => findEdge rest type toNodeId0
      end
  end.

Definition updateConnection (fromNodeId0 toNodeId0 type timestamp : string) : M unit :=
  fromNode ← getNode fromNodeId0;
  match fromNode with
  | None => throw "Source node not found"
  | Some fromNode =>
      edge ← findEdge (outEdges fromNode) type toNodeId0;
      match edge with
      | Some edge =>
          void (updateEdge (edge_id edge)
                  {[ "lastSeen" := PStr timestamp;
                     "count" := count_plus_one (edge_properties edge !! "count") ]})
      | None =>
          void (createEdge fromNodeId0 toNodeId0 type
                  {[ "firstSeen" := PStr timestamp; "lastSeen" := PStr timestamp;
                     "count" := PNum 1 ]})
      end
  end.

Definition recordConnection (userId ip fingerprint userAgent0 timestamp : string) : M unit :=
  upserted ← Promise_all [getOrCreateUserNode userId timestamp;
                          getOrCreateIPNode ip timestamp;
                          getOrCreateFingerprintNode fingerprint userAgent0 timestamp];
  match upserted with
  | [userNode; ipNode; fpNode] =>
      Promise_all [updateConnection (node_id userNode) (node_id ipNode) "USES_IP" timestamp;
                   updateConnection (node_id userNode) (node_id fpNode)
                     "USES_FINGERPRINT" timestamp];;
      mret tt
  | _ => mret tt
  end.

(** The loop of [getNodeConnections] over the edges already fetched. *)
Fixpoint collect_connections (edges : list (option Edge)) (type : string) : M (list Connection) :=
  match edges with
  | [] => mret []
  | edge :: rest =>
      match edge with
      | Some e =>
          if String.eqb (edge_type e) type then
            targetNode ← getNode (toNodeId e);
            match targetNode with
            | Some t =>
                connections ← collect_connections rest type;
                mret ({| conn_node := t; stats := edge_properties e |} :: connections)
            | None => collect_connections rest type
            end
          else collect_connections rest type
      | None => collect_connections rest type
      end
  end.

Definition getNodeConnections (node : Node) (type : string) : M (list Connection) :=
  edges ← Promise_all (map getEdge (outEdges node));
  collect_connections edges type.

Definition event_of (type : string) (key : Connection -> option value) (e : Connection) : Event :=
  {| ev_type := type; ev_value := key e; timestamp := lastSeen_of e |}.

(** [a.timestamp.localeCompare(b.timestamp)]; the events that reach the
    sort have passed [timestamp >= since], so their timestamps are strings. *)
Definition compare_events (a b : Event) : comparison :=
  match timestamp a, timestamp b with
  | Some (PStr s), Some (PStr t) => localeCompare s t
  | _, _ => Eq
  end.

(** [Array.prototype.sort], which is stable. *)
Fixpoint insert_event (x : Event) (l : list Event) : list Event :=
  match l with
  | [] => [x]
  | y :: ys =>
      match compare_events x y with
      | Gt => y :: insert_event x ys
      | _ => x :: l
      end
  end.

Definition sort_events (l : list Event) : list Event :=
  foldr insert_event [] l.

(** [new Date(b.timestamp).getTime() - new Date(a.timestamp).getTime() < 1000];
    false as soon as one of the two is [NaN]. *)
Definition less_than_a_second (a b : Event) : bool :=
  match timestamp a, timestamp b with
  | Some (PStr s), Some (PStr t) =>
      match getTime s, getTime t with
      | Some x, Some y => y - x <? 1000
      | _, _ => false
      end
  | _, _ => false
  end.

(** The loop [for (let i = 1; i < recentEvents.length; i++)]. *)
Fixpoint count_rapid (l : list Event) : Z :=
  match l with
  | a :: (b :: _) as rest =>
      (if less_than_a_second a b then 1 else 0) + count_rapid rest
  | _ => 0
  end.

Definition no_factor : RiskFactor :=
  {| factor_score := 0; reason := ""; details := NoDetails |}.

Definition checkRapidChanges (ipEdges fpEdges : list Connection) (since : string) : RiskFactor :=
  let recentEvents :=
    sort_events
      (List.filter (fun e => ge_since (timestamp e) since)
         (map (event_of "ip" ip_of) ipEdges ++ map (event_of "fp" fingerprint_of) fpEdges)) in
  if (length recentEvents <? 2)%nat then no_factor else
  let rapidChanges := count_rapid recentEvents in
  if 0 <? rapidChanges then
    {| factor_score := Z.min (rapidChanges * 15) 35;
       reason := "Very rapid identity changes";
       details := Rapid rapidChanges "5 minutes" recentEvents |}
  else no_factor.

(** [now] is the reading of [new Date().getTime()]. *)
Definition calculateUserRisk (now : Z) (ipEdges fpEdges : list Connection) : RiskAssessment :=
  let last24h := toISOString (now - 24 * 60 * 60 * 1000) in
  let last1h := toISOString (now - 60 * 60 * 1000) in
  let last5m := toISOString (now - 5 * 60 * 1000) in
  (* 1. Recent IP Changes (24h) *)
  let recentIPs := List.filter (fun e => ge_since (lastSeen_of e) last24h) ipEdges in
  let uniqueIPs := Set_of (map ip_of recentIPs) in
  let factors1 :=
    if 3 <? size_of uniqueIPs then
      [{| factor_score := Z.min (size_of uniqueIPs * 10) 30;
          reason := "Multiple IPs in 24 hours";
          details := MultipleIPs (size_of uniqueIPs) uniqueIPs |}]
    else [] in
  (* 2. Rapid IP Changes (1h) *)
  let ipChangesLast1h :=
    size_of (Set_of (map ip_of (List.filter (fun e => ge_since (lastSeen_of e) last1h) ipEdges))) in
  let factors2 :=
    if 2 <? ipChangesLast1h then
      [{| factor_score := Z.min (ipChangesLast1h * 15) 40;
          reason := "Rapid IP switching";
          details := Switching ipChangesLast1h |}]
    else [] in
  (* 3. Fingerprint Changes (24h) *)
  let recentFingerprints := List.filter (fun e => ge_since (lastSeen_of e) last24h) fpEdges in
  let uniqueFingerprints := Set_of (map fingerprint_of recentFingerprints) in
  let factors3 :=
    if 2 <? size_of uniqueFingerprints then
      [{| factor_score := Z.min (size_of uniqueFingerprints * 15) 35;
          reason := "Multiple fingerprints in 24 hours";
          details := MultipleFingerprints (size_of uniqueFingerprints) |}]
    else [] in
  (* 4. Very Rapid Changes (5m) *)
  let rapidChanges := checkRapidChanges ipEdges fpEdges last5m in
  let factors4 := if 0 <? factor_score rapidChanges then [rapidChanges] else [] in
  let factors := factors1 ++ factors2 ++ factors3 ++ factors4 in
  let totalScore := fold_left (fun sum factor => sum + factor_score factor) factors 0 in
  let totalScore := Z.min totalScore 100 in
  {| score := totalScore; level := getRiskLevel totalScore; factors := factors |}.







End UserTracker.

(** ** The worker's entry point: authenticate *)

(** [class APIError extends Error], with its [status]. *)
Record APIError := {
  api_status : Z;
  api_message : string
}.

(** A call that returns nothing or throws an [APIError]. *)
Inductive Checked :=
| Passes
| Rejects (error : APIError).

(** [s.split(sep)] for a separator of one character: the pieces of [s]
    between the occurrences of [sep]; always at least one piece. *)
Fixpoint String_split (sep : ascii) (s : string) : list string :=
  match s with
  | EmptyString => [""]
  | String c r =>
      if Ascii.eqb c sep then "" :: String_split sep r
      else match String_split sep r with
           | piece :: pieces => String c piece :: pieces
           | [] => [String c ""]
           end
  end.

(** [authHeader] is what [request.headers.get("Authorization")] answers,
    [null] when the request has no such header.  [const [type, token] =
    authHeader.split(" ")] takes the first two pieces; [token] is
    [undefined] when there is only one. *)
Definition authenticate (authHeader : option string) (apiKey : string) : Checked :=
  match authHeader with
  | None | Some EmptyString =>
      Rejects {| api_status := 401; api_message := "Missing Authorization header" |}
  | Some authHeader =>
      let pieces := String_split " " authHeader in
      let type := pieces !! 0%nat in
      let token := pieces !! 1%nat in
      if negb (bool_decide (type = Some "Bearer"))
         || negb (bool_decide (token = Some apiKey))
      then Rejects {| api_status := 401; api_message := "Invalid API key" |}
      else Passes
  end.

(** ** The key encoding of LilyCrypto

    [atob] and [btoa] are the host's; [atob] throws on text that is not
    base64.  A binary string is a string of characters below 256, and an
    [ArrayBuffer] is the list of its bytes. *)

(** [s.replace(/a/g, b)] for two characters. *)
Fixpoint replace_all (a b : ascii) (s : string) : string :=
  match s with
  | EmptyString => EmptyString
  | String c r => String (if Ascii.eqb c a then b else c) (replace_all a b r)
  end.

(** The loop [bytes[i] = binary.charCodeAt(i)]. *)
Fixpoint char_codes (binary : string) : list Byte.byte :=
  match binary with
  | EmptyString => []
  | String c r => byte_of_ascii c :: char_codes r
  end.

(** The loop [binary += String.fromCharCode(bytes[i])]. *)
Definition binary_of (bytes : list Byte.byte) : string :=
  fold_left (fun binary b => binary +++ String (ascii_of_byte b) EmptyString) bytes "".

Section Base64.

Variable atob : string -> Outcome string.
Variable btoa : string -> string.

Definition base64ToArrayBuffer (base64 : string) : Outcome (list Byte.byte) :=
  match atob (replace_all "_" "/" (replace_all "-" "+" base64)) with
  | Ok binary => Ok (char_codes binary)
  | Throw e => Throw e
  end.

Definition arrayBufferToBase64 (buffer : list Byte.byte) : string :=
  replace_all "/" "_" (replace_all "+" "-" (btoa (binary_of buffer))).

End Base64.

(** * Properties *)

(** ** Reading the store *)

(** The node and the edge on record under an identifier. *)
Definition stored_node (m : gmap string json) (nodeId : string) : option Node :=
  match m !! (NODE_PREFIX +++ nodeId) with
  | Some (JNode n) => Some n
  | _ => None
  end.

Definition stored_edge (m : gmap string json) (edgeId : string) : option Edge :=
  match m !! (EDGE_PREFIX +++ edgeId) with
  | Some (JEdge e) => Some e
  | _ => None
  end.

Definition run {A} (m : M A) (w : World) : World := (m w).2.
Definition result {A} (m : M A) (w : World) : Outcome A := (m w).1.

Ltac unfold_M := unfold void, throw, mbind, M_bind, mret, M_ret in *.

Lemma getNode_run nodeId w : getNode nodeId w = (Ok (stored_node (kv w) nodeId), w).
Proof. reflexivity. Qed.

Lemma getEdge_run edgeId w : getEdge edgeId w = (Ok (stored_edge (kv w) edgeId), w).
Proof. reflexivity. Qed.

Lemma Promise_all_getNode nodeIds w :
  Promise_all (map getNode nodeIds) w = (Ok (map (stored_node (kv w)) nodeIds), w).
Proof.
  induction nodeIds as [|i l IH]; [reflexivity|].
  cbn [map Promise_all]. rewrite getNode_run, IH. reflexivity.
Qed.

Lemma Promise_all_getEdge edgeIds w :
  Promise_all (map getEdge edgeIds) w = (Ok (map (stored_edge (kv w)) edgeIds), w).
Proof.
  induction edgeIds as [|i l IH]; [reflexivity|].
  cbn [map Promise_all]. rewrite getEdge_run, IH. reflexivity.
Qed.

(** ** query *)

(** The nodes on record under the last segments of the first [limit] keys. *)
Definition resolve (m : gmap string json) (limit : nat) (keys : list string) : list Node :=
  omap id (map (stored_node m) (map last_segment (take limit keys))).

Lemma query_result_run limit lr w :
  query_result limit lr w
  = (Ok {| items := resolve (kv w) limit (keys lr);
           cursor := if negb (list_complete lr) then list_cursor lr else None;
           hasMore := negb (list_complete lr) && (limit <? length (keys lr))%nat |}, w).
Proof.
  unfold query_result. unfold_M. rewrite Promise_all_getNode. reflexivity.
Qed.

Lemma omap_length {A B} (f : A -> option B) (l : list A) :
  (length (omap f l) <= length l)%nat.
Proof.
  induction l as [|a l IH]; [reflexivity|].
  cbn [omap list_omap]. destruct (f a); cbn [length]; lia.
Qed.

Lemma resolve_length m limit keys : (length (resolve m limit keys) <= limit)%nat.
Proof.
  unfold resolve.
  etransitivity; [apply omap_length|].
  rewrite !length_map, length_take. lia.
Qed.

Lemma resolve_elem m limit keys n :
  n ∈ resolve m limit keys <->
  exists key, key ∈ take limit keys /\ stored_node m (last_segment key) = Some n.
Proof.
  unfold resolve. rewrite list_elem_of_omap. split.
  - intros (o & Ho & Hn). destruct o as [n'|]; [|discriminate].
    cbn in Hn. injection Hn as ->.
    apply list_elem_of_fmap in Ho as (i & Hi & Ho).
    apply list_elem_of_fmap in Ho as (key & -> & Hkey).
    exists key. split; [assumption|congruence].
  - intros (key & Hkey & Hn). exists (Some n). split; [|reflexivity].
    apply list_elem_of_fmap. exists (last_segment key). split; [congruence|].
    apply list_elem_of_fmap. exists key. split; [reflexivity|assumption].
Qed.

(** C9.  A [query] with limit [L] returns at most [L] items.  Each item is
    the node on record under the identifier read off one of the first [L]
    keys of the listing, the part of the key after its last [':'].  The
    result carries a cursor exactly when the listing was not complete;
    [hasMore] is set exactly when, moreover, the store returned more than
    [L] keys.  This holds whatever page the host answers with. *)
Theorem C9_query_page (limit : nat) (listResult : ListResult) (w : World) :
  exists r,
    query_result limit listResult w = (Ok r, w)
    /\ (length (items r) <= limit)%nat
    /\ (forall n, n ∈ items r <->
          exists key, key ∈ take limit (keys listResult)
                      /\ stored_node (kv w) (last_segment key) = Some n)
    /\ (is_Some (cursor r) <-> list_complete listResult = false)
    /\ (hasMore r = true <->
        (limit < length (keys listResult))%nat /\ list_complete listResult = false).
Proof.
  eexists. split; [apply query_result_run|]. cbn [items cursor hasMore].
  split; [apply resolve_length|].
  split; [intros n; apply resolve_elem|].
  unfold list_complete. split.
  - destruct (list_cursor listResult); cbn [negb]; split;
      (discriminate || eauto || intros [? ?]; discriminate).
  - destruct (list_cursor listResult); cbn [negb andb].
    + rewrite Nat.ltb_lt. tauto.
    + split; [discriminate|intros [_ ?]; discriminate].
Qed.

(** The claim as the specification words it fails: here the host answers
    with one key and is not complete, the limit is 1, and the result has a
    cursor although the store did not return more than one key. *)
Lemma C9_cursor_without_more_keys :
  let listResult := {| keys := ["index:type:USER:V1StGXR8_Z5jdH"]; list_cursor := Some 1%nat |} in
  let w := {| kv := ∅; nanoid_draws := fun _ => ""; drawn := 0; clock := fun _ => 0; ticks := 0 |} in
  exists r,
    result (query_result 1 listResult) w = Ok r
    /\ ~ (is_Some (cursor r) <->
          (1 < length (keys listResult))%nat /\ list_complete listResult = false).
Proof.
  intros listResult w. eexists. split; [reflexivity|].
  cbn. intros [H _]. destruct H as [H _]; [eauto|]. lia.
Qed.

(** The page a host that fills its pages answers with. *)
Definition page (prefix : string) (limit : nat) (cursor : option nat)
    (m : gmap string json) : list string :=
  take limit (drop (default 0%nat cursor) (keys_with_prefix prefix m)).

Lemma query_run o w :
  let limit := default BATCH_SIZE (q_limit o) in
  exists r,
    query o w = (Ok r, w)
    /\ items r = resolve (kv w) limit (page (query_prefix o) limit (q_cursor o) (kv w)).
Proof.
  intros limit. unfold query. unfold_M. fold limit.
  cbn [kv_list]. rewrite query_result_run. eexists. split; [reflexivity|].
  cbn [items keys]. unfold resolve, page.
  rewrite !take_take. do 4 f_equal. lia.
Qed.

Lemma keys_with_prefix_elem prefix m key :
  key ∈ keys_with_prefix prefix m <->
  is_Some (m !! key) /\ String.prefix prefix key = true.
Proof.
  unfold keys_with_prefix.
  rewrite merge_sort_Permutation, list_elem_of_In, filter_In, <- list_elem_of_In.
  rewrite list_elem_of_fmap. split.
  - intros [([k v] & -> & Hkv) Hp]. apply elem_of_map_to_list in Hkv.
    split; [eauto|assumption].
  - intros [[v Hv] Hp]. split; [|assumption].
    exists (key, v). split; [reflexivity|]. apply elem_of_map_to_list. assumption.
Qed.

Definition without_property (o : QueryOptions) : QueryOptions :=
  {| q_type := q_type o; q_property := None; q_value := None;
     q_limit := q_limit o; q_cursor := q_cursor o |}.

(** C10.  When the [type] option of a [query] is a non-empty string, the
    listing prefix is [index:type:<type>:] and the [property] and [value]
    options have no effect: the call does what the same call without them
    does.  Its items are the nodes on record for the keys of the page
    under that prefix, whatever properties they carry. *)
Theorem C10_type_overrides_property (o : QueryOptions) (type : string) (w : World) :
  q_type o = Some type ->
  type <> "" ->
  let limit := default BATCH_SIZE (q_limit o) in
  query_prefix o = "index:type:" +++ type +++ ":"
  /\ query o w = query (without_property o) w
  /\ exists r,
      query o w = (Ok r, w)
      /\ items r = resolve (kv w) limit
                     (page ("index:type:" +++ type +++ ":") limit (q_cursor o) (kv w)).
Proof.
  intros Htype Hne limit.
  assert (Hprefix : forall o', q_type o' = Some type ->
                               query_prefix o' = "index:type:" +++ type +++ ":").
  { intros o' H. unfold query_prefix. rewrite H.
    destruct type; [congruence|reflexivity]. }
  split; [apply Hprefix; assumption|].
  split.
  - unfold query. rewrite !Hprefix by assumption. reflexivity.
  - destruct (query_run o w) as (r & Hr & Hitems).
    exists r. split; [assumption|]. rewrite Hitems, Hprefix by assumption. reflexivity.
Qed.

(** ** createEdge *)

Lemma createEdge_throws_iff a b type properties w :
  (exists msg, result (createEdge a b type properties) w = Throw msg) <->
  stored_node (kv w) a = None \/ stored_node (kv w) b = None.
Proof.
  unfold result, createEdge. unfold_M.
  cbn [Promise_all]. rewrite !getNode_run. cbn.
  destruct (stored_node (kv w) a), (stored_node (kv w) b); cbn; split;
    try (intros [msg H]; discriminate);
    try (intros [H|H]; discriminate);
    eauto.
Qed.

Lemma node_key_inj a b : NODE_PREFIX +++ a = NODE_PREFIX +++ b -> a = b.
Proof. intros H. injection H. trivial. Qed.

(** Between two different nodes on record, [createEdge] does what the
    specification says: the edge is on record and round-trips, and its
    identifier is in the adjacency lists of both ends. *)
Lemma createEdge_between_two_nodes a b type properties w na nb :
  a <> b ->
  stored_node (kv w) a = Some na ->
  stored_node (kv w) b = Some nb ->
  let edgeId := nanoid_draws w (drawn w) in
  let edge := {| edge_id := edgeId; edge_type := type; edge_properties := properties;
                 fromNodeId := a; toNodeId := b |} in
  let w' := run (createEdge a b type properties) w in
  result (createEdge a b type properties) w = Ok edge
  /\ stored_edge (kv w') edgeId = Some edge
  /\ stored_node (kv w') a = Some (with_outEdges na (outEdges na ++ [edgeId]))
  /\ stored_node (kv w') b = Some (with_inEdges nb (inEdges nb ++ [edgeId])).
Proof.
  intros Hab Ha Hb edgeId edge w'.
  unfold w', run, result, createEdge. unfold_M.
  cbn [Promise_all]. rewrite !getNode_run. cbn [fst snd]. rewrite Ha, Hb.
  cbn -[String.append]. fold edgeId. fold edge.
  split; [reflexivity|].
  unfold stored_edge, stored_node. cbn -[String.append].
  split; [|split].
  - rewrite !lookup_insert_ne by discriminate. rewrite lookup_insert_eq. reflexivity.
  - rewrite lookup_insert_ne by (intros H; apply node_key_inj in H; congruence).
    rewrite lookup_insert_eq. reflexivity.
  - rewrite lookup_insert_eq. reflexivity.
Qed.

(** ** Index keys *)

Lemma append_nil t : "" +++ t = t.
Proof. reflexivity. Qed.

Lemma append_cons c s t : String c s +++ t = String c (s +++ t).
Proof. reflexivity. Qed.

Lemma has_colon_app s t : has_colon (s +++ t) = has_colon s || has_colon t.
Proof.
  induction s as [|c s IH]; [reflexivity|].
  rewrite append_cons. cbn [has_colon].
  destruct (Ascii.eqb c colon); [reflexivity|exact IH].
Qed.

Lemma last_segment_app s i :
  has_colon i = false -> last_segment (s +++ ":" +++ i) = i.
Proof.
  intros Hi. induction s as [|c s IH].
  - rewrite append_nil, append_cons, append_nil.
    cbn [last_segment]. rewrite Hi. reflexivity.
  - rewrite append_cons. cbn [last_segment]. rewrite has_colon_app.
    rewrite append_cons. cbn [has_colon].
    replace (Ascii.eqb ":" colon) with true by reflexivity.
    rewrite orb_true_r. exact IH.
Qed.

Lemma length_append s t :
  String.length (s +++ t) = (String.length s + String.length t)%nat.
Proof.
  induction s as [|c s IH]; [reflexivity|].
  rewrite append_cons. cbn [String.length]. rewrite IH. reflexivity.
Qed.

Lemma append_assoc s t u : (s +++ t) +++ u = s +++ t +++ u.
Proof.
  induction s as [|c s IH]; [reflexivity|].
  rewrite !append_cons, IH. reflexivity.
Qed.

Lemma append_cancel_r s1 s2 t : s1 +++ t = s2 +++ t -> s1 = s2.
Proof.
  revert s2. induction s1 as [|c s1 IH]; intros [|c2 s2] H.
  - reflexivity.
  - exfalso. apply (f_equal String.length) in H.
    rewrite append_nil, append_cons in H. cbn [String.length] in H.
    rewrite length_append in H. lia.
  - exfalso. apply (f_equal String.length) in H.
    rewrite append_nil, append_cons in H. cbn [String.length] in H.
    rewrite length_append in H. lia.
  - rewrite !append_cons in H. injection H as -> H. f_equal. apply IH. exact H.
Qed.

(** The first segment of a key determines the rest when it has no colon. *)
Lemma first_segment_inj k k' r r' :
  has_colon k = false -> has_colon k' = false ->
  k +++ ":" +++ r = k' +++ ":" +++ r' -> k = k' /\ r = r'.
Proof.
  revert k'. induction k as [|c k IH]; intros [|c' k'] Hk Hk' H;
    rewrite ?append_nil, ?append_cons in H; cbn [has_colon] in Hk, Hk'.
  - injection H as H. split; [reflexivity|assumption].
  - injection H as H _. subst c'. discriminate.
  - injection H as H _. subst c. discriminate.
  - injection H as -> H.
    destruct (Ascii.eqb c' colon); [discriminate|].
    destruct (IH k' Hk Hk' H) as [-> ->]. split; reflexivity.
Qed.

(** So does the last one. *)
Lemma last_segment_inj v v' i i' :
  has_colon i = false -> has_colon i' = false ->
  v +++ ":" +++ i = v' +++ ":" +++ i' -> v = v' /\ i = i'.
Proof.
  intros Hi Hi' H.
  assert (i = i') as <-.
  { rewrite <- (last_segment_app v i Hi), H. apply last_segment_app. assumption. }
  split; [|reflexivity].
  apply (append_cancel_r v v' (":" +++ i)). exact H.
Qed.

(** [index:<k>:<v>:<nodeId>] *)
Definition row_key (k v nodeId : string) : string :=
  INDEX_PREFIX +++ k +++ ":" +++ v +++ ":" +++ nodeId.

Lemma index_key_row_key k v nodeId : index_key k v nodeId = row_key k (template v) nodeId.
Proof. reflexivity. Qed.

Lemma row_key_inj k v i k' v' i' :
  has_colon k = false -> has_colon k' = false ->
  has_colon i = false -> has_colon i' = false ->
  row_key k v i = row_key k' v' i' -> k = k' /\ v = v' /\ i = i'.
Proof.
  intros Hk Hk' Hi Hi' H. unfold row_key, INDEX_PREFIX in H.
  apply String.app_inj in H.
  apply first_segment_inj in H as [-> H]; try assumption.
  apply last_segment_inj in H as [-> ->]; try assumption.
  repeat split.
Qed.

Lemma row_key_same_node k v k' v' i :
  has_colon k = false -> has_colon k' = false ->
  row_key k v i = row_key k' v' i -> k = k' /\ v = v'.
Proof.
  intros Hk Hk' H. unfold row_key, INDEX_PREFIX in H.
  apply String.app_inj in H.
  apply first_segment_inj in H as [-> H]; try assumption.
  apply append_cancel_r in H. split; congruence.
Qed.

Lemma last_segment_row_key k v i :
  has_colon i = false -> last_segment (row_key k v i) = i.
Proof.
  intros Hi. unfold row_key.
  replace (INDEX_PREFIX +++ k +++ ":" +++ v +++ ":" +++ i)
    with ((INDEX_PREFIX +++ k +++ ":" +++ v) +++ ":" +++ i).
  - apply last_segment_app. assumption.
  - rewrite !append_assoc. reflexivity.
Qed.

Lemma prefix_append p s : String.prefix p (p +++ s) = true.
Proof.
  induction p as [|c p IH]; [destruct s; reflexivity|].
  rewrite append_cons. cbn [String.prefix].
  destruct (ascii_dec c c); [exact IH|congruence].
Qed.

Lemma node_key_is_no_row_key nodeId k v i : NODE_PREFIX +++ nodeId <> row_key k v i.
Proof. discriminate. Qed.

(** ** What the writing operations do to the namespace *)

(** [p] always succeeds and changes nothing but the namespace, by [f]. *)
Definition writes (p : M unit) (f : gmap string json -> gmap string json) : Prop :=
  forall w, p w = (Ok tt, with_kv w (f (kv w))).

Lemma with_kv_id w : with_kv w (kv w) = w.
Proof. destruct w. reflexivity. Qed.

Lemma Promise_all_writes ps fs w :
  Forall2 writes ps fs ->
  Promise_all ps w
  = (Ok (map (fun _ => tt) ps), with_kv w (foldl (fun m f => f m) (kv w) fs)).
Proof.
  intros H. revert w. induction H as [|p f ps fs Hp _ IH]; intros w.
  - cbn. rewrite with_kv_id. reflexivity.
  - cbn [Promise_all map foldl]. rewrite Hp, IH. reflexivity.
Qed.

Definition put_rows (nodeId : string) (l : list (string * value))
    (m : gmap string json) : gmap string json :=
  foldl (fun m kvp => <[index_key kvp.1 kvp.2 nodeId := JIndex nodeId kvp.2]> m) m l.

Definition delete_rows (nodeId : string) (l : list (string * value))
    (m : gmap string json) : gmap string json :=
  foldl (fun m kvp => delete (index_key kvp.1 kvp.2 nodeId) m) m l.

Lemma writes_put_index nodeId kvp :
  writes (put_index nodeId kvp)
         (fun m => <[index_key kvp.1 kvp.2 nodeId := JIndex nodeId kvp.2]> m).
Proof. intros w. reflexivity. Qed.

Lemma writes_delete_index nodeId kvp :
  writes (delete_index nodeId kvp) (fun m => delete (index_key kvp.1 kvp.2 nodeId) m).
Proof. intros w. reflexivity. Qed.

Lemma writes_kv_put key v : writes (kv_put key v) (fun m => <[key := v]> m).
Proof. intros w. reflexivity. Qed.

Lemma writes_kv_delete key : writes (kv_delete key) (fun m => delete key m).
Proof. intros w. reflexivity. Qed.

Lemma foldl_apply {A} (g : A -> gmap string json -> gmap string json) l m :
  foldl (fun m f => f m) m (map g l) = foldl (fun m x => g x m) m l.
Proof. revert m. induction l as [|x l IH]; intros m; [reflexivity|]. cbn. apply IH. Qed.

(** Rows written and rows deleted, key by key. *)
Definition is_row_of (nodeId : string) (l : list (string * value)) (key : string) : Prop :=
  exists k v, (k, v) ∈ l /\ key = index_key k v nodeId.

Lemma is_Some_put_rows nodeId l m key :
  is_Some (put_rows nodeId l m !! key) <-> is_row_of nodeId l key \/ is_Some (m !! key).
Proof.
  unfold put_rows, is_row_of. revert m. induction l as [|[k v] l IH]; intros m.
  - cbn. split; [tauto|]. intros [(k & v & H & _)|H]; [inversion H|exact H].
  - cbn [foldl]. rewrite IH. cbn [fst snd].
    destruct (decide (index_key k v nodeId = key)) as [<-|Hne].
    + rewrite lookup_insert_eq. split; [intros _; left|eauto].
      exists k, v. split; [left|reflexivity].
    + rewrite lookup_insert_ne by assumption. split.
      * intros [(k' & v' & Hin & ->)|H]; [left|right; exact H].
        exists k', v'. split; [right; exact Hin|reflexivity].
      * intros [(k' & v' & Hin & ->)|H]; [|right; exact H].
        apply elem_of_cons in Hin as [Heq|Hin]; [congruence|].
        left. exists k', v'. split; [exact Hin|reflexivity].
Qed.

Lemma lookup_put_rows_other nodeId l m key :
  ~ is_row_of nodeId l key -> put_rows nodeId l m !! key = m !! key.
Proof.
  unfold put_rows, is_row_of. revert m. induction l as [|[k v] l IH]; intros m Hno.
  - reflexivity.
  - cbn [foldl]. rewrite IH.
    + cbn [fst snd]. apply lookup_insert_ne. intros <-. apply Hno.
      exists k, v. split; [left|reflexivity].
    + intros (k' & v' & Hin & ->). apply Hno.
      exists k', v'. split; [right; exact Hin|reflexivity].
Qed.

Lemma lookup_delete_rows_other nodeId l m key :
  ~ is_row_of nodeId l key -> delete_rows nodeId l m !! key = m !! key.
Proof.
  unfold delete_rows, is_row_of. revert m. induction l as [|[k v] l IH]; intros m Hno.
  - reflexivity.
  - cbn [foldl]. rewrite IH.
    + cbn [fst snd]. apply lookup_delete_ne. intros <-. apply Hno.
      exists k, v. split; [left|reflexivity].
    + intros (k' & v' & Hin & ->). apply Hno.
      exists k', v'. split; [right; exact Hin|reflexivity].
Qed.

Lemma lookup_delete_rows_None nodeId l m key :
  m !! key = None -> delete_rows nodeId l m !! key = None.
Proof.
  unfold delete_rows. revert m. induction l as [|[k v] l IH]; intros m Hm.
  - exact Hm.
  - cbn [foldl]. apply IH. cbn [fst snd].
    destruct (decide (index_key k v nodeId = key)) as [<-|Hne].
    + apply lookup_delete_eq.
    + rewrite lookup_delete_ne by assumption. exact Hm.
Qed.

Lemma lookup_delete_rows_row nodeId l m key :
  is_row_of nodeId l key -> delete_rows nodeId l m !! key = None.
Proof.
  unfold is_row_of. revert m. induction l as [|[k v] l IH]; intros m Hrow.
  - destruct Hrow as (k & v & H & _). inversion H.
  - change (delete_rows nodeId l (delete (index_key k v nodeId) m) !! key = None).
    destruct (decide (index_key k v nodeId = key)) as [<-|Hne].
    + apply lookup_delete_rows_None, lookup_delete_eq.
    + apply IH. destruct Hrow as (k' & v' & Hin & ->).
      apply elem_of_cons in Hin as [Heq|Hin]; [congruence|].
      exists k', v'. split; [exact Hin|reflexivity].
Qed.

Lemma writes_each {A} (f : A -> M unit) (g : A -> gmap string json -> gmap string json) l :
  (forall x, writes (f x) (g x)) -> Forall2 writes (map f l) (map g l).
Proof. intros H. induction l as [|x l IH]; constructor; [apply H|exact IH]. Qed.

Definition new_node (nodeId : string) (properties : gmap string value) : Node :=
  {| node_id := nodeId; node_properties := properties; inEdges := []; outEdges := [] |}.

Definition after_draw (w : World) (m : gmap string json) : World :=
  {| kv := m; nanoid_draws := nanoid_draws w; drawn := S (drawn w);
     clock := clock w; ticks := ticks w |}.

Lemma createNode_run properties w :
  let nodeId := nanoid_draws w (drawn w) in
  createNode properties w
  = (Ok (new_node nodeId properties),
     after_draw w (put_rows nodeId (map_to_list properties)
                     (<[NODE_PREFIX +++ nodeId := JNode (new_node nodeId properties)]> (kv w)))).
Proof.
  intros nodeId. unfold createNode. unfold_M. cbn [nanoid kv_put].
  fold nodeId. fold (new_node nodeId properties).
  rewrite (Promise_all_writes _ _ _ (writes_each _ _ _ (writes_put_index nodeId))).
  rewrite foldl_apply. reflexivity.
Qed.

Definition updated_node (node : Node) (properties : gmap string value) : Node :=
  with_properties node (properties ∪ node_properties node).

Lemma updateNode_run nodeId properties w :
  updateNode nodeId properties w
  = match stored_node (kv w) nodeId with
    | None => (Ok None, w)
    | Some node =>
        (Ok (Some (updated_node node properties)),
         with_kv w
           (<[NODE_PREFIX +++ nodeId := JNode (updated_node node properties)]>
              (put_rows nodeId (map_to_list (properties ∪ node_properties node))
                 (delete_rows nodeId (map_to_list (node_properties node)) (kv w)))))
    end.
Proof.
  unfold updateNode. unfold_M. rewrite getNode_run.
  destruct (stored_node (kv w) nodeId) as [node|]; [|reflexivity].
  fold (updated_node node properties).
  erewrite Promise_all_writes.
  2:{ apply Forall2_app; [apply writes_each, writes_delete_index|].
      apply Forall2_app; [apply writes_each, writes_put_index|].
      constructor; [apply writes_kv_put|constructor]. }
  rewrite !foldl_app, !foldl_apply. reflexivity.
Qed.

(** The namespace after [deleteEdge]. *)
Definition deleteEdge_kv (edgeId : string) (m : gmap string json) : gmap string json :=
  match stored_edge m edgeId with
  | None => m
  | Some edge =>
      let m1 :=
        match stored_node m (fromNodeId edge) with
        | Some fromNode =>
            <[NODE_PREFIX +++ fromNodeId edge :=
                JNode (with_outEdges fromNode (List.filter (is_not edgeId) (outEdges fromNode)))]> m
        | None => m
        end in
      let m2 :=
        match stored_node m (toNodeId edge) with
        | Some toNode =>
            <[NODE_PREFIX +++ toNodeId edge :=
                JNode (with_inEdges toNode (List.filter (is_not edgeId) (inEdges toNode)))]> m1
        | None => m1
        end in
      delete (EDGE_PREFIX +++ edgeId) m2
  end.

Lemma writes_deleteEdge edgeId : writes (void (deleteEdge edgeId)) (deleteEdge_kv edgeId).
Proof.
  intros w. unfold deleteEdge, deleteEdge_kv. unfold_M. rewrite getEdge_run.
  destruct (stored_edge (kv w) edgeId) as [edge|]; [|rewrite with_kv_id; reflexivity].
  cbn [Promise_all]. rewrite !getNode_run. unfold_M. cbn [lookup list_lookup].
  destruct (stored_node (kv w) (fromNodeId edge)) as [fromNode|],
           (stored_node (kv w) (toNodeId edge)) as [toNode|]; reflexivity.
Qed.

Lemma deleteNode_run nodeId w :
  deleteNode nodeId w
  = match stored_node (kv w) nodeId with
    | None => (Ok false, w)
    | Some node =>
        (Ok true,
         with_kv w
           (delete (NODE_PREFIX +++ nodeId)
              (delete_rows nodeId (map_to_list (node_properties node))
                 (foldl (fun m edgeId => deleteEdge_kv edgeId m) (kv w)
                        (inEdges node ++ outEdges node)))))
    end.
Proof.
  unfold deleteNode. unfold_M. rewrite getNode_run.
  destruct (stored_node (kv w) nodeId) as [node|]; [|reflexivity].
  generalize (inEdges node ++ outEdges node). intros edgeIds.
  erewrite Promise_all_writes.
  2:{ apply Forall2_app; [apply writes_each, writes_deleteEdge|].
      apply Forall2_app; [apply writes_each, writes_delete_index|].
      constructor; [apply writes_kv_delete|constructor]. }
  rewrite !foldl_app, !foldl_apply. reflexivity.
Qed.

(** ** Index consistency *)

(** An index record [index:<k>:<v>:<nodeId>] exists. *)
Definition index_row (m : gmap string json) (k v nodeId : string) : Prop :=
  is_Some (m !! row_key k v nodeId).

(** The node [nodeId] is on record and its properties map [k] to a value
    that prints as [v]. *)
Definition carries (m : gmap string json) (nodeId k v : string) : Prop :=
  exists n val,
    stored_node m nodeId = Some n /\ node_properties n !! k = Some val /\ template val = v.

(** The invariant, for property keys and node identifiers without [':']. *)
Definition index_consistent (m : gmap string json) : Prop :=
  forall k v nodeId,
    has_colon k = false -> has_colon nodeId = false ->
    (index_row m k v nodeId <-> carries m nodeId k v).

Definition plain_keys (p : gmap string value) : Prop :=
  forall k, is_Some (p !! k) -> has_colon k = false.

(** The nodes on record have identifiers and property keys without [':']. *)
Definition well_keyed (m : gmap string json) : Prop :=
  forall nodeId n,
    stored_node m nodeId = Some n ->
    has_colon nodeId = false /\ plain_keys (node_properties n).

(** [nanoid] returns identifiers over an alphabet without [':'] and never
    the same one twice. *)
Definition nanoid_ok (w : World) : Prop :=
  (forall i, has_colon (nanoid_draws w i) = false)
  /\ (forall i j, nanoid_draws w i = nanoid_draws w j -> i = j).

(** No node is on record under an identifier still to be drawn. *)
Definition fresh_draws (w : World) : Prop :=
  forall i, (drawn w <= i)%nat -> stored_node (kv w) (nanoid_draws w i) = None.

Definition good (w : World) : Prop :=
  nanoid_ok w /\ index_consistent (kv w) /\ well_keyed (kv w) /\ fresh_draws w.

Lemma stored_node_insert_node m nodeId n nodeId' :
  stored_node (<[NODE_PREFIX +++ nodeId := JNode n]> m) nodeId'
  = if decide (nodeId = nodeId') then Some n else stored_node m nodeId'.
Proof.
  unfold stored_node. destruct (decide (nodeId = nodeId')) as [->|Hne].
  - rewrite lookup_insert_eq. reflexivity.
  - rewrite lookup_insert_ne; [reflexivity|].
    intros H. apply node_key_inj in H. contradiction.
Qed.

Lemma stored_node_delete_node m nodeId nodeId' :
  stored_node (delete (NODE_PREFIX +++ nodeId) m) nodeId'
  = if decide (nodeId = nodeId') then None else stored_node m nodeId'.
Proof.
  unfold stored_node. destruct (decide (nodeId = nodeId')) as [->|Hne].
  - rewrite lookup_delete_eq. reflexivity.
  - rewrite lookup_delete_ne; [reflexivity|].
    intros H. apply node_key_inj in H. contradiction.
Qed.

Lemma row_is_no_node_key nodeId l key nodeId' :
  is_row_of nodeId l key -> key <> NODE_PREFIX +++ nodeId'.
Proof. intros (k & v & _ & ->). discriminate. Qed.

Lemma stored_node_put_rows nodeId l m nodeId' :
  stored_node (put_rows nodeId l m) nodeId' = stored_node m nodeId'.
Proof.
  unfold stored_node. rewrite lookup_put_rows_other; [reflexivity|].
  intros H. eapply row_is_no_node_key; [exact H|reflexivity].
Qed.

Lemma stored_node_delete_rows nodeId l m nodeId' :
  stored_node (delete_rows nodeId l m) nodeId' = stored_node m nodeId'.
Proof.
  unfold stored_node. rewrite lookup_delete_rows_other; [reflexivity|].
  intros H. eapply row_is_no_node_key; [exact H|reflexivity].
Qed.

Lemma is_row_of_entries nodeId (p : gmap string value) key :
  is_row_of nodeId (map_to_list p) key <->
  exists k val, p !! k = Some val /\ key = row_key k (template val) nodeId.
Proof.
  unfold is_row_of. split; intros (k & v & H & ->); exists k, v;
    (split; [apply elem_of_map_to_list; exact H|reflexivity]).
Qed.

(** A row of another node is no row of this one. *)
Lemma row_of_other_node nodeId (p : gmap string value) k v nodeId' :
  plain_keys p -> has_colon k = false ->
  has_colon nodeId = false -> has_colon nodeId' = false ->
  nodeId <> nodeId' ->
  ~ is_row_of nodeId (map_to_list p) (row_key k v nodeId').
Proof.
  intros Hp Hk Hi Hi' Hne H. apply is_row_of_entries in H as (k0 & val & Hk0 & Heq).
  apply row_key_inj in Heq as (_ & _ & Heq); try assumption; [congruence|].
  apply Hp. eauto.
Qed.

(** A row of this node is one of its entries exactly when the node maps
    the key to a value that prints so. *)
Lemma row_of_this_node nodeId (p : gmap string value) k v :
  plain_keys p -> has_colon k = false ->
  is_row_of nodeId (map_to_list p) (row_key k v nodeId) <->
  exists val, p !! k = Some val /\ template val = v.
Proof.
  intros Hp Hk. rewrite is_row_of_entries. split.
  - intros (k0 & val & Hk0 & Heq).
    apply row_key_same_node in Heq as [-> ->]; [eauto|assumption|].
    apply Hp. eauto.
  - intros (val & Hval & <-). eauto.
Qed.

Lemma lookup_row_insert_node (m : gmap string json) nodeId n k v i :
  <[NODE_PREFIX +++ nodeId := JNode n]> m !! row_key k v i = m !! row_key k v i.
Proof. apply lookup_insert_ne. discriminate. Qed.

Lemma lookup_row_delete_node (m : gmap string json) nodeId k v i :
  delete (NODE_PREFIX +++ nodeId) m !! row_key k v i = m !! row_key k v i.
Proof. apply lookup_delete_ne. discriminate. Qed.

Lemma index_consistent_create m nodeId p :
  index_consistent m -> stored_node m nodeId = None ->
  has_colon nodeId = false -> plain_keys p ->
  index_consistent
    (put_rows nodeId (map_to_list p)
       (<[NODE_PREFIX +++ nodeId := JNode (new_node nodeId p)]> m)).
Proof.
  intros Hm Hfresh Hid Hp k v i Hk Hi. unfold index_row, carries.
  rewrite is_Some_put_rows, lookup_row_insert_node.
  destruct (decide (nodeId = i)) as [<-|Hne].
  - rewrite row_of_this_node by assumption. split.
    + intros [(val & Hval & Hv)|Hold].
      * exists (new_node nodeId p), val.
        rewrite stored_node_put_rows, stored_node_insert_node, decide_True by reflexivity.
        repeat split; assumption.
      * apply Hm in Hold as (n & _ & Hn & _); [congruence|assumption..].
    + intros (n & val & Hn & Hval & Hv).
      rewrite stored_node_put_rows, stored_node_insert_node, decide_True in Hn by reflexivity.
      injection Hn as <-. left. eauto.
  - split.
    + intros [Hrow|Hold].
      * exfalso. eapply row_of_other_node; [..|exact Hrow]; assumption.
      * apply Hm in Hold as (n & val & Hn & Hval & Hv); [|assumption..].
        exists n, val.
        rewrite stored_node_put_rows, stored_node_insert_node, decide_False by assumption.
        repeat split; assumption.
    + intros (n & val & Hn & Hval & Hv).
      rewrite stored_node_put_rows, stored_node_insert_node, decide_False in Hn by assumption.
      right. apply Hm; [assumption..|]. exists n, val. repeat split; assumption.
Qed.

Lemma plain_keys_union p q : plain_keys p -> plain_keys q -> plain_keys (p ∪ q).
Proof.
  intros Hp Hq k [v Hk]. apply lookup_union_Some_raw in Hk as [Hk|[_ Hk]];
    [apply Hp|apply Hq]; eauto.
Qed.

Lemma index_consistent_update m nodeId node p :
  index_consistent m -> stored_node m nodeId = Some node ->
  has_colon nodeId = false -> plain_keys (node_properties node) -> plain_keys p ->
  index_consistent
    (<[NODE_PREFIX +++ nodeId := JNode (updated_node node p)]>
       (put_rows nodeId (map_to_list (p ∪ node_properties node))
          (delete_rows nodeId (map_to_list (node_properties node)) m))).
Proof.
  intros Hm Hnode Hid Hold Hp k v i Hk Hi. unfold index_row, carries.
  pose proof (plain_keys_union _ _ Hp Hold) as Hnew.
  rewrite lookup_row_insert_node, is_Some_put_rows.
  destruct (decide (nodeId = i)) as [<-|Hne].
  - rewrite row_of_this_node by assumption. split.
    + intros [(val & Hval & Hv)|Hrow].
      * exists (updated_node node p), val.
        rewrite stored_node_insert_node, decide_True by reflexivity.
        repeat split; assumption.
      * exfalso.
        assert (Hin : is_row_of nodeId (map_to_list (node_properties node))
                        (row_key k v nodeId)).
        { apply row_of_this_node; [assumption..|].
          destruct (m !! row_key k v nodeId) as [j|] eqn:Hj.
          - assert (Hc : carries m nodeId k v) by (apply Hm; [assumption..|]; exists j; exact Hj).
            destruct Hc as (n & val & Hn & Hval & Hv).
            rewrite Hnode in Hn. injection Hn as <-. eauto.
          - rewrite lookup_delete_rows_None in Hrow by exact Hj.
            destruct Hrow as [? Hrow]. discriminate. }
        rewrite (lookup_delete_rows_row _ _ _ _ Hin) in Hrow.
        destruct Hrow as [? Hrow]. discriminate.
    + intros (n & val & Hn & Hval & Hv).
      rewrite stored_node_insert_node, decide_True in Hn by reflexivity.
      injection Hn as <-. left. eauto.
  - assert (Hother : forall q, plain_keys q ->
                               ~ is_row_of nodeId (map_to_list q) (row_key k v i)).
    { intros q Hq. apply row_of_other_node; assumption. }
    rewrite lookup_delete_rows_other by (apply Hother; assumption).
    split.
    + intros [Hrow|Hrow]; [exfalso; eapply Hother; [|exact Hrow]; assumption|].
      apply Hm in Hrow as (n & val & Hn & Hval & Hv); [|assumption..].
      exists n, val.
      rewrite stored_node_insert_node, decide_False by assumption.
      rewrite stored_node_put_rows, stored_node_delete_rows.
      repeat split; assumption.
    + intros (n & val & Hn & Hval & Hv).
      rewrite stored_node_insert_node, decide_False in Hn by assumption.
      rewrite stored_node_put_rows, stored_node_delete_rows in Hn.
      right. apply Hm; [assumption..|]. exists n, val. repeat split; assumption.
Qed.

Lemma index_consistent_delete m nodeId node :
  index_consistent m -> stored_node m nodeId = Some node ->
  has_colon nodeId = false -> plain_keys (node_properties node) ->
  index_consistent
    (delete (NODE_PREFIX +++ nodeId)
       (delete_rows nodeId (map_to_list (node_properties node)) m)).
Proof.
  intros Hm Hnode Hid Hold k v i Hk Hi. unfold index_row, carries.
  rewrite lookup_row_delete_node.
  destruct (decide (nodeId = i)) as [<-|Hne].
  - split.
    + intros Hrow. exfalso.
      assert (Hin : is_row_of nodeId (map_to_list (node_properties node))
                      (row_key k v nodeId)).
      { apply row_of_this_node; [assumption..|].
        destruct (m !! row_key k v nodeId) as [j|] eqn:Hj.
        - assert (Hc : carries m nodeId k v) by (apply Hm; [assumption..|]; exists j; exact Hj).
          destruct Hc as (n & val & Hn & Hval & Hv).
          rewrite Hnode in Hn. injection Hn as <-. eauto.
        - rewrite lookup_delete_rows_None in Hrow by exact Hj.
          destruct Hrow as [? Hrow]. discriminate. }
      rewrite (lookup_delete_rows_row _ _ _ _ Hin) in Hrow.
      destruct Hrow as [? Hrow]. discriminate.
    + intros (n & val & Hn & _).
      rewrite stored_node_delete_node, decide_True in Hn by reflexivity. discriminate.
  - rewrite lookup_delete_rows_other by (apply row_of_other_node; assumption).
    split.
    + intros Hrow.
      apply Hm in Hrow as (n & val & Hn & Hval & Hv); [|assumption..].
      exists n, val.
      rewrite stored_node_delete_node, decide_False by assumption.
      rewrite stored_node_delete_rows.
      repeat split; assumption.
    + intros (n & val & Hn & Hval & Hv).
      rewrite stored_node_delete_node, decide_False in Hn by assumption.
      rewrite stored_node_delete_rows in Hn.
      apply Hm; [assumption..|]. exists n, val. repeat split; assumption.
Qed.

(** Two namespaces with the same index rows and the same node
    properties: what [deleteEdge] leaves of the first in the second. *)
Definition same_view (m m' : gmap string json) : Prop :=
  (forall k v i, m' !! row_key k v i = m !! row_key k v i)
  /\ (forall nodeId,
        node_properties <$> stored_node m' nodeId = node_properties <$> stored_node m nodeId).

Lemma same_view_refl m : same_view m m.
Proof. split; reflexivity. Qed.

Lemma same_view_trans m1 m2 m3 : same_view m1 m2 -> same_view m2 m3 -> same_view m1 m3.
Proof.
  intros [H1 H2] [H3 H4]. split; intros.
  - rewrite H3. apply H1.
  - rewrite H4. apply H2.
Qed.

Lemma same_view_stored m m' nodeId n' :
  same_view m m' -> stored_node m' nodeId = Some n' ->
  exists n, stored_node m nodeId = Some n /\ node_properties n = node_properties n'.
Proof.
  intros [_ H] Hn'. specialize (H nodeId). rewrite Hn' in H.
  destruct (stored_node m nodeId) as [n|]; [|discriminate].
  injection H as H. eauto.
Qed.

Lemma same_view_none m m' nodeId :
  same_view m m' -> stored_node m nodeId = None -> stored_node m' nodeId = None.
Proof.
  intros [_ H] Hn. specialize (H nodeId). rewrite Hn in H.
  destruct (stored_node m' nodeId); [discriminate|reflexivity].
Qed.

Lemma same_view_sym m m' : same_view m m' -> same_view m' m.
Proof. intros [H1 H2]. split; intros; symmetry; [apply H1|apply H2]. Qed.

Lemma same_view_insert_adjacency m nodeId n n' :
  stored_node m nodeId = Some n -> node_properties n' = node_properties n ->
  same_view m (<[NODE_PREFIX +++ nodeId := JNode n']> m).
Proof.
  intros Hn Hp. split.
  - intros. apply lookup_row_insert_node.
  - intros i. rewrite stored_node_insert_node.
    destruct (decide (nodeId = i)) as [<-|]; [|reflexivity].
    rewrite Hn. cbn. congruence.
Qed.

Lemma same_view_delete_edge m edgeId : same_view m (delete (EDGE_PREFIX +++ edgeId) m).
Proof.
  split.
  - intros. apply lookup_delete_ne. discriminate.
  - intros i. unfold stored_node. rewrite lookup_delete_ne by discriminate. reflexivity.
Qed.

Lemma deleteEdge_kv_same_view edgeId m : same_view m (deleteEdge_kv edgeId m).
Proof.
  unfold deleteEdge_kv. destruct (stored_edge m edgeId) as [edge|]; [|apply same_view_refl].
  eapply same_view_trans; [|apply same_view_delete_edge].
  destruct (stored_node m (fromNodeId edge)) as [fromNode|] eqn:Hfrom,
           (stored_node m (toNodeId edge)) as [toNode|] eqn:Hto.
  - pose proof (same_view_insert_adjacency m (fromNodeId edge) fromNode
                    (with_outEdges fromNode (List.filter (is_not edgeId) (outEdges fromNode)))
                    Hfrom eq_refl) as Hfirst.
    eapply same_view_trans; [exact Hfirst|].
    destruct Hfirst as [_ Hprops].
    split.
    + intros. apply lookup_row_insert_node.
    + intros i. rewrite stored_node_insert_node.
      destruct (decide (toNodeId edge = i)) as [<-|]; [|reflexivity].
      rewrite Hprops, Hto. reflexivity.
  - eapply same_view_insert_adjacency; [exact Hfrom|reflexivity].
  - eapply same_view_insert_adjacency; [exact Hto|reflexivity].
  - apply same_view_refl.
Qed.

Lemma deleteEdges_same_view edgeIds m :
  same_view m (foldl (fun m edgeId => deleteEdge_kv edgeId m) m edgeIds).
Proof.
  revert m. induction edgeIds as [|e l IH]; intros m; [apply same_view_refl|].
  cbn [foldl]. eapply same_view_trans; [apply deleteEdge_kv_same_view|apply IH].
Qed.

Lemma index_consistent_same_view m m' :
  same_view m m' -> index_consistent m -> index_consistent m'.
Proof.
  intros Hv Hm k v i Hk Hi. unfold index_row, carries.
  destruct Hv as [Hrows Hprops]. rewrite Hrows.
  specialize (Hm k v i Hk Hi). unfold index_row, carries in Hm. rewrite Hm.
  specialize (Hprops i). split.
  - intros (n & val & Hn & Hval & Hv). rewrite Hn in Hprops.
    destruct (stored_node m' i) as [n'|]; [|discriminate].
    injection Hprops as Hprops. exists n', val. rewrite Hprops. repeat split; assumption.
  - intros (n' & val & Hn' & Hval & Hv). rewrite Hn' in Hprops.
    destruct (stored_node m i) as [n|]; [|discriminate].
    injection Hprops as Hprops. exists n, val. rewrite <- Hprops. repeat split; assumption.
Qed.

Lemma well_keyed_same_view m m' : same_view m m' -> well_keyed m -> well_keyed m'.
Proof.
  intros Hv Hm i n' Hn'.
  destruct (same_view_stored _ _ _ _ Hv Hn') as (n & Hn & Hp).
  rewrite <- Hp. apply (Hm i n Hn).
Qed.

Lemma good_createNode properties w :
  good w -> plain_keys properties -> good (run (createNode properties) w).
Proof.
  intros (Hid & Hm & Hwk & Hfresh) Hp.
  unfold run. rewrite createNode_run. cbn [snd].
  set (nodeId := nanoid_draws w (drawn w)).
  assert (Hcolon : has_colon nodeId = false) by apply Hid.
  assert (Hnone : stored_node (kv w) nodeId = None) by (apply Hfresh; lia).
  split; [exact Hid|]. split; [|split].
  - apply index_consistent_create; assumption.
  - intros i n. cbn [kv after_draw].
    rewrite stored_node_put_rows, stored_node_insert_node.
    destruct (decide (nodeId = i)) as [<-|Hne].
    + intros [= <-]. split; assumption.
    + apply Hwk.
  - intros i Hi. cbn [kv after_draw nanoid_draws drawn] in *.
    rewrite stored_node_put_rows, stored_node_insert_node.
    destruct (decide (nodeId = nanoid_draws w i)) as [Heq|Hne].
    + apply Hid in Heq. lia.
    + apply Hfresh. lia.
Qed.

Lemma good_updateNode nodeId properties w :
  good w -> plain_keys properties -> good (run (updateNode nodeId properties) w).
Proof.
  intros Hgood Hp. unfold run. rewrite updateNode_run.
  destruct (stored_node (kv w) nodeId) as [node|] eqn:Hnode; [|exact Hgood].
  destruct Hgood as (Hid & Hm & Hwk & Hfresh).
  destruct (Hwk nodeId node Hnode) as [Hcolon Hold].
  cbn [snd]. split; [exact Hid|]. split; [|split].
  - apply index_consistent_update; assumption.
  - intros i n. cbn [kv with_kv]. rewrite stored_node_insert_node.
    destruct (decide (nodeId = i)) as [<-|Hne].
    + intros [= <-]. split; [assumption|]. apply plain_keys_union; assumption.
    + rewrite stored_node_put_rows, stored_node_delete_rows. apply Hwk.
  - intros i Hi. cbn [kv with_kv nanoid_draws drawn] in *.
    rewrite stored_node_insert_node.
    destruct (decide (nodeId = nanoid_draws w i)) as [Heq|Hne].
    + rewrite Heq, Hfresh in Hnode by assumption. discriminate.
    + rewrite stored_node_put_rows, stored_node_delete_rows. apply Hfresh. assumption.
Qed.

Lemma good_deleteNode nodeId w : good w -> good (run (deleteNode nodeId) w).
Proof.
  intros Hgood. unfold run. rewrite deleteNode_run.
  destruct (stored_node (kv w) nodeId) as [node|] eqn:Hnode; [|exact Hgood].
  destruct Hgood as (Hid & Hm & Hwk & Hfresh).
  destruct (Hwk nodeId node Hnode) as [Hcolon Hold].
  cbn [snd].
  pose proof (deleteEdges_same_view (inEdges node ++ outEdges node) (kv w)) as Hview.
  set (m1 := foldl (fun m edgeId => deleteEdge_kv edgeId m) (kv w)
                   (inEdges node ++ outEdges node)) in *.
  destruct (same_view_stored _ _ _ _ (same_view_sym _ _ Hview) Hnode) as (n1 & Hn1 & Hprops).
  rewrite <- Hprops in *.
  split; [exact Hid|]. split; [|split].
  - apply index_consistent_delete; try assumption.
    apply (index_consistent_same_view _ _ Hview Hm).
  - intros i n. cbn [kv with_kv]. rewrite stored_node_delete_node.
    destruct (decide (nodeId = i)) as [<-|Hne]; [discriminate|].
    rewrite stored_node_delete_rows. apply (well_keyed_same_view _ _ Hview Hwk).
  - intros i Hi. cbn [kv with_kv nanoid_draws drawn] in *.
    rewrite stored_node_delete_node.
    destruct (decide (nodeId = nanoid_draws w i)); [reflexivity|].
    rewrite stored_node_delete_rows.
    apply (same_view_none _ _ _ Hview). apply Hfresh. assumption.
Qed.

(** The three operations on nodes, and sequences of them. *)
Inductive Op :=
| CreateNode (properties : gmap string value)
| UpdateNode (nodeId : string) (properties : gmap string value)
| DeleteNode (nodeId : string).

Definition perform (op : Op) : M unit :=
  match op with
  | CreateNode properties => void (createNode properties)
  | UpdateNode nodeId properties => void (updateNode nodeId properties)
  | DeleteNode nodeId => void (deleteNode nodeId)
  end.

Definition perform_all (ops : list Op) : M unit := forM_ perform ops.

(** The property keys an operation brings have no [':']. *)
Definition plain_op (op : Op) : Prop :=
  match op with
  | CreateNode properties => plain_keys properties
  | UpdateNode _ properties => plain_keys properties
  | DeleteNode _ => True
  end.

Lemma void_run {A} (m : M A) w a w' : m w = (Ok a, w') -> void m w = (Ok tt, w').
Proof. intros H. unfold_M. rewrite H. reflexivity. Qed.

Lemma perform_succeeds op w : perform op w = (Ok tt, run (perform op) w).
Proof.
  unfold run. destruct op as [p|i p|i]; cbn [perform].
  - erewrite void_run by apply createNode_run. reflexivity.
  - assert (H : exists r w', updateNode i p w = (Ok r, w')).
    { rewrite updateNode_run. destruct (stored_node (kv w) i); eauto. }
    destruct H as (r & w' & H). erewrite void_run by exact H. reflexivity.
  - assert (H : exists r w', deleteNode i w = (Ok r, w')).
    { rewrite deleteNode_run. destruct (stored_node (kv w) i); eauto. }
    destruct H as (r & w' & H). erewrite void_run by exact H. reflexivity.
Qed.

Lemma run_void {A} (m : M A) w : run (void m) w = run m w.
Proof. unfold run. unfold_M. destruct (m w) as [[a|e] w']; reflexivity. Qed.

Lemma good_perform op w : good w -> plain_op op -> good (run (perform op) w).
Proof.
  intros Hgood Hop. destruct op as [p|i p|i]; cbn [perform]; rewrite run_void.
  - apply good_createNode; assumption.
  - apply good_updateNode; assumption.
  - apply good_deleteNode; assumption.
Qed.

Lemma good_perform_all ops w :
  good w -> Forall plain_op ops ->
  perform_all ops w = (Ok tt, run (perform_all ops) w)
  /\ good (run (perform_all ops) w).
Proof.
  intros Hgood Hops. revert w Hgood.
  induction Hops as [|op ops Hop _ IH]; intros w Hgood.
  - split; [reflexivity|exact Hgood].
  - unfold perform_all, run. cbn [forM_]. unfold mbind, M_bind.
    rewrite perform_succeeds.
    apply (IH (run (perform op) w)). apply good_perform; assumption.
Qed.

Lemma good_empty w : nanoid_ok w -> kv w = ∅ -> good w.
Proof.
  intros Hid Hkv. split; [exact Hid|]. rewrite Hkv. split; [|split].
  - intros k v i _ _. unfold index_row, carries, stored_node.
    rewrite lookup_empty. split; [intros [? ?]; discriminate|].
    intros (n & val & Hn & _). rewrite lookup_empty in Hn. discriminate.
  - intros i n. unfold stored_node. rewrite lookup_empty. discriminate.
  - intros i _. unfold stored_node. rewrite Hkv, lookup_empty. reflexivity.
Qed.

Definition by_property (k : string) (v : value) (limit : option nat) : QueryOptions :=
  {| q_type := None; q_property := Some k; q_value := Some v;
     q_limit := limit; q_cursor := None |}.

Lemma query_prefix_by_property k v limit nodeId :
  String.prefix (query_prefix (by_property k v limit)) (index_key k v nodeId) = true.
Proof.
  unfold query_prefix, by_property. cbn [q_type q_property q_value].
  destruct k as [|c k].
  - apply prefix_append.
  - unfold index_key.
    replace (INDEX_PREFIX +++ String c k +++ ":" +++ template v +++ ":" +++ nodeId)
      with ((INDEX_PREFIX +++ String c k +++ ":" +++ template v +++ ":") +++ nodeId)
      by (rewrite !append_assoc; reflexivity).
    apply prefix_append.
Qed.

(** A node just created is found through each of its properties, when the
    page is large enough for the keys under the prefix. *)
Lemma query_finds_created_node properties w k v limit :
  let nodeId := nanoid_draws w (drawn w) in
  let w' := run (createNode properties) w in
  has_colon nodeId = false ->
  properties !! k = Some v ->
  (length (keys_with_prefix (query_prefix (by_property k v limit)) (kv w'))
   <= default BATCH_SIZE limit)%nat ->
  exists r,
    query (by_property k v limit) w' = (Ok r, w')
    /\ new_node nodeId properties ∈ items r.
Proof.
  intros nodeId w' Hid Hk Hpage.
  destruct (query_run (by_property k v limit) w') as (r & Hr & Hitems).
  exists r. split; [exact Hr|]. rewrite Hitems. cbn [q_limit q_cursor].
  apply resolve_elem. exists (index_key k v nodeId).
  assert (Hkv : kv w' = put_rows nodeId (map_to_list properties)
                  (<[NODE_PREFIX +++ nodeId := JNode (new_node nodeId properties)]> (kv w))).
  { unfold w', run. rewrite createNode_run. reflexivity. }
  split.
  - unfold page. cbn [default]. rewrite drop_0.
    rewrite !take_ge by (rewrite ?take_ge; exact Hpage).
    apply keys_with_prefix_elem. split; [|apply query_prefix_by_property].
    rewrite Hkv. apply is_Some_put_rows. left.
    exists k, v. split; [apply elem_of_map_to_list; exact Hk|reflexivity].
  - rewrite index_key_row_key, last_segment_row_key by exact Hid.
    rewrite Hkv, stored_node_put_rows, stored_node_insert_node, decide_True by reflexivity.
    reflexivity.
Qed.

(** After [updateNode] the rows of the node are those of its new
    properties. *)
Lemma updateNode_rows nodeId properties w node' :
  good w -> plain_keys properties ->
  result (updateNode nodeId properties) w = Ok (Some node') ->
  let m' := kv (run (updateNode nodeId properties) w) in
  (forall k val, node_properties node' !! k = Some val ->
                 index_row m' k (template val) nodeId)
  /\ (forall k v, has_colon k = false ->
                  (forall val, node_properties node' !! k = Some val -> template val <> v) ->
                  ~ index_row m' k v nodeId).
Proof.
  intros Hgood Hp Hres m'.
  pose proof (good_updateNode nodeId properties w Hgood Hp) as (_ & Hm' & Hwk' & _).
  fold m' in Hm', Hwk'.
  assert (Hnode' : stored_node m' nodeId = Some node').
  { unfold m', run, result in *. rewrite updateNode_run in *.
    destruct (stored_node (kv w) nodeId) as [node|]; [|discriminate].
    cbn [fst snd kv with_kv] in *. injection Hres as <-.
    rewrite stored_node_insert_node, decide_True by reflexivity. reflexivity. }
  destruct (Hwk' nodeId node' Hnode') as [Hid Hkeys].
  split.
  - intros k val Hk. apply Hm'; [apply Hkeys; eauto|exact Hid|].
    exists node', val. repeat split; assumption.
  - intros k v Hk Hgone Hrow.
    apply Hm' in Hrow as (n & val & Hn & Hval & Hv); [|assumption..].
    rewrite Hnode' in Hn. injection Hn as <-. exact (Hgone val Hval Hv).
Qed.

(** C7.  Take property keys and node identifiers without [':'] ([nanoid]
    draws such identifiers, never the same twice).  After any sequence of
    [createNode], [updateNode] and [deleteNode] on an empty store, an index
    record [index:<k>:<v>:<nodeId>] exists exactly when the node [nodeId]
    is on record and its properties map [k] to a value that prints as [v].
    A node created next is found by [query] through each of its properties,
    provided the keys under the prefix fit on the page; and after an
    [updateNode] the rows of the new values exist and the rows of values
    the node no longer has are gone. *)
Theorem C7_index_consistency (w : World) (ops : list Op) :
  nanoid_ok w -> kv w = ∅ -> Forall plain_op ops ->
  let w' := run (perform_all ops) w in
  perform_all ops w = (Ok tt, w')
  /\ index_consistent (kv w')
  /\ (forall properties k v limit,
        properties !! k = Some v ->
        let w'' := run (createNode properties) w' in
        (length (keys_with_prefix (query_prefix (by_property k v limit)) (kv w''))
         <= default BATCH_SIZE limit)%nat ->
        exists n r,
          createNode properties w' = (Ok n, w'')
          /\ query (by_property k v limit) w'' = (Ok r, w'')
          /\ n ∈ items r)
  /\ (forall nodeId properties node',
        plain_keys properties ->
        result (updateNode nodeId properties) w' = Ok (Some node') ->
        let w'' := run (updateNode nodeId properties) w' in
        (forall k val, node_properties node' !! k = Some val ->
                       index_row (kv w'') k (template val) nodeId)
        /\ (forall k v, has_colon k = false ->
                        (forall val, node_properties node' !! k = Some val ->
                                     template val <> v) ->
                        ~ index_row (kv w'') k v nodeId)).
Proof.
  intros Hid Hempty Hops w'.
  destruct (good_perform_all ops w (good_empty w Hid Hempty) Hops) as [Hrun Hgood].
  fold w' in Hrun, Hgood.
  split; [exact Hrun|]. split; [apply Hgood|]. split.
  - intros properties k v limit Hk w'' Hpage.
    destruct (query_finds_created_node properties w' k v limit) as (r & Hr & Hin);
      [apply Hgood|exact Hk|exact Hpage|].
    exists (new_node (nanoid_draws w' (drawn w')) properties), r.
    split; [|split; assumption].
    unfold w'', run. rewrite createNode_run. reflexivity.
  - intros nodeId properties node' Hp Hres.
    apply updateNode_rows; assumption.
Qed.

(** ** The risk engine *)

Section RiskEngine.

Variable getTime : string -> option Z.
Variable localeCompare : string -> string -> comparison.

Lemma getRiskLevel_HIGH s : getRiskLevel s = HIGH <-> 70 <= s.
Proof.
  unfold getRiskLevel.
  destruct (Z.leb_spec 70 s); [tauto|].
  destruct (Z.leb_spec 40 s); split; (discriminate || lia).
Qed.

Lemma getRiskLevel_MEDIUM s : getRiskLevel s = MEDIUM <-> 40 <= s < 70.
Proof.
  unfold getRiskLevel.
  destruct (Z.leb_spec 70 s); [split; (discriminate || lia)|].
  destruct (Z.leb_spec 40 s); split; (discriminate || lia || tauto).
Qed.

Lemma getRiskLevel_LOW s : getRiskLevel s = LOW <-> s < 40.
Proof.
  unfold getRiskLevel.
  destruct (Z.leb_spec 70 s); [split; (discriminate || lia)|].
  destruct (Z.leb_spec 40 s); split; (discriminate || lia || tauto).
Qed.

Lemma sum_scores_nonneg (fs : list RiskFactor) (acc : Z) :
  Forall (fun f => 0 <= factor_score f) fs -> 0 <= acc ->
  0 <= fold_left (fun sum factor => sum + factor_score factor) fs acc.
Proof.
  intros Hfs. revert acc.
  induction Hfs as [|f fs Hf _ IH]; intros acc Hacc; simpl; [assumption|].
  apply IH. lia.
Qed.

Lemma size_nonneg {A} (l : list A) : 0 <= size_of l.
Proof. unfold size_of. lia. Qed.

Lemma factors_nonneg now ipEdges fpEdges :
  Forall (fun f => 0 <= factor_score f)
         (factors (calculateUserRisk getTime localeCompare now ipEdges fpEdges)).
Proof.
  unfold calculateUserRisk. cbn [factors].
  repeat apply Forall_app_2.
  - destruct (_ <? _); constructor; [|constructor]. cbn [factor_score].
    pose proof (size_nonneg (Set_of (map ip_of
      (List.filter (fun e => ge_since (lastSeen_of e)
         (toISOString (now - 24 * 60 * 60 * 1000))) ipEdges)))). lia.
  - destruct (_ <? _); constructor; [|constructor]. cbn [factor_score].
    pose proof (size_nonneg (Set_of (map ip_of
      (List.filter (fun e => ge_since (lastSeen_of e)
         (toISOString (now - 60 * 60 * 1000))) ipEdges)))). lia.
  - destruct (_ <? _); constructor; [|constructor]. cbn [factor_score].
    pose proof (size_nonneg (Set_of (map fingerprint_of
      (List.filter (fun e => ge_since (lastSeen_of e)
         (toISOString (now - 24 * 60 * 60 * 1000))) fpEdges)))). lia.
  - destruct (Z.ltb_spec 0 (factor_score (checkRapidChanges getTime localeCompare
      ipEdges fpEdges (toISOString (now - 5 * 60 * 1000)))));
      constructor; [lia|constructor].
Qed.

Lemma score_is_capped_sum now ipEdges fpEdges :
  let r := calculateUserRisk getTime localeCompare now ipEdges fpEdges in
  score r = Z.min (fold_left (fun sum factor => sum + factor_score factor) (factors r) 0) 100
  /\ level r = getRiskLevel (score r).
Proof. split; reflexivity. Qed.

(** C4.  For every pair of edge lists the risk engine returns a score
    between 0 and 100 and the level that the score determines: HIGH
    exactly from 70 on, MEDIUM exactly from 40 below 70, LOW exactly
    below 40.  With both lists empty the result is score 0, level LOW and
    no factor.  The engine is a total function: it has no failing path. *)
Theorem C4_risk_score_bounded_and_levelled now (ipEdges fpEdges : list Connection) :
  let r := calculateUserRisk getTime localeCompare now ipEdges fpEdges in
  0 <= score r <= 100
  /\ (level r = HIGH <-> 70 <= score r)
  /\ (level r = MEDIUM <-> 40 <= score r < 70)
  /\ (level r = LOW <-> score r < 40)
  /\ calculateUserRisk getTime localeCompare now [] []
     = {| score := 0; level := LOW; factors := [] |}.
Proof.
  intros r.
  destruct (score_is_capped_sum now ipEdges fpEdges) as [Hs Hl].
  fold r in Hs, Hl.
  pose proof (sum_scores_nonneg (factors r) 0 (factors_nonneg now ipEdges fpEdges)
                (Z.le_refl 0)) as Hsum.
  split; [rewrite Hs; lia|].
  rewrite Hl.
  split; [apply getRiskLevel_HIGH|].
  split; [apply getRiskLevel_MEDIUM|].
  split; [apply getRiskLevel_LOW|].
  reflexivity.
Qed.


End RiskEngine.

(** ** Scenarios on a store that starts empty *)

(** The identifiers [nanoid] is going to return, in order. *)
Definition draws (i : nat) : string :=
  nth i ["V1StGXR8_Z5jdH"; "i6B-myT3bX9kPq"; "Kq0z_5mWc2RtYa";
         "e7LpD-x4Uo1NsF"; "Ow3ZrC8h_Gv6Jb"; "a9QfT2-nXe5MuI";
         "Hy4_kW7sBd1ZcL"; "pR6vJ0gN-q3EtA"] "uU8xYc2_Sf5KmD".

Definition empty_world (clock : nat -> Z) : World :=
  {| kv := ∅; nanoid_draws := draws; drawn := 0; clock := clock; ticks := 0 |}.

(** The node records and the edge records of a namespace. *)
Definition a_node (kj : string * json) : option Node :=
  match kj.2 with JNode n => Some n | _ => None end.


Definition all_nodes (m : gmap string json) : list Node := omap a_node (map_to_list m).


(** Closes an equation between closed terms by evaluating both sides. *)
Ltac by_evaluation :=
  lazymatch goal with
  | |- ?x = ?y =>
      let x' := eval vm_compute in x in
      let y' := eval vm_compute in y in
      first [constr_eq x' y' | fail 1 "the two sides evaluate to different values"];
      vm_cast_no_check (@eq_refl _ y)
  end.

Definition value_or {A} (d : A) (o : Outcome A) : A :=
  match o with Ok a => a | Throw _ => d end.

Definition no_node : Node :=
  {| node_id := ""; node_properties := ∅; inEdges := []; outEdges := [] |}.

Definition no_edge : Edge :=
  {| edge_id := ""; edge_type := ""; edge_properties := ∅;
     fromNodeId := ""; toNodeId := "" |}.


(** Type, natural keys and [lastSeen] of a node. *)
Definition summary (n : Node) :=
  (node_properties n !! "type", node_properties n !! "userId",
   node_properties n !! "ip", node_properties n !! "fingerprint",
   node_properties n !! "lastSeen").

(** ** getConnectionGraph *)

(** The adjacency entries [getNodeConnections] collects from the edges it
    has fetched. *)
Fixpoint connections (m : gmap string json) (edges : list (option Edge)) (type : string)
    : list Connection :=
  match edges with
  | [] => []
  | edge :: rest =>
      match edge with
      | Some e =>
          if String.eqb (edge_type e) type then
            match stored_node m (toNodeId e) with
            | Some t => {| conn_node := t; stats := edge_properties e |}
                        :: connections m rest type
            | None => connections m rest type
            end
          else connections m rest type
      | None => connections m rest type
      end
  end.

Lemma collect_connections_run edges type w :
  collect_connections edges type w = (Ok (connections (kv w) edges type), w).
Proof.
  induction edges as [|[e|] rest IH]; cbn [collect_connections connections];
    [reflexivity| |exact IH].
  destruct (String.eqb (edge_type e) type); [|exact IH].
  unfold_M. rewrite getNode_run.
  destruct (stored_node (kv w) (toNodeId e)); [|exact IH].
  rewrite IH. reflexivity.
Qed.

Lemma getNodeConnections_run node type w :
  getNodeConnections node type w
  = (Ok (connections (kv w) (map (stored_edge (kv w)) (outEdges node)) type), w).
Proof.
  unfold getNodeConnections. unfold_M.
  rewrite Promise_all_getEdge. apply collect_connections_run.
Qed.


Section ConnectionGraph.

Variable getTime : string -> option Z.
Variable localeCompare : string -> string -> comparison.
Variable cutoffTime : string.
Variable riskThreshold : Z.

(** The store the graph is read from. *)
Variable m : gmap string json.











End ConnectionGraph.


(** ** The store as a graph

    The nodes and edges a namespace holds, by identifier.  A namespace
    represents a graph when its node and edge records are those of the
    graph and its index rows are those of the properties of the nodes. *)






Lemma edge_key_inj a b : EDGE_PREFIX +++ a = EDGE_PREFIX +++ b -> a = b.
Proof. intros H. injection H. trivial. Qed.

Lemma stored_edge_insert_node m nodeId n edgeId :
  stored_edge (<[NODE_PREFIX +++ nodeId := JNode n]> m) edgeId = stored_edge m edgeId.
Proof. unfold stored_edge. rewrite lookup_insert_ne by discriminate. reflexivity. Qed.

Lemma stored_node_insert_edge m edgeId e nodeId :
  stored_node (<[EDGE_PREFIX +++ edgeId := JEdge e]> m) nodeId = stored_node m nodeId.
Proof. unfold stored_node. rewrite lookup_insert_ne by discriminate. reflexivity. Qed.

Lemma stored_edge_insert_edge m edgeId e edgeId' :
  stored_edge (<[EDGE_PREFIX +++ edgeId := JEdge e]> m) edgeId'
  = if decide (edgeId = edgeId') then Some e else stored_edge m edgeId'.
Proof.
  unfold stored_edge. destruct (decide (edgeId = edgeId')) as [->|Hne].
  - rewrite lookup_insert_eq. reflexivity.
  - rewrite lookup_insert_ne; [reflexivity|].
    intros H. apply edge_key_inj in H. contradiction.
Qed.

Lemma row_is_no_edge_key nodeId l key edgeId :
  is_row_of nodeId l key -> key <> EDGE_PREFIX +++ edgeId.
Proof. intros (k & v & _ & ->). discriminate. Qed.

Lemma stored_edge_put_rows nodeId l m edgeId :
  stored_edge (put_rows nodeId l m) edgeId = stored_edge m edgeId.
Proof.
  unfold stored_edge. rewrite lookup_put_rows_other; [reflexivity|].
  intros H. eapply row_is_no_edge_key; [exact H|reflexivity].
Qed.

Lemma stored_edge_delete_rows nodeId l m edgeId :
  stored_edge (delete_rows nodeId l m) edgeId = stored_edge m edgeId.
Proof.
  unfold stored_edge. rewrite lookup_delete_rows_other; [reflexivity|].
  intros H. eapply row_is_no_edge_key; [exact H|reflexivity].
Qed.







Definition new_edge (edgeId type : string) (properties : gmap string prim)
    (fromNodeId0 toNodeId0 : string) : Edge :=
  {| edge_id := edgeId; edge_type := type; edge_properties := properties;
     fromNodeId := fromNodeId0; toNodeId := toNodeId0 |}.

Definition updated_edge (edge : Edge) (properties : gmap string prim) : Edge :=
  {| edge_id := edge_id edge; edge_type := edge_type edge;
     edge_properties := properties ∪ edge_properties edge;
     fromNodeId := fromNodeId edge; toNodeId := toNodeId edge |}.

Lemma createEdge_run a b type properties w :
  createEdge a b type properties w
  = match stored_node (kv w) a, stored_node (kv w) b with
    | Some fromNode, Some toNode =>
        let edgeId := nanoid_draws w (drawn w) in
        (Ok (new_edge edgeId type properties a b),
         after_draw w
           (<[NODE_PREFIX +++ b := JNode (with_inEdges toNode (inEdges toNode ++ [edgeId]))]>
              (<[NODE_PREFIX +++ a :=
                   JNode (with_outEdges fromNode (outEdges fromNode ++ [edgeId]))]>
                 (<[EDGE_PREFIX +++ edgeId := JEdge (new_edge edgeId type properties a b)]>
                    (kv w)))))
    | _, _ => (Throw "Source or target node not found", w)
    end.
Proof.
  unfold createEdge. unfold_M. cbn [Promise_all]. rewrite !getNode_run.
  destruct (stored_node (kv w) a), (stored_node (kv w) b); reflexivity.
Qed.

Lemma updateEdge_run edgeId properties w :
  updateEdge edgeId properties w
  = match stored_edge (kv w) edgeId with
    | None => (Ok None, w)
    | Some edge =>
        (Ok (Some (updated_edge edge properties)),
         with_kv w (<[EDGE_PREFIX +++ edgeId := JEdge (updated_edge edge properties)]> (kv w)))
    end.
Proof.
  unfold updateEdge. unfold_M. rewrite getEdge_run.
  destruct (stored_edge (kv w) edgeId); reflexivity.
Qed.





(** *** Listing the nodes of a type *)

Lemma prefix_nil s : String.prefix "" s = true.
Proof. destruct s; reflexivity. Qed.









Lemma keys_with_prefix_NoDup prefix m : NoDup (keys_with_prefix prefix m).
Proof.
  unfold keys_with_prefix. rewrite merge_sort_Permutation.
  apply NoDup_ListNoDup, List.NoDup_filter, NoDup_ListNoDup, NoDup_fst_map_to_list.
Qed.







(** *** The tracker on a represented graph *)






























Lemma plain_keys_check (p : gmap string value) :
  forallb (fun kvp => negb (has_colon kvp.1)) (map_to_list p) = true -> plain_keys p.
Proof.
  intros H k [v Hk]. rewrite forallb_forall in H.
  apply elem_of_map_to_list, list_elem_of_In in Hk.
  apply H in Hk. apply negb_true_iff in Hk. exact Hk.
Qed.

















Section Record.

Variable UAParser : string -> UAResult.





End Record.

(** The instant [T] of scenario S5, 2024-01-01T00:00:00.000Z, in
    milliseconds since the epoch. *)
Definition T0 : Z := 1704067200000.


Section Scenarios.

Variable UAParser : string -> UAResult.
Variable userAgent0 : string.
Variable clock0 : nat -> Z.



Definition S1 : M unit :=
  recordConnection UAParser "u1" "1.1.1.1" "fpA" userAgent0 "2024-01-01T00:00:00Z".

(** C1, at the input where the code departs from it.  After S1 no node
    carries the user id ["u2"], the address ["2.2.2.2"] or the
    fingerprint ["fpB"].  A [recordConnection] for these three creates no
    node: the store keeps its three nodes, those of ["u1"], ["1.1.1.1"]
    and ["fpA"], and it is their [lastSeen] that advances. *)
Theorem C1_upsert_ignores_the_natural_key :
  let w1 := run S1 (empty_world clock0) in
  let w2 := run (recordConnection UAParser "u2" "2.2.2.2" "fpB" userAgent0
                   "2024-01-01T00:01:00Z") w1 in
  map summary (all_nodes (kv w1))
  = [(Some (VStr "FINGERPRINT"), None, None, Some (VStr "fpA"),
      Some (VStr "2024-01-01T00:00:00Z"));
     (Some (VStr "IP"), None, Some (VStr "1.1.1.1"), None,
      Some (VStr "2024-01-01T00:00:00Z"));
     (Some (VStr "USER"), Some (VStr "u1"), None, None,
      Some (VStr "2024-01-01T00:00:00Z"))]
  /\ map summary (all_nodes (kv w2))
  = [(Some (VStr "FINGERPRINT"), None, None, Some (VStr "fpA"),
      Some (VStr "2024-01-01T00:01:00Z"));
     (Some (VStr "IP"), None, Some (VStr "1.1.1.1"), None,
      Some (VStr "2024-01-01T00:01:00Z"));
     (Some (VStr "USER"), Some (VStr "u1"), None, None,
      Some (VStr "2024-01-01T00:01:00Z"))].
Proof. split; by_evaluation. Qed.




End Scenarios.

(** ** Closed instances *)

(** A parser that recognises nothing, and a clock that stands still. *)
Definition unknown_agent (_ : string) : UAResult :=
  {| browser_name := None; browser_version := None; os_name := None;
     os_version := None; device_model := None; device_type := None;
     cpu_architecture := None |}.

Definition still (ms : Z) (_ : nat) : Z := ms.

Definition after_S1 : World := run (S1 unknown_agent "") (empty_world (still T0)).

(** C8, at the input where the code departs from it.  A node is on record
    under [a]; [createEdge a a] returns an edge, and afterwards the
    identifier of that edge is in [a.inEdges] but not in [a.outEdges]: the
    record written for the source end is overwritten by the one written for
    the target end. *)
Theorem C8_self_loop_loses_the_out_edge :
  let a := "V1StGXR8_Z5jdH" in
  let w := run (createNode {[ "type" := VStr "USER" ]}) (empty_world (still T0)) in
  let w' := run (createEdge a a "KNOWS" ∅) w in
  is_Some (stored_node (kv w) a)
  /\ exists edge,
    result (createEdge a a "KNOWS" ∅) w = Ok edge
    /\ stored_edge (kv w') (edge_id edge) = Some edge
    /\ inEdges <$> stored_node (kv w') a = Some [edge_id edge]
    /\ outEdges <$> stored_node (kv w') a = Some [].
Proof.
  intros a w w'. split.
  - exists (value_or no_node (result (createNode {[ "type" := VStr "USER" ]})
                                (empty_world (still T0)))).
    by_evaluation.
  - exists (value_or no_edge (result (createEdge a a "KNOWS" ∅) w)).
    repeat split; by_evaluation.
Qed.

Lemma C10_type_overrides_property_witness :
  query_prefix (by_natural_key "USER" "userId" "u2") = "index:type:" +++ "USER" +++ ":"
  /\ query (by_natural_key "USER" "userId" "u2") after_S1
     = query (without_property (by_natural_key "USER" "userId" "u2")) after_S1
  /\ exists r,
      query (by_natural_key "USER" "userId" "u2") after_S1 = (Ok r, after_S1)
      /\ items r = resolve (kv after_S1) BATCH_SIZE
                     (page ("index:type:" +++ "USER" +++ ":") BATCH_SIZE None (kv after_S1)).
Proof.
  apply (C10_type_overrides_property (by_natural_key "USER" "userId" "u2") "USER" after_S1).
  - reflexivity.
  - discriminate.
Defined.

(** The claim as the specification words it fails when the [type] option is
    provided as the empty string: the prefix is then the one of the
    property filter, and the result is not that of the call without the
    filter. *)
Lemma C10_empty_type_does_not_override :
  let o := {| q_type := Some ""; q_property := Some "userId";
              q_value := Some (VStr "u1"); q_limit := None; q_cursor := None |} in
  query_prefix o = "index:userId:u1:"
  /\ query_prefix o <> "index:type:" +++ "" +++ ":"
  /\ (length ∘ items) (value_or {| items := []; cursor := None; hasMore := false |}
                         (result (query o) after_S1)) = 1%nat
  /\ (length ∘ items) (value_or {| items := []; cursor := None; hasMore := false |}
                         (result (query (without_property o)) after_S1)) = 13%nat.
Proof.
  intros o. split; [reflexivity|]. split; [discriminate|].
  split; by_evaluation.
Qed.

(** An identifier source that is easy to reason about: the [i]-th
    identifier is ["n"] followed by [i] strokes. *)
Fixpoint strokes (i : nat) : string :=
  match i with O => "" | S j => "I" +++ strokes j end.

Definition tally (i : nat) : string := "n" +++ strokes i.

Definition tally_world : World :=
  {| kv := ∅; nanoid_draws := tally; drawn := 0; clock := still T0; ticks := 0 |}.

Lemma strokes_inj i j : strokes i = strokes j -> i = j.
Proof.
  revert j. induction i as [|i IH]; intros [|j] H; try discriminate; [reflexivity|].
  injection H as H. f_equal. apply IH. exact H.
Qed.

Lemma strokes_have_no_colon i : has_colon (strokes i) = false.
Proof. induction i as [|i IH]; [reflexivity|exact IH]. Qed.

Lemma nanoid_ok_tally : nanoid_ok tally_world.
Proof.
  split.
  - intros i. exact (strokes_have_no_colon i).
  - intros i j H. injection H as H. apply strokes_inj. exact H.
Qed.



Definition three_ops : list Op :=
  [CreateNode {[ "type" := VStr "USER"; "userId" := VStr "u1";
                 "lastSeen" := VStr "2024-01-01T00:00:00Z" ]};
   UpdateNode "n" {[ "lastSeen" := VStr "2024-01-01T00:01:00Z" ]};
   DeleteNode "n"].

Lemma C7_index_consistency_witness :
  nanoid_ok tally_world /\ kv tally_world = ∅ /\ Forall plain_op three_ops
  /\ index_consistent (kv (run (perform_all three_ops) tally_world)).
Proof.
  assert (H1 : nanoid_ok tally_world) by exact nanoid_ok_tally.
  assert (H2 : kv tally_world = ∅) by reflexivity.
  assert (H3 : Forall plain_op three_ops).
  { repeat constructor; apply plain_keys_check; vm_compute; reflexivity. }
  split; [exact H1|]. split; [exact H2|]. split; [exact H3|].
  pose proof (C7_index_consistency tally_world three_ops H1 H2 H3) as H.
  cbv zeta in H. destruct H as (_ & H & _). exact H.
Defined.

(** A store with a hundred USER nodes. *)
Definition numbered (i : nat) : string := "node" +++ pad 10 (Z.of_nat i).

Definition crowded : World :=
  run (perform_all (replicate 100 (CreateNode {[ "type" := VStr "USER" ]})))
      {| kv := ∅; nanoid_draws := numbered; drawn := 0; clock := still T0; ticks := 0 |}.

Definition ids_of (o : Outcome QueryResult) : option (list string) :=
  match o with Ok r => Some (map node_id (items r)) | Throw _ => None end.

(** The claim as the specification words it fails twice.  A timestamp
    holds [':']: after [createNode({lastSeen: "2024-01-01T00:00:00Z"})] the
    record [index:<k>:<v>:<nodeId>] exists for [k = "lastSeen:2024-01-01T00"]
    and [v = "00:00Z"], a key the node does not have.  And [query] returns
    one page: the node created as the hundred-and-first USER node is not
    among the items of [query({property: "type", value: "USER"})], which
    are the hundred nodes created before it. *)
Lemma C7_index_rows_are_ambiguous_and_pages_are_bounded :
  (let w := run (createNode {[ "lastSeen" := VStr "2024-01-01T00:00:00Z" ]})
                (empty_world (still T0)) in
   index_row (kv w) "lastSeen:2024-01-01T00" "00:00Z" "V1StGXR8_Z5jdH"
   /\ ~ carries (kv w) "V1StGXR8_Z5jdH" "lastSeen:2024-01-01T00" "00:00Z")
  /\ (let p : gmap string value := {[ "type" := VStr "USER" ]} in
      result (createNode p) crowded = Ok (new_node (numbered 100) p)
      /\ p !! "type" = Some (VStr "USER")
      /\ ids_of (result (query (by_property "type" (VStr "USER") None))
                        (run (createNode p) crowded))
         = Some (map numbered (seq 0 100))
      /\ numbered 100 ∉ map numbered (seq 0 100)).
Proof.
  split.
  - intros w. split.
    + exists (JIndex "V1StGXR8_Z5jdH" (VStr "2024-01-01T00:00:00Z")). by_evaluation.
    + intros (n & val & Hn & Hval & _).
      assert (H : stored_node (kv w) "V1StGXR8_Z5jdH"
                  = Some (new_node "V1StGXR8_Z5jdH"
                            {[ "lastSeen" := VStr "2024-01-01T00:00:00Z" ]}))
        by by_evaluation.
      rewrite H in Hn. injection Hn as <-. clear H.
      cbn [node_properties new_node] in Hval.
      rewrite lookup_singleton_ne in Hval by discriminate. discriminate Hval.
  - intros p.
    split; [by_evaluation|]. split; [by_evaluation|]. split; [by_evaluation|].
    apply (bool_decide_eq_false_1 _). by_evaluation.
Qed.

(** * Further properties of the code *)

(** ** Node and edge records *)

(** X1.  [createNode(p)] returns the node [{id, properties: p, inEdges: [],
    outEdges: []}] under the identifier [nanoid] has just drawn, [getNode]
    of that identifier reads it back, and no other node record and no edge
    record has changed. *)
Theorem createNode_then_getNode (properties : gmap string value) (w : World) :
  let nodeId := nanoid_draws w (drawn w) in
  let node := {| node_id := nodeId; node_properties := properties;
                 inEdges := []; outEdges := [] |} in
  let w' := run (createNode properties) w in
  result (createNode properties) w = Ok node
  /\ result (getNode nodeId) w' = Ok (Some node)
  /\ (forall i, i <> nodeId -> result (getNode i) w' = result (getNode i) w)
  /\ (forall e, result (getEdge e) w' = result (getEdge e) w)
  /\ drawn w' = S (drawn w).
Proof.
  intros nodeId node w'. subst w'. unfold run, result.
  rewrite createNode_run. fold nodeId. cbn [fst snd].
  split; [reflexivity|].
  rewrite !getNode_run. cbn [fst after_draw kv].
  split; [|split; [|split]].
  - rewrite stored_node_put_rows, stored_node_insert_node.
    rewrite decide_True by reflexivity. reflexivity.
  - intros i Hi. rewrite !getNode_run. cbn [fst after_draw kv].
    rewrite stored_node_put_rows, stored_node_insert_node.
    rewrite decide_False by congruence. reflexivity.
  - intros e. rewrite !getEdge_run. cbn [fst after_draw kv].
    rewrite stored_edge_put_rows, stored_edge_insert_node. reflexivity.
  - reflexivity.
Qed.

Lemma deleteEdge_run edgeId w :
  deleteEdge edgeId w
  = (Ok (bool_decide (is_Some (stored_edge (kv w) edgeId))),
     with_kv w (deleteEdge_kv edgeId (kv w))).
Proof.
  unfold deleteEdge, deleteEdge_kv. unfold_M. rewrite getEdge_run.
  destruct (stored_edge (kv w) edgeId) as [edge|]; [|rewrite with_kv_id; reflexivity].
  cbn [Promise_all]. rewrite !getNode_run. unfold_M. cbn [lookup list_lookup].
  destruct (stored_node (kv w) (fromNodeId edge)) as [fromNode|],
           (stored_node (kv w) (toNodeId edge)) as [toNode|]; reflexivity.
Qed.

(** X2.  [updateNode], [deleteNode], [updateEdge] and [deleteEdge] never throw.
    They answer [null], respectively [false], exactly when no record is
    stored under the identifier, and then they leave the world as it is. *)
Theorem nothing_on_record_nothing_done (w : World) :
  (forall nodeId p,
     (exists r, result (updateNode nodeId p) w = Ok r)
     /\ (result (updateNode nodeId p) w = Ok None <-> result (getNode nodeId) w = Ok None)
     /\ (result (getNode nodeId) w = Ok None -> run (updateNode nodeId p) w = w))
  /\ (forall nodeId,
        (exists r, result (deleteNode nodeId) w = Ok r)
        /\ (result (deleteNode nodeId) w = Ok false <-> result (getNode nodeId) w = Ok None)
        /\ (result (getNode nodeId) w = Ok None -> run (deleteNode nodeId) w = w))
  /\ (forall edgeId p,
        (exists r, result (updateEdge edgeId p) w = Ok r)
        /\ (result (updateEdge edgeId p) w = Ok None <-> result (getEdge edgeId) w = Ok None)
        /\ (result (getEdge edgeId) w = Ok None -> run (updateEdge edgeId p) w = w))
  /\ (forall edgeId,
        (exists r, result (deleteEdge edgeId) w = Ok r)
        /\ (result (deleteEdge edgeId) w = Ok false <-> result (getEdge edgeId) w = Ok None)
        /\ (result (getEdge edgeId) w = Ok None -> run (deleteEdge edgeId) w = w)).
Proof.
  unfold run, result. split; [|split; [|split]].
  - intros nodeId p. rewrite updateNode_run, getNode_run. cbn [fst].
    destruct (stored_node (kv w) nodeId) as [n|]; cbn [fst snd].
    + split; [eauto|]. split; [split; discriminate|discriminate].
    + split; [eauto|]. split; [tauto|reflexivity].
  - intros nodeId. rewrite deleteNode_run, getNode_run. cbn [fst].
    destruct (stored_node (kv w) nodeId) as [n|]; cbn [fst snd].
    + split; [eauto|]. split; [split; discriminate|discriminate].
    + split; [eauto|]. split; [tauto|reflexivity].
  - intros edgeId p. rewrite updateEdge_run, getEdge_run. cbn [fst].
    destruct (stored_edge (kv w) edgeId) as [e|]; cbn [fst snd].
    + split; [eauto|]. split; [split; discriminate|discriminate].
    + split; [eauto|]. split; [tauto|reflexivity].
  - intros edgeId. rewrite deleteEdge_run, getEdge_run. cbn [fst snd]. unfold deleteEdge_kv.
    destruct (stored_edge (kv w) edgeId) as [e|]; cbn [fst snd].
    + split; [eauto|]. split; [split; discriminate|discriminate].
    + split; [eauto|]. split; [tauto|]. intros _. apply with_kv_id.
Qed.

(** X3.  [updateNode(id, p)] on a node on record: the properties become
    [{...old, ...p}] (a key of [p] takes the value of [p], every other key
    keeps its own), identifier and adjacency lists stay, [getNode] reads the
    result back, and no other node record and no edge record changes. *)
Theorem updateNode_merges (nodeId : string) (p : gmap string value) (w : World) (node : Node) :
  result (getNode nodeId) w = Ok (Some node) ->
  let w' := run (updateNode nodeId p) w in
  exists node',
    result (updateNode nodeId p) w = Ok (Some node')
    /\ (forall k, node_properties node' !! k
                  = match p !! k with Some v => Some v | None => node_properties node !! k end)
    /\ node_id node' = node_id node
    /\ inEdges node' = inEdges node /\ outEdges node' = outEdges node
    /\ result (getNode nodeId) w' = Ok (Some node')
    /\ (forall i, i <> nodeId -> result (getNode i) w' = result (getNode i) w)
    /\ (forall e, result (getEdge e) w' = result (getEdge e) w).
Proof.
  unfold run, result. rewrite getNode_run. cbn [fst]. intros [= Hnode]. cbv zeta.
  rewrite updateNode_run, Hnode. cbn [fst snd].
  exists (updated_node node p). split; [reflexivity|].
  split.
  { intros k. cbn [updated_node with_properties node_properties].
    rewrite lookup_union. destruct (p !! k), (node_properties node !! k); reflexivity. }
  do 3 (split; [reflexivity|]).
  split; [|split].
  - rewrite getNode_run. cbn [fst with_kv kv].
    rewrite stored_node_insert_node, decide_True by reflexivity. reflexivity.
  - intros i Hi. rewrite !getNode_run. cbn [fst with_kv kv].
    rewrite stored_node_insert_node, decide_False by congruence.
    rewrite stored_node_put_rows, stored_node_delete_rows. reflexivity.
  - intros e. rewrite !getEdge_run. cbn [fst with_kv kv].
    rewrite stored_edge_insert_node, stored_edge_put_rows, stored_edge_delete_rows.
    reflexivity.
Qed.

(** A store with one node, ["n"]. *)
Definition one_node : World :=
  run (createNode {[ "type" := VStr "USER"; "lastSeen" := VStr "2024-01-01T00:00:00Z" ]})
      tally_world.

(** A store with two nodes, ["n"] and ["nI"], and an edge ["nII"] from the
    first to the second. *)
Definition two_linked : World :=
  run (createEdge "n" "nI" "KNOWS" {[ "count" := PNum 1 ]})
    (run (createNode {[ "type" := VStr "IP" ]}) one_node).

Lemma updateNode_merges_witness :
  let p : gmap string value := {[ "lastSeen" := VStr "2024-01-01T00:01:00Z" ]} in
  let node := new_node "n" {[ "type" := VStr "USER";
                              "lastSeen" := VStr "2024-01-01T00:00:00Z" ]} in
  result (getNode "n") one_node = Ok (Some node)
  /\ exists node',
    result (updateNode "n" p) one_node = Ok (Some node')
    /\ (forall k, node_properties node' !! k
                  = match p !! k with Some v => Some v | None => node_properties node !! k end)
    /\ node_id node' = node_id node
    /\ inEdges node' = inEdges node /\ outEdges node' = outEdges node
    /\ result (getNode "n") (run (updateNode "n" p) one_node) = Ok (Some node')
    /\ (forall i, i <> "n" -> result (getNode i) (run (updateNode "n" p) one_node)
                              = result (getNode i) one_node)
    /\ (forall e, result (getEdge e) (run (updateNode "n" p) one_node)
                  = result (getEdge e) one_node).
Proof.
  intros p node.
  assert (H : result (getNode "n") one_node = Ok (Some node)) by (vm_compute; reflexivity).
  split; [exact H|]. exact (updateNode_merges "n" p one_node node H).
Defined.

(** X4.  [updateEdge(id, p)] on an edge on record: the properties become
    [{...old, ...p}], type and end points stay, [getEdge] reads the result
    back, no node record and no other edge record changes, and doing it a
    second time changes nothing more. *)
Theorem updateEdge_merges (edgeId : string) (p : gmap string prim) (w : World) (edge : Edge) :
  result (getEdge edgeId) w = Ok (Some edge) ->
  let w' := run (updateEdge edgeId p) w in
  exists edge',
    result (updateEdge edgeId p) w = Ok (Some edge')
    /\ (forall k, edge_properties edge' !! k
                  = match p !! k with Some v => Some v | None => edge_properties edge !! k end)
    /\ edge_id edge' = edge_id edge /\ edge_type edge' = edge_type edge
    /\ fromNodeId edge' = fromNodeId edge /\ toNodeId edge' = toNodeId edge
    /\ result (getEdge edgeId) w' = Ok (Some edge')
    /\ (forall e, e <> edgeId -> result (getEdge e) w' = result (getEdge e) w)
    /\ (forall i, result (getNode i) w' = result (getNode i) w)
    /\ updateEdge edgeId p w' = (Ok (Some edge'), w').
Proof.
  unfold run, result. rewrite getEdge_run. cbn [fst]. intros [= Hedge]. cbv zeta.
  rewrite updateEdge_run, Hedge. cbn [fst snd].
  exists (updated_edge edge p). split; [reflexivity|].
  split.
  { intros k. cbn [updated_edge edge_properties].
    rewrite lookup_union. destruct (p !! k), (edge_properties edge !! k); reflexivity. }
  do 4 (split; [reflexivity|]).
  split; [|split; [|split]].
  - rewrite getEdge_run. cbn [fst with_kv kv].
    rewrite stored_edge_insert_edge, decide_True by reflexivity. reflexivity.
  - intros e He. rewrite !getEdge_run. cbn [fst with_kv kv].
    rewrite stored_edge_insert_edge, decide_False by congruence. reflexivity.
  - intros i. rewrite !getNode_run. cbn [fst with_kv kv].
    rewrite stored_node_insert_edge. reflexivity.
  - rewrite updateEdge_run. cbn [with_kv kv].
    rewrite stored_edge_insert_edge, decide_True by reflexivity.
    assert (Hsame : updated_edge (updated_edge edge p) p = updated_edge edge p).
    { unfold updated_edge. cbn. f_equal.
      rewrite (assoc_L (∪)), (idemp_L (∪)). reflexivity. }
    rewrite Hsame. unfold with_kv. cbn. rewrite insert_insert_eq. reflexivity.
Qed.

Lemma updateEdge_merges_witness :
  let p : gmap string prim := {[ "count" := PNum 2 ]} in
  let edge := new_edge "nII" "KNOWS" {[ "count" := PNum 1 ]} "n" "nI" in
  let w' := run (updateEdge "nII" p) two_linked in
  result (getEdge "nII") two_linked = Ok (Some edge)
  /\ exists edge',
    result (updateEdge "nII" p) two_linked = Ok (Some edge')
    /\ (forall k, edge_properties edge' !! k
                  = match p !! k with Some v => Some v | None => edge_properties edge !! k end)
    /\ edge_id edge' = edge_id edge /\ edge_type edge' = edge_type edge
    /\ fromNodeId edge' = fromNodeId edge /\ toNodeId edge' = toNodeId edge
    /\ result (getEdge "nII") w' = Ok (Some edge')
    /\ (forall e, e <> "nII" -> result (getEdge e) w' = result (getEdge e) two_linked)
    /\ (forall i, result (getNode i) w' = result (getNode i) two_linked)
    /\ updateEdge "nII" p w' = (Ok (Some edge'), w').
Proof.
  intros p edge w'.
  assert (H : result (getEdge "nII") two_linked = Ok (Some edge)) by (vm_compute; reflexivity).
  split; [exact H|]. exact (updateEdge_merges "nII" p two_linked edge H).
Defined.

Lemma stored_node_Some m nodeId n :
  stored_node m nodeId = Some n <-> m !! (NODE_PREFIX +++ nodeId) = Some (JNode n).
Proof.
  unfold stored_node. destruct (m !! (NODE_PREFIX +++ nodeId)) as [[n'| |]|];
    split; intros H; try discriminate; congruence.
Qed.

Lemma stored_edge_Some m edgeId e :
  stored_edge m edgeId = Some e <-> m !! (EDGE_PREFIX +++ edgeId) = Some (JEdge e).
Proof.
  unfold stored_edge. destruct (m !! (EDGE_PREFIX +++ edgeId)) as [[|e'|]|];
    split; intros H; try discriminate; congruence.
Qed.

Lemma filter_is_not_other edgeId l :
  edgeId ∉ l -> List.filter (is_not edgeId) l = l.
Proof.
  induction l as [|i l IH]; [reflexivity|]. intros Hnot.
  apply not_elem_of_cons in Hnot as [Hne Hnot]. cbn [List.filter]. unfold is_not at 1.
  destruct (String.eqb_spec i edgeId) as [->|_]; [contradiction|].
  cbn [negb]. rewrite IH by exact Hnot. reflexivity.
Qed.

Lemma filter_is_not_last edgeId l :
  edgeId ∉ l -> List.filter (is_not edgeId) (l ++ [edgeId]) = l.
Proof.
  intros Hnot. rewrite List.filter_app, filter_is_not_other by exact Hnot.
  cbn [List.filter]. unfold is_not. rewrite String.eqb_refl. cbn [negb]. apply app_nil_r.
Qed.

Lemma elem_of_filter_is_not edgeId i l :
  i ∈ List.filter (is_not edgeId) l <-> i ∈ l /\ i <> edgeId.
Proof.
  rewrite !list_elem_of_In, List.filter_In. unfold is_not.
  destruct (String.eqb_spec i edgeId); cbn [negb]; intuition congruence.
Qed.

(** X5.  [deleteEdge] undoes [createEdge].  When both end points are on record
    and the identifier [nanoid] draws is not in use (nothing stored under
    its edge key, not listed by the end points), creating an edge and
    deleting it again leaves the namespace exactly as it was; this holds
    for a self-loop too. *)
Theorem createEdge_then_deleteEdge (a b type : string) (p : gmap string prim)
    (w : World) (na nb : Node) :
  result (getNode a) w = Ok (Some na) ->
  result (getNode b) w = Ok (Some nb) ->
  let edgeId := nanoid_draws w (drawn w) in
  kv w !! (EDGE_PREFIX +++ edgeId) = None ->
  edgeId ∉ outEdges na -> edgeId ∉ inEdges nb ->
  let w1 := run (createEdge a b type p) w in
  (exists edge, result (createEdge a b type p) w = Ok edge /\ edge_id edge = edgeId)
  /\ result (deleteEdge edgeId) w1 = Ok true
  /\ kv (run (deleteEdge edgeId) w1) = kv w.
Proof.
  unfold run, result. rewrite !getNode_run. cbn [fst].
  intros [= Ha] [= Hb]. cbv zeta. set (edgeId := nanoid_draws w (drawn w)).
  intros Hfree Hout Hin.
  rewrite createEdge_run, Ha, Hb. fold edgeId. cbn [fst snd].
  split; [eexists; split; reflexivity|].
  rewrite deleteEdge_run. cbn [fst snd after_draw with_kv kv].
  set (E := new_edge edgeId type p a b).
  set (m1 := <[NODE_PREFIX +++ b := _]> _).
  assert (HE : stored_edge m1 edgeId = Some E).
  { subst m1. rewrite !stored_edge_insert_node, stored_edge_insert_edge.
    rewrite decide_True by reflexivity. reflexivity. }
  rewrite HE. split; [reflexivity|].
  unfold deleteEdge_kv. rewrite HE. cbn [E new_edge fromNodeId toNodeId].
  apply stored_node_Some in Ha, Hb.
  destruct (decide (a = b)) as [<-|Hab].
  - assert (na = nb) by congruence. subst nb.
    assert (Hn : stored_node m1 a = Some (with_inEdges na (inEdges na ++ [edgeId]))).
    { subst m1. rewrite stored_node_insert_node, decide_True by reflexivity. reflexivity. }
    rewrite Hn. cbn [with_inEdges with_outEdges inEdges outEdges node_id node_properties].
    rewrite filter_is_not_last by exact Hin.
    apply map_eq. intros key.
    destruct (decide (key = EDGE_PREFIX +++ edgeId)) as [->|Hk1].
    { rewrite lookup_delete_eq. symmetry. exact Hfree. }
    rewrite lookup_delete_ne by congruence.
    destruct (decide (key = NODE_PREFIX +++ a)) as [->|Hk2].
    { rewrite lookup_insert_eq, Ha. destruct na; reflexivity. }
    subst m1. rewrite !lookup_insert_ne by congruence. reflexivity.
  - assert (Hna : stored_node m1 a = Some (with_outEdges na (outEdges na ++ [edgeId]))).
    { subst m1. rewrite !stored_node_insert_node, decide_False by congruence.
      rewrite decide_True by reflexivity. reflexivity. }
    assert (Hnb : stored_node m1 b = Some (with_inEdges nb (inEdges nb ++ [edgeId]))).
    { subst m1. rewrite stored_node_insert_node, decide_True by reflexivity. reflexivity. }
    rewrite Hna, Hnb.
    cbn [with_inEdges with_outEdges inEdges outEdges node_id node_properties].
    rewrite !filter_is_not_last by assumption.
    apply map_eq. intros key.
    destruct (decide (key = EDGE_PREFIX +++ edgeId)) as [->|Hk1].
    { rewrite lookup_delete_eq. symmetry. exact Hfree. }
    rewrite lookup_delete_ne by congruence.
    destruct (decide (key = NODE_PREFIX +++ b)) as [->|Hk2].
    { rewrite lookup_insert_eq, Hb. destruct nb; reflexivity. }
    rewrite lookup_insert_ne by congruence.
    destruct (decide (key = NODE_PREFIX +++ a)) as [->|Hk3].
    { rewrite lookup_insert_eq, Ha. destruct na; reflexivity. }
    subst m1. rewrite !lookup_insert_ne by congruence. reflexivity.
Qed.

(** Two nodes, ["n"] and ["nI"], and no edge. *)
Definition two_nodes : World :=
  run (createNode {[ "type" := VStr "IP" ]}) one_node.

Lemma createEdge_then_deleteEdge_witness :
  let p : gmap string prim := {[ "count" := PNum 1 ]} in
  let w1 := run (createEdge "n" "nI" "KNOWS" p) two_nodes in
  (exists edge, result (createEdge "n" "nI" "KNOWS" p) two_nodes = Ok edge
                /\ edge_id edge = "nII")
  /\ result (deleteEdge "nII") w1 = Ok true
  /\ kv (run (deleteEdge "nII") w1) = kv two_nodes.
Proof.
  intros p.
  refine (createEdge_then_deleteEdge "n" "nI" "KNOWS" p two_nodes
            (new_node "n" {[ "type" := VStr "USER";
                             "lastSeen" := VStr "2024-01-01T00:00:00Z" ]})
            (new_node "nI" {[ "type" := VStr "IP" ]}) _ _ _ _ _).
  - vm_compute. reflexivity.
  - vm_compute. reflexivity.
  - vm_compute. reflexivity.
  - cbn. apply not_elem_of_nil.
  - cbn. apply not_elem_of_nil.
Defined.

Lemma stored_edge_delete_node m nodeId edgeId :
  stored_edge (delete (NODE_PREFIX +++ nodeId) m) edgeId = stored_edge m edgeId.
Proof. unfold stored_edge. rewrite lookup_delete_ne by discriminate. reflexivity. Qed.

Lemma stored_node_delete_edge m edgeId nodeId :
  stored_node (delete (EDGE_PREFIX +++ edgeId) m) nodeId = stored_node m nodeId.
Proof. unfold stored_node. rewrite lookup_delete_ne by discriminate. reflexivity. Qed.

Lemma stored_edge_delete_edge m edgeId edgeId' :
  stored_edge (delete (EDGE_PREFIX +++ edgeId) m) edgeId'
  = if decide (edgeId = edgeId') then None else stored_edge m edgeId'.
Proof.
  unfold stored_edge. destruct (decide (edgeId = edgeId')) as [->|Hne].
  - rewrite lookup_delete_eq. reflexivity.
  - rewrite lookup_delete_ne; [reflexivity|].
    intros H. apply edge_key_inj in H. contradiction.
Qed.

(** The edge records after [deleteEdge]: the one deleted is gone, the
    others are as they were. *)
Lemma stored_edge_deleteEdge_kv edgeId m edgeId' :
  stored_edge (deleteEdge_kv edgeId m) edgeId'
  = if decide (edgeId = edgeId') then None else stored_edge m edgeId'.
Proof.
  unfold deleteEdge_kv. destruct (stored_edge m edgeId) as [edge|] eqn:He.
  - rewrite stored_edge_delete_edge.
    destruct (decide (edgeId = edgeId')); [reflexivity|].
    destruct (stored_node m (fromNodeId edge)), (stored_node m (toNodeId edge));
      rewrite ?stored_edge_insert_node; reflexivity.
  - destruct (decide (edgeId = edgeId')) as [<-|]; [exact He|reflexivity].
Qed.

Lemma stored_edge_deleteEdges edgeIds m edgeId' :
  stored_edge (foldl (fun m edgeId => deleteEdge_kv edgeId m) m edgeIds) edgeId'
  = if bool_decide (edgeId' ∈ edgeIds) then None else stored_edge m edgeId'.
Proof.
  revert m. induction edgeIds as [|e l IH]; intros m; [reflexivity|].
  cbn [foldl]. rewrite IH, stored_edge_deleteEdge_kv.
  destruct (decide (e = edgeId')) as [->|Hne].
  - rewrite (bool_decide_eq_true_2 (edgeId' ∈ edgeId' :: l)) by left.
    destruct (bool_decide (edgeId' ∈ l)); reflexivity.
  - destruct (bool_decide (edgeId' ∈ l)) eqn:Hl.
    + apply bool_decide_eq_true_1 in Hl.
      rewrite bool_decide_eq_true_2 by (right; exact Hl). reflexivity.
    + apply bool_decide_eq_false_1 in Hl.
      rewrite bool_decide_eq_false_2; [reflexivity|].
      intros [?|?]%elem_of_cons; [congruence|contradiction].
Qed.

(** X6.  [deleteEdge] of an edge between two different nodes on record: the
    edge record is gone, its identifier is gone from the [outEdges] of the
    source and from the [inEdges] of the target, which otherwise keep what
    they had, and nothing else changes. *)
Theorem deleteEdge_unlinks (edgeId : string) (w : World) (edge : Edge) (na nb : Node) :
  result (getEdge edgeId) w = Ok (Some edge) ->
  result (getNode (fromNodeId edge)) w = Ok (Some na) ->
  result (getNode (toNodeId edge)) w = Ok (Some nb) ->
  fromNodeId edge <> toNodeId edge ->
  let w' := run (deleteEdge edgeId) w in
  result (deleteEdge edgeId) w = Ok true
  /\ result (getEdge edgeId) w' = Ok None
  /\ result (getNode (fromNodeId edge)) w'
     = Ok (Some (with_outEdges na (List.filter (is_not edgeId) (outEdges na))))
  /\ result (getNode (toNodeId edge)) w'
     = Ok (Some (with_inEdges nb (List.filter (is_not edgeId) (inEdges nb))))
  /\ (forall i, i ∈ List.filter (is_not edgeId) (outEdges na) <-> i ∈ outEdges na /\ i <> edgeId)
  /\ (forall i, i ∈ List.filter (is_not edgeId) (inEdges nb) <-> i ∈ inEdges nb /\ i <> edgeId)
  /\ (forall i, i <> fromNodeId edge -> i <> toNodeId edge ->
                result (getNode i) w' = result (getNode i) w)
  /\ (forall e, e <> edgeId -> result (getEdge e) w' = result (getEdge e) w).
Proof.
  unfold run, result. rewrite getEdge_run, !getNode_run. cbn [fst].
  intros [= He] [= Ha] [= Hb] Hab. cbv zeta.
  rewrite deleteEdge_run. cbn [fst snd]. rewrite He.
  split; [reflexivity|].
  rewrite ?getEdge_run, ?getNode_run. cbn [fst with_kv kv].
  rewrite stored_edge_deleteEdge_kv, decide_True by reflexivity.
  split; [reflexivity|].
  assert (Hnodes : forall i,
    stored_node (deleteEdge_kv edgeId (kv w)) i
    = if decide (toNodeId edge = i)
      then Some (with_inEdges nb (List.filter (is_not edgeId) (inEdges nb)))
      else if decide (fromNodeId edge = i)
           then Some (with_outEdges na (List.filter (is_not edgeId) (outEdges na)))
           else stored_node (kv w) i).
  { intros i. unfold deleteEdge_kv. rewrite He, Ha, Hb.
    rewrite stored_node_delete_edge, !stored_node_insert_node. reflexivity. }
  split; [rewrite Hnodes, decide_False by congruence;
          rewrite decide_True by reflexivity; reflexivity|].
  split; [rewrite Hnodes, decide_True by reflexivity; reflexivity|].
  split; [intros i; apply elem_of_filter_is_not|].
  split; [intros i; apply elem_of_filter_is_not|].
  split.
  - intros i Hi1 Hi2. rewrite !getNode_run. cbn [fst with_kv kv].
    rewrite Hnodes, !decide_False by congruence. reflexivity.
  - intros e Hne. rewrite !getEdge_run. cbn [fst with_kv kv].
    rewrite stored_edge_deleteEdge_kv, decide_False by congruence. reflexivity.
Qed.

Lemma deleteEdge_unlinks_witness :
  let edge := new_edge "nII" "KNOWS" {[ "count" := PNum 1 ]} "n" "nI" in
  let na := with_outEdges (new_node "n" {[ "type" := VStr "USER";
                                           "lastSeen" := VStr "2024-01-01T00:00:00Z" ]})
                          ["nII"] in
  let nb := with_inEdges (new_node "nI" {[ "type" := VStr "IP" ]}) ["nII"] in
  let w' := run (deleteEdge "nII") two_linked in
  result (deleteEdge "nII") two_linked = Ok true
  /\ result (getEdge "nII") w' = Ok None
  /\ result (getNode (fromNodeId edge)) w'
     = Ok (Some (with_outEdges na (List.filter (is_not "nII") (outEdges na))))
  /\ result (getNode (toNodeId edge)) w'
     = Ok (Some (with_inEdges nb (List.filter (is_not "nII") (inEdges nb))))
  /\ (forall i, i ∈ List.filter (is_not "nII") (outEdges na) <-> i ∈ outEdges na /\ i <> "nII")
  /\ (forall i, i ∈ List.filter (is_not "nII") (inEdges nb) <-> i ∈ inEdges nb /\ i <> "nII")
  /\ (forall i, i <> fromNodeId edge -> i <> toNodeId edge ->
                result (getNode i) w' = result (getNode i) two_linked)
  /\ (forall e, e <> "nII" -> result (getEdge e) w' = result (getEdge e) two_linked).
Proof.
  intros edge na nb.
  refine (deleteEdge_unlinks "nII" two_linked edge na nb _ _ _ _).
  - vm_compute. reflexivity.
  - vm_compute. reflexivity.
  - vm_compute. reflexivity.
  - cbn. discriminate.
Defined.

(** X7.  [deleteNode] of a node on record: the node record is gone, every edge
    listed in its [inEdges] or [outEdges] is gone, every other edge record
    is as it was, and every other node is on record exactly when it was,
    with the properties it had. *)
Theorem deleteNode_removes (nodeId : string) (w : World) (node : Node) :
  result (getNode nodeId) w = Ok (Some node) ->
  let w' := run (deleteNode nodeId) w in
  result (deleteNode nodeId) w = Ok true
  /\ result (getNode nodeId) w' = Ok None
  /\ (forall e, e ∈ inEdges node ++ outEdges node -> result (getEdge e) w' = Ok None)
  /\ (forall e, e ∉ inEdges node ++ outEdges node ->
                result (getEdge e) w' = result (getEdge e) w)
  /\ (forall i, i <> nodeId ->
        node_properties <$> stored_node (kv w') i = node_properties <$> stored_node (kv w) i).
Proof.
  unfold run, result. rewrite getNode_run. cbn [fst]. intros [= Hnode]. cbv zeta.
  rewrite deleteNode_run, Hnode. cbn [fst snd].
  split; [reflexivity|].
  rewrite getNode_run. cbn [fst with_kv kv].
  split; [rewrite stored_node_delete_node, decide_True by reflexivity; reflexivity|].
  assert (Hedges : forall e,
    stored_edge (delete (NODE_PREFIX +++ nodeId)
                   (delete_rows nodeId (map_to_list (node_properties node))
                      (foldl (fun m edgeId => deleteEdge_kv edgeId m) (kv w)
                             (inEdges node ++ outEdges node)))) e
    = if bool_decide (e ∈ inEdges node ++ outEdges node) then None
      else stored_edge (kv w) e).
  { intros e. rewrite stored_edge_delete_node, stored_edge_delete_rows.
    apply stored_edge_deleteEdges. }
  split; [|split].
  - intros e He. rewrite getEdge_run. cbn [fst with_kv kv].
    rewrite Hedges, bool_decide_eq_true_2 by exact He. reflexivity.
  - intros e He. rewrite !getEdge_run. cbn [fst with_kv kv].
    rewrite Hedges, bool_decide_eq_false_2 by exact He. reflexivity.
  - intros i Hi. rewrite stored_node_delete_node, decide_False by congruence.
    rewrite stored_node_delete_rows.
    apply (deleteEdges_same_view (inEdges node ++ outEdges node) (kv w)).
Qed.

Lemma deleteNode_removes_witness :
  let node := with_outEdges (new_node "n" {[ "type" := VStr "USER";
                                             "lastSeen" := VStr "2024-01-01T00:00:00Z" ]})
                            ["nII"] in
  let w' := run (deleteNode "n") two_linked in
  result (deleteNode "n") two_linked = Ok true
  /\ result (getNode "n") w' = Ok None
  /\ (forall e, e ∈ inEdges node ++ outEdges node -> result (getEdge e) w' = Ok None)
  /\ (forall e, e ∉ inEdges node ++ outEdges node ->
                result (getEdge e) w' = result (getEdge e) two_linked)
  /\ (forall i, i <> "n" ->
        node_properties <$> stored_node (kv w') i
        = node_properties <$> stored_node (kv two_linked) i).
Proof.
  intros node.
  refine (deleteNode_removes "n" two_linked node _).
  vm_compute. reflexivity.
Defined.

(** ** Referential integrity of the adjacency lists *)

























(** ** getConnectedNodes and traverse *)

(** The neighbours [getConnectedNodes] answers with, read off the
    namespace. *)
Definition connected (m : gmap string json) (nodeId : string) (direction : Direction)
    (edgeType : option string) : list Node :=
  match stored_node m nodeId with
  | None => []
  | Some node =>
      omap id
        (map (stored_node m)
           (map (far_end direction)
              (omap (fun edge : option Edge =>
                       e ← edge; if admits edgeType e then Some e else None)
                    (map (stored_edge m) (adjacency direction node)))))
  end.

Lemma getConnectedNodes_run nodeId direction edgeType w :
  getConnectedNodes nodeId direction edgeType w
  = (Ok (connected (kv w) nodeId direction edgeType), w).
Proof.
  unfold getConnectedNodes, connected. unfold_M. rewrite getNode_run.
  destruct (stored_node (kv w) nodeId) as [node|]; [|reflexivity].
  rewrite Promise_all_getEdge, Promise_all_getNode. reflexivity.
Qed.

Lemma connected_elem m nodeId direction edgeType n :
  n ∈ connected m nodeId direction edgeType <->
  exists node edgeId edge,
    stored_node m nodeId = Some node
    /\ edgeId ∈ adjacency direction node
    /\ stored_edge m edgeId = Some edge
    /\ admits edgeType edge = true
    /\ stored_node m (far_end direction edge) = Some n.
Proof.
  unfold connected. destruct (stored_node m nodeId) as [node|]; [|split].
  - rewrite list_elem_of_omap. split.
    + intros (x & Hx & Hid). cbn in Hid. subst x.
      apply list_elem_of_fmap in Hx as (j & Hj & Hx).
      apply list_elem_of_fmap in Hx as (edge & -> & Hx).
      apply list_elem_of_omap in Hx as (oe & Hoe & Hadm).
      apply list_elem_of_fmap in Hoe as (edgeId & -> & HedgeId).
      destruct (stored_edge m edgeId) as [e|] eqn:He; [|discriminate].
      cbn in Hadm. destruct (admits edgeType e) eqn:Ha; [|discriminate].
      injection Hadm as ->. exists node, edgeId, edge. auto.
    + intros (node' & edgeId & edge & [= <-] & HedgeId & He & Hadm & Hn).
      exists (Some n). split; [|reflexivity].
      apply list_elem_of_fmap. exists (far_end direction edge). split; [auto|].
      apply list_elem_of_fmap. exists edge. split; [reflexivity|].
      apply list_elem_of_omap. exists (Some edge). split.
      * apply list_elem_of_fmap. exists edgeId. auto.
      * cbn. rewrite Hadm. reflexivity.
  - inversion 1.
  - intros (node & _ & _ & H & _). discriminate.
Qed.

(** X9.  [getConnectedNodes] never throws and writes nothing.  Its answer is
    empty when the node is not on record; otherwise a node is in the
    answer exactly when it is on record at the far end of an edge on
    record that the node lists on the side asked for and whose type is the
    one asked for.  An edge type that is absent or the empty string admits
    every edge. *)
Theorem getConnectedNodes_answer (nodeId : string) (direction : Direction)
    (edgeType : option string) (w : World) :
  exists nodes,
    getConnectedNodes nodeId direction edgeType w = (Ok nodes, w)
    /\ (result (getNode nodeId) w = Ok None -> nodes = [])
    /\ (forall n, n ∈ nodes <->
          exists node edgeId edge,
            result (getNode nodeId) w = Ok (Some node)
            /\ edgeId ∈ (match direction with
                         | Outgoing => outEdges node
                         | Incoming => inEdges node
                         end)
            /\ result (getEdge edgeId) w = Ok (Some edge)
            /\ (match edgeType with
                | None | Some "" => True
                | Some type => edge_type edge = type
                end)
            /\ result (getNode (match direction with
                                | Outgoing => toNodeId edge
                                | Incoming => fromNodeId edge
                                end)) w = Ok (Some n)).
Proof.
  exists (connected (kv w) nodeId direction edgeType).
  split; [apply getConnectedNodes_run|]. unfold result. rewrite getNode_run. cbn [fst].
  split.
  - intros [= H]. unfold connected. rewrite H. reflexivity.
  - intros n. rewrite connected_elem. split.
    + intros (node & edgeId & edge & Hn & HedgeId & He & Hadm & Hfar).
      exists node, edgeId, edge. rewrite getEdge_run, getNode_run. cbn [fst].
      rewrite Hn, He. split; [reflexivity|]. split; [exact HedgeId|].
      split; [reflexivity|]. split; [|rewrite <- Hfar; reflexivity].
      destruct edgeType as [[|c r]|]; try exact I.
      apply String.eqb_eq. exact Hadm.
    + intros (node & edgeId & edge & [= Hn] & HedgeId & He & Hadm & Hfar).
      rewrite getEdge_run in He. rewrite getNode_run in Hfar. cbn [fst] in He, Hfar.
      injection He as He. injection Hfar as Hfar.
      exists node, edgeId, edge. split; [exact Hn|]. split; [exact HedgeId|].
      split; [exact He|]. split; [|exact Hfar].
      destruct edgeType as [[|c r]|]; try reflexivity.
      apply String.eqb_eq. exact Hadm.
Qed.

(** X10.  After [createEdge(a, b, type)] between two different nodes on record,
    [b] is among the nodes connected to [a] outwards and [a] among those
    connected to [b] inwards, for the type of the edge and for no type. *)
Theorem createEdge_connects (a b type : string) (p : gmap string prim) (w : World)
    (na nb : Node) (edgeType : option string) :
  a <> b ->
  result (getNode a) w = Ok (Some na) ->
  result (getNode b) w = Ok (Some nb) ->
  edgeType = None \/ edgeType = Some type ->
  let w' := run (createEdge a b type p) w in
  exists na' nb' outwards inwards,
    result (getNode a) w' = Ok (Some na')
    /\ result (getNode b) w' = Ok (Some nb')
    /\ result (getConnectedNodes a Outgoing edgeType) w' = Ok outwards
    /\ nb' ∈ outwards
    /\ result (getConnectedNodes b Incoming edgeType) w' = Ok inwards
    /\ na' ∈ inwards.
Proof.
  unfold result. rewrite !getNode_run. cbn [fst]. intros Hab [= Ha] [= Hb] Htype. cbv zeta.
  destruct (createEdge_between_two_nodes a b type p w na nb Hab Ha Hb)
    as (_ & He & Ha' & Hb').
  cbv zeta in He, Ha', Hb'.
  set (w' := run (createEdge a b type p) w) in *.
  set (edgeId := nanoid_draws w (drawn w)) in *.
  exists (with_outEdges na (outEdges na ++ [edgeId])),
         (with_inEdges nb (inEdges nb ++ [edgeId])),
         (connected (kv w') a Outgoing edgeType),
         (connected (kv w') b Incoming edgeType).
  rewrite ?getNode_run, ?getConnectedNodes_run. cbn [fst]. rewrite Ha', Hb'.
  split; [reflexivity|]. split; [reflexivity|].
  assert (Hadm : admits edgeType
                   {| edge_id := edgeId; edge_type := type; edge_properties := p;
                      fromNodeId := a; toNodeId := b |} = true).
  { destruct Htype as [->| ->]; [reflexivity|]. destruct type; [reflexivity|].
    cbn [admits edge_type]. apply String.eqb_refl. }
  split; [reflexivity|]. split; [|split; [reflexivity|]].
  - apply connected_elem. eexists _, edgeId, _.
    split; [exact Ha'|]. split; [cbn; apply elem_of_app; right; left|].
    split; [exact He|]. split; [exact Hadm|exact Hb'].
  - apply connected_elem. eexists _, edgeId, _.
    split; [exact Hb'|]. split; [cbn; apply elem_of_app; right; left|].
    split; [exact He|]. split; [exact Hadm|exact Ha'].
Qed.

Lemma createEdge_connects_witness :
  let w' := run (createEdge "n" "nI" "KNOWS" ∅) two_nodes in
  exists na' nb' outwards inwards,
    result (getNode "n") w' = Ok (Some na')
    /\ result (getNode "nI") w' = Ok (Some nb')
    /\ result (getConnectedNodes "n" Outgoing (Some "KNOWS")) w' = Ok outwards
    /\ nb' ∈ outwards
    /\ result (getConnectedNodes "nI" Incoming (Some "KNOWS")) w' = Ok inwards
    /\ na' ∈ inwards.
Proof.
  refine (createEdge_connects "n" "nI" "KNOWS" ∅ two_nodes
            (new_node "n" {[ "type" := VStr "USER";
                             "lastSeen" := VStr "2024-01-01T00:00:00Z" ]})
            (new_node "nI" {[ "type" := VStr "IP" ]}) (Some "KNOWS") _ _ _ _).
  - discriminate.
  - vm_compute. reflexivity.
  - vm_compute. reflexivity.
  - right. reflexivity.
Defined.

Lemma foldM_run {A S} (f : S -> A -> M S) (g : S -> A -> S) (xs : list A) (st : S) w :
  (forall st x, x ∈ xs -> f st x w = (Ok (g st x), w)) ->
  foldM f st xs w = (Ok (foldl g st xs), w).
Proof.
  revert st. induction xs as [|x xs IH]; intros st Hf; [reflexivity|].
  cbn [foldM foldl]. unfold_M. rewrite Hf by left.
  apply IH. intros st' y Hy. apply Hf. right. exact Hy.
Qed.

(** The walk of [traverseNodes], read off the namespace. *)
Fixpoint walk (m : gmap string json) (direction : Span) (edgeType : option string)
    (levels : nat) (nodeId : string) (st : Walk) : Walk :=
  match levels with
  | O => st
  | S levels' =>
      if bool_decide (nodeId ∈ visited st) then st else
      match stored_node m nodeId with
      | None => {| visited := {[ nodeId ]} ∪ visited st; walk_result := walk_result st |}
      | Some node =>
          foldl (fun st dir =>
                   foldl (fun st nextNode =>
                            walk m direction edgeType levels' (node_id nextNode) st)
                         st (connected m nodeId dir edgeType))
                {| visited := {[ nodeId ]} ∪ visited st;
                   walk_result := walk_result st ++ [node] |}
                (directions_of direction)
      end
  end.

Lemma traverseNodes_run direction edgeType levels nodeId st w :
  traverseNodes direction edgeType levels nodeId st w
  = (Ok (walk (kv w) direction edgeType levels nodeId st), w).
Proof.
  revert nodeId st. induction levels as [|levels IH]; intros nodeId st; [reflexivity|].
  cbn [traverseNodes walk]. destruct (bool_decide (nodeId ∈ visited st)); [reflexivity|].
  unfold_M. rewrite getNode_run.
  destruct (stored_node (kv w) nodeId) as [node|]; [|reflexivity].
  apply foldM_run. intros st' dir _. rewrite getConnectedNodes_run.
  apply foldM_run. intros st'' nextNode _. apply IH.
Qed.

Lemma traverse_run startNodeId maxDepth direction edgeType w :
  traverse startNodeId maxDepth direction edgeType w
  = (Ok (walk_result
           (walk (kv w) (default (Along Outgoing) direction) edgeType
                 (Z.to_nat (default 3 maxDepth)) startNodeId
                 {| visited := ∅; walk_result := [] |})), w).
Proof. unfold traverse. unfold_M. rewrite traverseNodes_run. reflexivity. Qed.

Lemma foldl_keeps {A S} (P : S -> Prop) (g : S -> A -> S) (xs : list A) (st : S) :
  (forall st x, x ∈ xs -> P st -> P (g st x)) -> P st -> P (foldl g st xs).
Proof.
  revert st. induction xs as [|x xs IH]; intros st Hg Hst; [exact Hst|].
  cbn [foldl]. apply IH.
  - intros st' y Hy. apply Hg. right. exact Hy.
  - apply Hg; [left|exact Hst].
Qed.

(** The walk only adds to what it has collected. *)
Lemma walk_extends m direction edgeType levels nodeId st :
  exists more,
    walk_result (walk m direction edgeType levels nodeId st) = walk_result st ++ more.
Proof.
  revert nodeId st. induction levels as [|levels IH]; intros nodeId st.
  { exists []. symmetry. apply app_nil_r. }
  cbn [walk]. destruct (bool_decide (nodeId ∈ visited st)).
  { exists []. symmetry. apply app_nil_r. }
  destruct (stored_node m nodeId) as [node|].
  2:{ exists []. symmetry. apply app_nil_r. }
  set (st0 := {| visited := _; walk_result := walk_result st ++ [node] |}).
  assert (H0 : exists more, walk_result st0 = walk_result st ++ node :: more).
  { exists []. reflexivity. }
  assert (H : exists more, walk_result
              (foldl (fun st dir =>
                        foldl (fun st nextNode =>
                                 walk m direction edgeType levels (node_id nextNode) st)
                              st (connected m nodeId dir edgeType))
                     st0 (directions_of direction)) = walk_result st ++ node :: more).
  { apply (foldl_keeps (fun s => exists more, walk_result s = walk_result st ++ node :: more));
      [|exact H0].
    intros st1 dir _ H1.
    apply (foldl_keeps (fun s => exists more, walk_result s = walk_result st ++ node :: more));
      [|exact H1].
    intros st2 nextNode _ (more & H2).
    destruct (IH (node_id nextNode) st2) as (more' & H3).
    exists (more ++ more'). rewrite H3, H2, <- app_assoc. reflexivity. }
  destruct H as (more & H). eauto.
Qed.

(** X11.  [traverse] never throws and writes nothing.  Without a level to
    descend, or from an identifier with no node on record, it answers
    with the empty list; otherwise the start node comes first. *)
Theorem traverse_starts_at_the_start (startNodeId : string) (maxDepth : option Z)
    (direction : option Span) (edgeType : option string) (w : World) :
  exists nodes,
    traverse startNodeId maxDepth direction edgeType w = (Ok nodes, w)
    /\ (default 3 maxDepth <= 0 -> nodes = [])
    /\ (result (getNode startNodeId) w = Ok None -> nodes = [])
    /\ (forall n, 0 < default 3 maxDepth ->
                  result (getNode startNodeId) w = Ok (Some n) ->
                  exists rest, nodes = n :: rest).
Proof.
  eexists. split; [apply traverse_run|].
  unfold result. rewrite getNode_run. cbn [fst].
  split; [|split].
  - intros Hle. replace (Z.to_nat (default 3 maxDepth)) with 0%nat by lia. reflexivity.
  - intros [= Hnone]. destruct (Z.to_nat (default 3 maxDepth)) as [|levels]; [reflexivity|].
    cbn [walk visited]. rewrite bool_decide_eq_false_2 by set_solver.
    rewrite Hnone. reflexivity.
  - intros n Hpos [= Hn].
    destruct (Z.to_nat (default 3 maxDepth)) as [|levels] eqn:Hlevels; [lia|].
    pose proof (walk_extends (kv w) (default (Along Outgoing) direction) edgeType
                  (S levels) startNodeId {| visited := ∅; walk_result := [] |}) as Hext.
    cbn [walk visited walk_result] in *.
    rewrite bool_decide_eq_false_2 in * by set_solver. rewrite Hn in *.
    set (st0 := {| visited := _; walk_result := [] ++ [n] |}) in *.
    assert (H : exists more, walk_result
              (foldl (fun st dir =>
                        foldl (fun st nextNode =>
                                 walk (kv w) (default (Along Outgoing) direction) edgeType
                                      levels (node_id nextNode) st)
                              st (connected (kv w) startNodeId dir edgeType))
                     st0 (directions_of (default (Along Outgoing) direction)))
              = n :: more).
    { apply (foldl_keeps (fun s => exists more, walk_result s = n :: more));
        [|exists []; reflexivity].
      intros st1 dir _ H1.
      apply (foldl_keeps (fun s => exists more, walk_result s = n :: more)); [|exact H1].
      intros st2 nextNode _ (more & H2).
      destruct (walk_extends (kv w) (default (Along Outgoing) direction) edgeType levels
                  (node_id nextNode) st2) as (more' & H3).
      exists (more ++ more'). rewrite H3, H2. reflexivity. }
    exact H.
Qed.

(** What the walk has collected are the nodes on record under pairwise
    different identifiers, all of them marked as visited. *)
Definition tidy (m : gmap string json) (st : Walk) : Prop :=
  exists ids,
    NoDup ids
    /\ Forall2 (fun i n => stored_node m i = Some n) ids (walk_result st)
    /\ (forall i, i ∈ ids -> i ∈ visited st).

Lemma walk_tidy m direction edgeType levels nodeId st :
  tidy m st -> tidy m (walk m direction edgeType levels nodeId st).
Proof.
  revert nodeId st. induction levels as [|levels IH]; intros nodeId st Hst; [exact Hst|].
  cbn [walk]. destruct (bool_decide (nodeId ∈ visited st)) eqn:Hseen; [exact Hst|].
  apply bool_decide_eq_false_1 in Hseen.
  destruct Hst as (ids & Hnodup & Hids & Hvisited).
  destruct (stored_node m nodeId) as [node|] eqn:Hnode.
  - apply foldl_keeps.
    + intros st1 dir _ H1. apply foldl_keeps; [|exact H1].
      intros st2 nextNode _ H2. apply IH, H2.
    + exists (ids ++ [nodeId]). cbn [visited walk_result]. split; [|split].
      * apply NoDup_app. split; [exact Hnodup|]. split; [|apply NoDup_singleton].
        intros i Hi ->%list_elem_of_singleton. apply Hseen, Hvisited, Hi.
      * apply Forall2_app; [exact Hids|]. constructor; [exact Hnode|constructor].
      * intros i [Hi| ->%list_elem_of_singleton]%elem_of_app; [|set_solver].
        apply elem_of_union_r, Hvisited, Hi.
  - exists ids. cbn [visited walk_result]. split; [exact Hnodup|]. split; [exact Hids|].
    intros i Hi. apply elem_of_union_r, Hvisited, Hi.
Qed.

(** X12.  [traverse] fetches no identifier twice: its answer lists the nodes on
    record under pairwise different identifiers, so when the records
    carry the identifier they are stored under, no node appears twice. *)
Theorem traverse_visits_once (startNodeId : string) (maxDepth : option Z)
    (direction : option Span) (edgeType : option string) (w : World) :
  exists nodes ids,
    result (traverse startNodeId maxDepth direction edgeType) w = Ok nodes
    /\ NoDup ids
    /\ Forall2 (fun i n => result (getNode i) w = Ok (Some n)) ids nodes
    /\ ((forall i n, result (getNode i) w = Ok (Some n) -> node_id n = i) ->
        NoDup (map node_id nodes)).
Proof.
  unfold result. rewrite traverse_run. cbn [fst].
  destruct (walk_tidy (kv w) (default (Along Outgoing) direction) edgeType
              (Z.to_nat (default 3 maxDepth)) startNodeId
              {| visited := ∅; walk_result := [] |})
    as (ids & Hnodup & Hids & _).
  { exists []. split; [constructor|]. split; [constructor|]. intros i Hi. inversion Hi. }
  eexists _, ids. split; [reflexivity|]. split; [exact Hnodup|].
  assert (Hids' : Forall2 (fun i n => (getNode i w).1 = Ok (Some n)) ids
                    (walk_result
                       (walk (kv w) (default (Along Outgoing) direction) edgeType
                             (Z.to_nat (default 3 maxDepth)) startNodeId
                             {| visited := ∅; walk_result := [] |}))).
  { eapply Forall2_impl; [exact Hids|]. intros i n Hn.
    rewrite getNode_run. cbn [fst]. rewrite Hn. reflexivity. }
  split; [exact Hids'|].
  intros Hcarry.
  assert (Hsame : map node_id
                    (walk_result
                       (walk (kv w) (default (Along Outgoing) direction) edgeType
                             (Z.to_nat (default 3 maxDepth)) startNodeId
                             {| visited := ∅; walk_result := [] |})) = ids).
  { clear Hids Hnodup. induction Hids' as [|i n ids nodes Hn _ IH]; [reflexivity|].
    cbn [map]. rewrite IH, (Hcarry i n Hn). reflexivity. }
  rewrite Hsame. exact Hnodup.
Qed.

(** One step of the walk: from the node under [i] along an admitted edge,
    in one of the directions, to a node on record that calls itself [j]. *)
Definition hop (m : gmap string json) (direction : Span) (edgeType : option string)
    (i j : string) : Prop :=
  exists dir n,
    dir ∈ directions_of direction /\ n ∈ connected m i dir edgeType /\ node_id n = j.

(** [j] is at most [k] steps from [i]. *)
Fixpoint within (m : gmap string json) (direction : Span) (edgeType : option string)
    (k : nat) (i j : string) : Prop :=
  match k with
  | O => i = j
  | S k' => i = j \/ exists x, hop m direction edgeType i x
                               /\ within m direction edgeType k' x j
  end.

Lemma within_refl m direction edgeType k i : within m direction edgeType k i i.
Proof. destruct k; [reflexivity|left; reflexivity]. Qed.

Lemma walk_sound m direction edgeType levels nodeId st n :
  n ∈ walk_result (walk m direction edgeType levels nodeId st) ->
  n ∈ walk_result st
  \/ exists k j, levels = S k /\ within m direction edgeType k nodeId j
                 /\ stored_node m j = Some n.
Proof.
  revert nodeId st n. induction levels as [|levels IH]; intros nodeId st n; [auto|].
  cbn [walk]. destruct (bool_decide (nodeId ∈ visited st)); [auto|].
  destruct (stored_node m nodeId) as [node|] eqn:Hnode; [|auto].
  intros Hn.
  assert (H : n ∈ walk_result st
              \/ exists j, within m direction edgeType levels nodeId j
                           /\ stored_node m j = Some n).
  { revert n Hn.
    apply (foldl_keeps
             (fun s => forall n, n ∈ walk_result s ->
                n ∈ walk_result st
                \/ exists j, within m direction edgeType levels nodeId j
                             /\ stored_node m j = Some n)).
    - intros st1 dir Hdir H1.
      apply (foldl_keeps
               (fun s => forall n, n ∈ walk_result s ->
                  n ∈ walk_result st
                  \/ exists j, within m direction edgeType levels nodeId j
                               /\ stored_node m j = Some n)); [|exact H1].
      intros st2 nextNode Hnext H2 n Hn.
      destruct (IH _ _ _ Hn) as [Hold|(k & j & -> & Hk & Hj)]; [apply H2, Hold|].
      right. exists j. split; [|exact Hj].
      right. exists (node_id nextNode). split; [|exact Hk].
      exists dir, nextNode. auto.
    - cbn [walk_result]. intros n [Hn| ->%list_elem_of_singleton]%elem_of_app; [auto|].
      right. exists nodeId. split; [apply within_refl|exact Hnode]. }
  destruct H as [H|(j & Hj & Hn')]; [auto|]. right. eauto.
Qed.

(** X13.  [traverse] answers only with nodes it can reach: every node of the
    answer is on record under an identifier at most [maxDepth - 1] steps
    from the start. *)
Theorem traverse_reaches_only (startNodeId : string) (maxDepth : option Z)
    (direction : option Span) (edgeType : option string) (w : World) :
  exists nodes,
    result (traverse startNodeId maxDepth direction edgeType) w = Ok nodes
    /\ forall n, n ∈ nodes ->
         exists j,
           within (kv w) (default (Along Outgoing) direction) edgeType
                  (Z.to_nat (default 3 maxDepth) - 1) startNodeId j
           /\ result (getNode j) w = Ok (Some n).
Proof.
  unfold result. rewrite traverse_run. cbn [fst]. eexists. split; [reflexivity|].
  intros n Hn. apply walk_sound in Hn as [Hn|(k & j & Hk & Hj & Hstored)].
  - inversion Hn.
  - exists j. rewrite Hk. replace (S k - 1)%nat with k by lia.
    split; [exact Hj|]. rewrite getNode_run. cbn [fst]. rewrite Hstored. reflexivity.
Qed.

(** ** The tracker's edges *)

(** [findEdge], read off the namespace: the first of the listed edges on
    record with the type and the target asked for. *)
Fixpoint first_match (m : gmap string json) (edgeIds : list string)
    (type toNodeId0 : string) : option Edge :=
  match edgeIds with
  | [] => None
  | edgeId :: rest =>
      match stored_edge m edgeId with
      | Some e =>
          if String.eqb (edge_type e) type && String.eqb (toNodeId e) toNodeId0
          then Some e
          else first_match m rest type toNodeId0
      | None => first_match m rest type toNodeId0
      end
  end.

Lemma findEdge_reads edgeIds type toNodeId0 w :
  findEdge edgeIds type toNodeId0 w = (Ok (first_match (kv w) edgeIds type toNodeId0), w).
Proof.
  induction edgeIds as [|i l IH]; [reflexivity|].
  cbn [findEdge first_match]. unfold_M. rewrite getEdge_run.
  destruct (stored_edge (kv w) i) as [e|]; [|exact IH].
  destruct (_ && _); [reflexivity|exact IH].
Qed.

Lemma first_match_None m edgeIds type toNodeId0 :
  first_match m edgeIds type toNodeId0 = None <->
  forall i e, i ∈ edgeIds -> stored_edge m i = Some e ->
              String.eqb (edge_type e) type && String.eqb (toNodeId e) toNodeId0 = false.
Proof.
  induction edgeIds as [|i l IH]; cbn [first_match].
  - split; [intros _ i e Hi; inversion Hi|reflexivity].
  - destruct (stored_edge m i) as [e|] eqn:He.
    + destruct (String.eqb (edge_type e) type && String.eqb (toNodeId e) toNodeId0) eqn:Hm.
      * split; [discriminate|]. intros H. specialize (H i e (list_elem_of_here _ _) He).
        congruence.
      * rewrite IH. split.
        -- intros H j e' [->|Hj]%elem_of_cons He'; [congruence|eauto].
        -- intros H j e' Hj. apply H. right. exact Hj.
    + rewrite IH. split.
      * intros H j e' [->|Hj]%elem_of_cons He'; [congruence|eauto].
      * intros H j e' Hj. apply H. right. exact Hj.
Qed.

(** The statistics of an edge seen [n] times, first at [t0], last at [t]. *)
Definition stats_of (t0 t : string) (n : Z) : gmap string prim :=
  {[ "firstSeen" := PStr t0; "lastSeen" := PStr t; "count" := PNum n ]}.

Lemma stats_of_next t0 t t' n :
  ({[ "lastSeen" := PStr t'; "count" := count_plus_one (stats_of t0 t n !! "count") ]}
     : gmap string prim) ∪ stats_of t0 t n
  = stats_of t0 t' (n + 1).
Proof.
  unfold stats_of. apply map_eq. intros k.
  rewrite lookup_union.
  destruct (decide (k = "firstSeen")) as [->|H1]; [reflexivity|].
  destruct (decide (k = "lastSeen")) as [->|H2]; [reflexivity|].
  destruct (decide (k = "count")) as [->|H3]; [reflexivity|].
  rewrite !lookup_insert_ne, !lookup_singleton_ne by congruence. reflexivity.
Qed.

(** The connection from [a] to [b] of type [type] has been recorded [n]
    times in [w'], under the identifier [edgeId], since the world [w]. *)
Definition recorded (w : World) (a b type edgeId t0 t : string) (n : Z) (w' : World) : Prop :=
  (exists na na', stored_node (kv w) a = Some na /\ stored_node (kv w') a = Some na'
                  /\ outEdges na' = outEdges na ++ [edgeId])
  /\ (forall i, i <> edgeId -> stored_edge (kv w') i = stored_edge (kv w) i)
  /\ stored_edge (kv w') edgeId
     = Some {| edge_id := edgeId; edge_type := type; edge_properties := stats_of t0 t n;
               fromNodeId := a; toNodeId := b |}
  /\ drawn w' = S (drawn w).

Lemma first_match_appended m m' l type b edgeId E :
  first_match m l type b = None ->
  (forall i, i <> edgeId -> stored_edge m' i = stored_edge m i) ->
  stored_edge m' edgeId = Some E -> edge_type E = type -> toNodeId E = b ->
  first_match m' (l ++ [edgeId]) type b = Some E.
Proof.
  intros Hnone Hothers Hedge Htype Hto. rewrite first_match_None in Hnone.
  assert (Hhit : String.eqb (edge_type E) type && String.eqb (toNodeId E) b = true).
  { rewrite Htype, Hto, !String.eqb_refl. reflexivity. }
  induction l as [|i l IH]; cbn [app first_match].
  - rewrite Hedge, Hhit. reflexivity.
  - destruct (decide (i = edgeId)) as [->|Hne].
    + rewrite Hedge, Hhit. reflexivity.
    + rewrite Hothers by exact Hne.
      destruct (stored_edge m i) as [e|] eqn:He.
      * rewrite (Hnone i e (list_elem_of_here _ _) He). apply IH.
        intros j e' Hj. apply Hnone. right. exact Hj.
      * apply IH. intros j e' Hj. apply Hnone. right. exact Hj.
Qed.

Lemma updateConnection_first w a b type t na nb :
  a <> b -> stored_node (kv w) a = Some na -> stored_node (kv w) b = Some nb ->
  first_match (kv w) (outEdges na) type b = None ->
  exists w1,
    updateConnection a b type t w = (Ok tt, w1)
    /\ recorded w a b type (nanoid_draws w (drawn w)) t t 1 w1.
Proof.
  intros Hab Ha Hb Hnone.
  unfold updateConnection. unfold void, mbind, M_bind.
  rewrite getNode_run, Ha, findEdge_reads, Hnone, createEdge_run, Ha, Hb.
  cbv zeta. eexists. split; [reflexivity|].
  unfold recorded. cbn [after_draw kv drawn]. split; [|split; [|split]].
  - exists na. eexists. split; [exact Ha|]. split.
    + rewrite !stored_node_insert_node, decide_False by congruence.
      rewrite decide_True by reflexivity. reflexivity.
    + reflexivity.
  - intros i Hi. rewrite !stored_edge_insert_node, stored_edge_insert_edge.
    rewrite decide_False by congruence. reflexivity.
  - rewrite !stored_edge_insert_node, stored_edge_insert_edge.
    rewrite decide_True by reflexivity. reflexivity.
  - reflexivity.
Qed.

Lemma updateConnection_again w a b type edgeId t0 t n w' t' na :
  stored_node (kv w) a = Some na ->
  first_match (kv w) (outEdges na) type b = None ->
  recorded w a b type edgeId t0 t n w' ->
  exists w'',
    updateConnection a b type t' w' = (Ok tt, w'')
    /\ recorded w a b type edgeId t0 t' (n + 1) w''.
Proof.
  intros Ha Hnone ((na0 & na' & Ha0 & Ha' & Hout) & Hothers & Hedge & Hdrawn).
  assert (na0 = na) by congruence. subst na0.
  unfold updateConnection. unfold void, mbind, M_bind.
  rewrite getNode_run, Ha', findEdge_reads, Hout.
  rewrite (first_match_appended (kv w) (kv w') (outEdges na) type b edgeId _
             Hnone Hothers Hedge eq_refl eq_refl).
  cbn [edge_id edge_properties]. rewrite updateEdge_run, Hedge.
  unfold updated_edge. cbn [edge_id edge_type edge_properties fromNodeId toNodeId].
  rewrite stats_of_next.
  eexists. split; [reflexivity|].
  unfold recorded. cbn [with_kv kv drawn]. split; [|split; [|split]].
  - exists na, na'. rewrite stored_node_insert_edge. auto.
  - intros i Hi. rewrite stored_edge_insert_edge, decide_False by congruence.
    apply Hothers, Hi.
  - rewrite stored_edge_insert_edge, decide_True by reflexivity. reflexivity.
  - exact Hdrawn.
Qed.

Lemma last_after {A} (x d : A) (l : list A) : List.last (x :: l) d = List.last l x.
Proof.
  revert x d. induction l as [|y l IH]; intros x d; [reflexivity|].
  change (List.last (y :: l) d = List.last (y :: l) x). rewrite (IH y d), (IH y x).
  reflexivity.
Qed.

Lemma updateConnection_repeated w a b type edgeId t0 na ts :
  stored_node (kv w) a = Some na ->
  first_match (kv w) (outEdges na) type b = None ->
  forall t n w',
    recorded w a b type edgeId t0 t n w' ->
    exists w'',
      forM_ (updateConnection a b type) ts w' = (Ok tt, w'')
      /\ recorded w a b type edgeId t0 (List.last ts t) (n + Z.of_nat (length ts)) w''.
Proof.
  intros Ha Hnone. induction ts as [|t' ts IH]; intros t n w' Hrec.
  - exists w'. split; [reflexivity|]. cbn [List.last length].
    replace (n + Z.of_nat 0) with n by lia. exact Hrec.
  - destruct (updateConnection_again w a b type edgeId t0 t n w' t' na Ha Hnone Hrec)
      as (w1 & Hrun1 & Hrec1).
    destruct (IH t' (n + 1) w1 Hrec1) as (w2 & Hrun2 & Hrec2).
    exists w2. split.
    + cbn [forM_]. unfold mbind, M_bind. rewrite Hrun1. exact Hrun2.
    + rewrite last_after.
      replace (n + Z.of_nat (length (t' :: ts))) with (n + 1 + Z.of_nat (length ts))
        by (cbn [length]; lia).
      exact Hrec2.
Qed.

(** X14.  The [count] of an edge counts the calls.  Between two different nodes
    on record with no edge of the type from the first to the second yet,
    [updateConnection] called at the times [t0, t1, ..., tk] never throws,
    and draws one identifier, under which it leaves an edge with
    [firstSeen = t0], [lastSeen = tk] and [count = k + 1], listed last in
    the [outEdges] of the first node. *)
Theorem updateConnection_counts (a b type : string) (w : World) (na nb : Node)
    (t0 : string) (ts : list string) :
  a <> b ->
  result (getNode a) w = Ok (Some na) ->
  result (getNode b) w = Ok (Some nb) ->
  result (findEdge (outEdges na) type b) w = Ok None ->
  let edgeId := nanoid_draws w (drawn w) in
  let w' := run (forM_ (updateConnection a b type) (t0 :: ts)) w in
  result (forM_ (updateConnection a b type) (t0 :: ts)) w = Ok tt
  /\ result (getEdge edgeId) w'
     = Ok (Some {| edge_id := edgeId; edge_type := type;
                   edge_properties :=
                     {[ "firstSeen" := PStr t0; "lastSeen" := PStr (List.last ts t0);
                        "count" := PNum (1 + Z.of_nat (length ts)) ]};
                   fromNodeId := a; toNodeId := b |})
  /\ (exists na', result (getNode a) w' = Ok (Some na')
                  /\ outEdges na' = outEdges na ++ [edgeId])
  /\ drawn w' = S (drawn w).
Proof.
  unfold run, result. rewrite !getNode_run, findEdge_reads. cbn [fst].
  intros Hab [= Ha] [= Hb] [= Hnone]. cbv zeta.
  destruct (updateConnection_first w a b type t0 na nb Hab Ha Hb Hnone)
    as (w1 & Hrun1 & Hrec1).
  destruct (updateConnection_repeated w a b type _ t0 na ts Ha Hnone t0 1 w1 Hrec1)
    as (w2 & Hrun2 & (na0 & na' & Ha0 & Ha' & Hout) & _ & Hedge & Hdrawn).
  assert (Hall : forM_ (updateConnection a b type) (t0 :: ts) w = (Ok tt, w2)).
  { cbn [forM_]. unfold mbind, M_bind. rewrite Hrun1. exact Hrun2. }
  rewrite Hall. cbn [fst snd]. rewrite ?getEdge_run, ?getNode_run. cbn [fst].
  rewrite Hedge. split; [reflexivity|]. split; [reflexivity|].
  split; [|exact Hdrawn].
  exists na'. rewrite Ha'.
  split; [reflexivity|]. assert (na0 = na) by congruence. subst na0. exact Hout.
Qed.

Lemma updateConnection_counts_witness :
  let ts := ["2024-01-01T00:01:00Z"; "2024-01-01T00:02:00Z"] in
  let w' := run (forM_ (updateConnection "n" "nI" "USES_IP")
                       ("2024-01-01T00:00:00Z" :: ts)) two_nodes in
  result (forM_ (updateConnection "n" "nI" "USES_IP") ("2024-01-01T00:00:00Z" :: ts))
         two_nodes = Ok tt
  /\ result (getEdge "nII") w'
     = Ok (Some {| edge_id := "nII"; edge_type := "USES_IP";
                   edge_properties :=
                     {[ "firstSeen" := PStr "2024-01-01T00:00:00Z";
                        "lastSeen" := PStr "2024-01-01T00:02:00Z";
                        "count" := PNum 3 ]};
                   fromNodeId := "n"; toNodeId := "nI" |})
  /\ (exists na', result (getNode "n") w' = Ok (Some na')
                  /\ outEdges na' = [] ++ ["nII"])
  /\ drawn w' = 3%nat.
Proof.
  refine (updateConnection_counts "n" "nI" "USES_IP" two_nodes
            (new_node "n" {[ "type" := VStr "USER";
                             "lastSeen" := VStr "2024-01-01T00:00:00Z" ]})
            (new_node "nI" {[ "type" := VStr "IP" ]})
            "2024-01-01T00:00:00Z" ["2024-01-01T00:01:00Z"; "2024-01-01T00:02:00Z"]
            _ _ _ _).
  - discriminate.
  - vm_compute. reflexivity.
  - vm_compute. reflexivity.
  - vm_compute. reflexivity.
Defined.

(** X15.  [updateConnection] throws in two cases only, and then leaves the world
    as it is: no node on record under the source identifier; or none of
    the edges the source lists is of the type to the target, and no node
    is on record under the target identifier. *)
Theorem updateConnection_throws_iff (a b type t : string) (w : World) :
  ((exists msg, result (updateConnection a b type t) w = Throw msg) <->
   result (getNode a) w = Ok None
   \/ exists na, result (getNode a) w = Ok (Some na)
                 /\ result (findEdge (outEdges na) type b) w = Ok None
                 /\ result (getNode b) w = Ok None)
  /\ ((exists msg, result (updateConnection a b type t) w = Throw msg) ->
      run (updateConnection a b type t) w = w).
Proof.
  unfold run, result, updateConnection. unfold void, mbind, M_bind.
  rewrite !getNode_run. cbn [fst].
  destruct (stored_node (kv w) a) as [na|] eqn:Ha.
  2:{ cbn. split; [|reflexivity]. split; [auto|]. intros _. eexists. reflexivity. }
  rewrite findEdge_reads.
  destruct (first_match (kv w) (outEdges na) type b) as [edge|] eqn:Hfind.
  { rewrite updateEdge_run. destruct (stored_edge (kv w) (edge_id edge)); cbn.
    - split; [|intros [msg H]; discriminate].
      split; [intros [msg H]; discriminate|].
      intros [H|(na' & [= <-] & H & _)]; [discriminate|].
      rewrite findEdge_reads in H. cbn in H. congruence.
    - split; [|intros [msg H]; discriminate].
      split; [intros [msg H]; discriminate|].
      intros [H|(na' & [= <-] & H & _)]; [discriminate|].
      rewrite findEdge_reads in H. cbn in H. congruence. }
  rewrite createEdge_run, Ha.
  destruct (stored_node (kv w) b) as [nb|] eqn:Hb; cbn.
  - split; [|intros [msg H]; discriminate].
    split; [intros [msg H]; discriminate|].
    intros [H|(na' & _ & _ & H)]; discriminate.
  - split; [|reflexivity]. split; [|intros _; eexists; reflexivity].
    intros _. right. exists na. rewrite findEdge_reads. cbn. rewrite Hfind. auto.
Qed.

(** ** The tracker, call after call *)












(** ** The risk factors *)

Section RiskFactors.

Variable getTime : string -> option Z.
Variable localeCompare : string -> string -> comparison.

Lemma Set_of_size_le (l : list (option value)) : size_of (Set_of l) <= size_of l.
Proof.
  unfold Set_of, size_of.
  assert (H : forall acc, (length (fold_left
                (fun acc x => if existsb (sameValueZero x) acc then acc else acc ++ [x])
                l acc) <= length acc + length l)%nat).
  { induction l as [|x l IH]; intros acc; cbn [fold_left length]; [lia|].
    specialize (IH (if existsb (sameValueZero x) acc then acc else acc ++ [x])).
    destruct (existsb (sameValueZero x) acc); [lia|].
    rewrite length_app in IH. cbn [length] in IH. lia. }
  specialize (H []). cbn [length] in H. lia.
Qed.

Lemma filter_size_le {A} (f : A -> bool) (l : list A) : size_of (List.filter f l) <= size_of l.
Proof.
  unfold size_of. induction l as [|x l IH]; cbn [List.filter length]; [lia|].
  destruct (f x); cbn [length]; lia.
Qed.

Lemma map_size {A B} (f : A -> B) (l : list A) : size_of (map f l) = size_of l.
Proof. unfold size_of. rewrite length_map. reflexivity. Qed.

Lemma insert_event_length x l :
  length (insert_event localeCompare x l) = S (length l).
Proof.
  induction l as [|y l IH]; [reflexivity|]. cbn [insert_event].
  destruct (compare_events localeCompare x y); cbn [length]; rewrite ?IH; reflexivity.
Qed.

Lemma sort_events_length l : length (sort_events localeCompare l) = length l.
Proof.
  unfold sort_events. induction l as [|x l IH]; [reflexivity|].
  cbn [foldr length]. rewrite insert_event_length, IH. reflexivity.
Qed.

(** The fourth factor, when it scores: at least two events in the window,
    and a score of 15, 30 or 35. *)
Lemma checkRapidChanges_scores ipEdges fpEdges since :
  let f := checkRapidChanges getTime localeCompare ipEdges fpEdges since in
  0 < factor_score f ->
  reason f = "Very rapid identity changes"
  /\ (factor_score f = 15 \/ factor_score f = 30 \/ factor_score f = 35)
  /\ 2 <= size_of ipEdges + size_of fpEdges.
Proof.
  unfold checkRapidChanges.
  set (events := sort_events localeCompare _).
  assert (Hlen : Z.of_nat (length events) <= size_of ipEdges + size_of fpEdges).
  { subst events. rewrite sort_events_length.
    pose proof (filter_size_le (fun e => ge_since (timestamp e) since)
                  (map (event_of "ip" ip_of) ipEdges
                   ++ map (event_of "fp" fingerprint_of) fpEdges)) as H.
    unfold size_of in *. rewrite length_app, !length_map in H. lia. }
  destruct (Nat.ltb_spec (length events) 2); cbn [factor_score no_factor]; [lia|].
  destruct (Z.ltb_spec 0 (count_rapid getTime events)) as [Hpos|];
    cbn [factor_score reason no_factor]; [|lia].
  intros _. split; [reflexivity|]. split; [|lia].
  destruct (Z.eq_dec (count_rapid getTime events) 1) as [->|];
    [left; reflexivity|].
  destruct (Z.eq_dec (count_rapid getTime events) 2) as [->|];
    [right; left; reflexivity|].
  right. right. lia.
Qed.

(** Which factors [calculateUserRisk] can report, and with which scores. *)
Lemma which_factors_score (now : Z) (ipEdges fpEdges : list Connection) :
  Forall (fun f =>
            (reason f = "Multiple IPs in 24 hours" /\ factor_score f = 30
             /\ (4 <= length ipEdges)%nat)
            \/ (reason f = "Rapid IP switching" /\ factor_score f = 40
                /\ (3 <= length ipEdges)%nat)
            \/ (reason f = "Multiple fingerprints in 24 hours" /\ factor_score f = 35
                /\ (3 <= length fpEdges)%nat)
            \/ (reason f = "Very rapid identity changes"
                /\ (factor_score f = 15 \/ factor_score f = 30 \/ factor_score f = 35)
                /\ (2 <= length ipEdges + length fpEdges)%nat))
         (factors (calculateUserRisk getTime localeCompare now ipEdges fpEdges)).
Proof.
  unfold calculateUserRisk. cbn [factors].
  assert (Hsize : forall (key : Connection -> option value) since (l : list Connection),
            size_of (Set_of (map key (List.filter
                       (fun e => ge_since (lastSeen_of e) since) l))) <= size_of l).
  { intros key since l. etransitivity; [apply Set_of_size_le|].
    rewrite map_size. apply filter_size_le. }
  repeat apply Forall_app_2.
  - destruct (Z.ltb_spec 3 (size_of (Set_of (map ip_of (List.filter
               (fun e => ge_since (lastSeen_of e) (toISOString (now - 24 * 60 * 60 * 1000)))
               ipEdges))))) as [Hgt|]; constructor; [|constructor].
    left. cbn [reason factor_score]. split; [reflexivity|].
    pose proof (Hsize ip_of (toISOString (now - 24 * 60 * 60 * 1000)) ipEdges).
    unfold size_of in *. split; lia.
  - destruct (Z.ltb_spec 2 (size_of (Set_of (map ip_of (List.filter
               (fun e => ge_since (lastSeen_of e) (toISOString (now - 60 * 60 * 1000)))
               ipEdges))))) as [Hgt|]; constructor; [|constructor].
    right. left. cbn [reason factor_score]. split; [reflexivity|].
    pose proof (Hsize ip_of (toISOString (now - 60 * 60 * 1000)) ipEdges).
    unfold size_of in *. split; lia.
  - destruct (Z.ltb_spec 2 (size_of (Set_of (map fingerprint_of (List.filter
               (fun e => ge_since (lastSeen_of e) (toISOString (now - 24 * 60 * 60 * 1000)))
               fpEdges))))) as [Hgt|]; constructor; [|constructor].
    right. right. left. cbn [reason factor_score]. split; [reflexivity|].
    pose proof (Hsize fingerprint_of (toISOString (now - 24 * 60 * 60 * 1000)) fpEdges).
    unfold size_of in *. split; lia.
  - destruct (Z.ltb_spec 0 (factor_score (checkRapidChanges getTime localeCompare
               ipEdges fpEdges (toISOString (now - 5 * 60 * 1000))))) as [Hpos|];
      constructor; [|constructor].
    right. right. right.
    destruct (checkRapidChanges_scores ipEdges fpEdges _ Hpos) as (Hr & Hs & Hl).
    split; [exact Hr|]. split; [exact Hs|]. unfold size_of in Hl. lia.
Qed.

(** X17.  The scores of the risk factors do not depend on how many addresses or
    fingerprints were seen.  Whenever a factor is reported, it is
    "Multiple IPs in 24 hours" with score 30 (and the user has at least 4
    address edges), "Rapid IP switching" with score 40 (at least 3
    address edges), "Multiple fingerprints in 24 hours" with score 35 (at
    least 3 fingerprint edges), or "Very rapid identity changes" with
    score 15, 30 or 35 (at least 2 edges in all). *)
Theorem risk_factors_have_fixed_scores (now : Z) (ipEdges fpEdges : list Connection) :
  Forall (fun f =>
            (reason f = "Multiple IPs in 24 hours" /\ factor_score f = 30
             /\ (4 <= length ipEdges)%nat)
            \/ (reason f = "Rapid IP switching" /\ factor_score f = 40
                /\ (3 <= length ipEdges)%nat)
            \/ (reason f = "Multiple fingerprints in 24 hours" /\ factor_score f = 35
                /\ (3 <= length fpEdges)%nat)
            \/ (reason f = "Very rapid identity changes"
                /\ (factor_score f = 15 \/ factor_score f = 30 \/ factor_score f = 35)
                /\ (2 <= length ipEdges + length fpEdges)%nat))
         (factors (calculateUserRisk getTime localeCompare now ipEdges fpEdges)).
Proof. exact (which_factors_score now ipEdges fpEdges). Qed.

(** X18.  A user with fewer than two connections is never flagged: the result is
    score 0, level LOW and no factor, whatever the time, the host's date
    parser and its collation. *)
Theorem single_connection_scores_nothing (now : Z) (ipEdges fpEdges : list Connection) :
  (length ipEdges + length fpEdges < 2)%nat ->
  calculateUserRisk getTime localeCompare now ipEdges fpEdges
  = {| score := 0; level := LOW; factors := [] |}.
Proof.
  intros Hfew.
  pose proof (which_factors_score now ipEdges fpEdges) as Hall.
  destruct (score_is_capped_sum getTime localeCompare now ipEdges fpEdges) as [Hs Hl].
  destruct (calculateUserRisk getTime localeCompare now ipEdges fpEdges)
    as [s lvl fs]. cbn [score level factors] in *.
  destruct fs as [|f fs].
  - cbn in Hs. subst s. subst lvl. reflexivity.
  - apply Forall_cons_1 in Hall as [Hf _].
    destruct Hf as [(_ & _ & H)|[(_ & _ & H)|[(_ & _ & H)|(_ & _ & H)]]]; lia.
Qed.

End RiskFactors.

Lemma single_connection_scores_nothing_witness :
  calculateUserRisk iso_getTime String.compare T0
    [{| conn_node := new_node "nI" {[ "type" := VStr "IP"; "ip" := VStr "1.1.1.1" ]};
        stats := stats_of "2024-01-01T00:00:00Z" "2024-01-01T00:00:00Z" 1 |}] []
  = {| score := 0; level := LOW; factors := [] |}.
Proof.
  apply single_connection_scores_nothing. cbn [length]. lia.
Defined.

(** ** getConnectionGraph lists every link and every end point once *)





Section Distinct.

Variable getTime : string -> option Z.
Variable localeCompare : string -> string -> comparison.
Variable cutoffTime : string.
Variable riskThreshold : Z.





End Distinct.


(** ** authenticate *)

(** The character [c] occurs in [s]. *)
Fixpoint occurs (c : ascii) (s : string) : bool :=
  match s with
  | EmptyString => false
  | String d r => if Ascii.eqb d c then true else occurs c r
  end.

Lemma String_split_pieces sep s :
  exists piece pieces,
    String_split sep s = piece :: pieces
    /\ occurs sep piece = false
    /\ ((pieces = [] /\ s = piece)
        \/ exists r, s = piece +++ String sep r /\ pieces = String_split sep r).
Proof.
  induction s as [|c s (piece & pieces & Hs & Hfree & Hrest)]; cbn [String_split].
  - exists "", []. split; [reflexivity|]. split; [reflexivity|]. left. auto.
  - destruct (Ascii.eqb_spec c sep) as [->|Hne].
    + exists "", (String_split sep s). split; [reflexivity|]. split; [reflexivity|].
      right. exists s. split; reflexivity.
    + rewrite Hs. exists (String c piece), pieces. split; [reflexivity|].
      split.
      { cbn [occurs]. destruct (Ascii.eqb_spec c sep); [contradiction|exact Hfree]. }
      destruct Hrest as [[-> ->]|(r & -> & ->)].
      * left. auto.
      * right. exists r. rewrite append_cons. split; reflexivity.
Qed.

Lemma String_split_whole sep s : occurs sep s = false -> String_split sep s = [s].
Proof.
  induction s as [|c s IH]; [reflexivity|]. cbn [occurs String_split].
  destruct (Ascii.eqb c sep); [discriminate|]. intros H. rewrite IH by exact H. reflexivity.
Qed.

Lemma String_split_first sep s r :
  occurs sep s = false ->
  String_split sep (s +++ String sep r) = s :: String_split sep r.
Proof.
  induction s as [|c s IH]; cbn [occurs].
  - intros _. rewrite append_nil. cbn [String_split]. rewrite Ascii.eqb_refl. reflexivity.
  - rewrite append_cons. cbn [String_split].
    destruct (Ascii.eqb c sep); [discriminate|]. intros H. rewrite IH by exact H. reflexivity.
Qed.

(** X23.  [authenticate] lets a request pass exactly when the API key has no
    space and the header is ["Bearer "], the key, and then nothing or a
    space followed by anything.  So a request without the header, or with
    an empty one, never passes; text after the key is ignored; and with an
    API key that contains a space no request passes.  Whatever it throws
    has status 401. *)
Theorem authenticate_passes_iff (authHeader : option string) (apiKey : string) :
  (authenticate authHeader apiKey = Passes <->
   occurs " " apiKey = false
   /\ (authHeader = Some ("Bearer " +++ apiKey)
       \/ exists rest, authHeader = Some ("Bearer " +++ apiKey +++ " " +++ rest)))
  /\ (forall error, authenticate authHeader apiKey = Rejects error -> api_status error = 401).
Proof.
  split.
  2:{ intros error. unfold authenticate.
      destruct authHeader as [[|c h]|]; try (intros [= <-]; reflexivity).
      destruct (_ || _); [intros [= <-]; reflexivity|discriminate]. }
  split.
  - unfold authenticate. destruct authHeader as [[|c h]|]; try discriminate.
    destruct (String_split_pieces " " (String c h)) as (type & pieces & Hsplit & _ & Hrest).
    rewrite Hsplit. cbn [lookup list_lookup].
    destruct (bool_decide (Some type = Some "Bearer")) eqn:Htype; [|discriminate].
    apply bool_decide_eq_true_1 in Htype. injection Htype as ->.
    destruct Hrest as [[-> _]|(r & Hh & ->)]; [discriminate|].
    destruct (String_split_pieces " " r) as (token & more & Hsplit' & Hfree & Hrest').
    rewrite Hsplit'. cbn [lookup list_lookup].
    destruct (bool_decide (Some token = Some apiKey)) eqn:Htoken; [|discriminate].
    apply bool_decide_eq_true_1 in Htoken. injection Htoken as ->.
    intros _. split; [exact Hfree|]. rewrite Hh.
    destruct Hrest' as [[_ ->]|(r' & -> & _)].
    + left. reflexivity.
    + right. exists r'. reflexivity.
  - intros (Hfree & Hh).
    assert (Hsplit : exists more,
              authHeader = Some ("Bearer " +++ apiKey +++ more)
              /\ exists pieces, String_split " " (apiKey +++ more) = apiKey :: pieces).
    { destruct Hh as [->|(rest & ->)].
      - exists "". split; [|exists []].
        + f_equal. f_equal. clear. induction apiKey as [|c k IH]; [reflexivity|].
          rewrite append_cons, <- IH. reflexivity.
        + replace (apiKey +++ "") with apiKey; [apply String_split_whole, Hfree|].
          clear. induction apiKey as [|c k IH]; [reflexivity|].
          rewrite append_cons, <- IH. reflexivity.
      - exists (" " +++ rest). split; [reflexivity|].
        exists (String_split " " rest). apply (String_split_first " " apiKey rest Hfree). }
    destruct Hsplit as (more & -> & pieces & Hpieces).
    unfold authenticate.
    replace ("Bearer " +++ apiKey +++ more) with ("Bearer" +++ String " " (apiKey +++ more))
      by reflexivity.
    rewrite (String_split_first " " "Bearer" (apiKey +++ more) eq_refl), Hpieces.
    rewrite append_cons. cbn [lookup list_lookup].
    rewrite !bool_decide_eq_true_2 by reflexivity. reflexivity.
Qed.

(** ** The key encoding *)

Lemma occurs_replace_all a b s : a <> b -> occurs a (replace_all a b s) = false.
Proof.
  intros Hab. induction s as [|c s IH]; [reflexivity|]. cbn [replace_all occurs].
  destruct (Ascii.eqb_spec c a) as [->|Hca].
  - destruct (Ascii.eqb_spec b a); [congruence|exact IH].
  - destruct (Ascii.eqb_spec c a); [contradiction|exact IH].
Qed.

Lemma occurs_replace_all_other a b c s :
  c <> b -> occurs c s = false -> occurs c (replace_all a b s) = false.
Proof.
  intros Hcb. induction s as [|d s IH]; [reflexivity|]. cbn [replace_all occurs].
  destruct (Ascii.eqb_spec d c) as [->|Hdc]; [discriminate|]. intros Hs.
  destruct (Ascii.eqb d a).
  - destruct (Ascii.eqb_spec b c); [congruence|apply IH, Hs].
  - destruct (Ascii.eqb_spec d c); [contradiction|apply IH, Hs].
Qed.

Lemma replace_all_back a b s :
  occurs b s = false -> replace_all b a (replace_all a b s) = s.
Proof.
  induction s as [|c s IH]; [reflexivity|]. cbn [occurs replace_all].
  destruct (Ascii.eqb_spec c b) as [->|Hcb]; [discriminate|]. intros Hs.
  rewrite IH by exact Hs. f_equal.
  destruct (Ascii.eqb_spec c a) as [->|Hca].
  - rewrite Ascii.eqb_refl. reflexivity.
  - destruct (Ascii.eqb_spec c b); [contradiction|reflexivity].
Qed.

(** [c.replace(/a/g, b)] on one character. *)
Definition swap (a b c : ascii) : ascii := if Ascii.eqb c a then b else c.

Lemma there_and_back (c : ascii) :
  c <> "-"%char -> c <> "_"%char ->
  swap "_" "/" (swap "-" "+" (swap "/" "_" (swap "+" "-" c))) = c.
Proof.
  intros Hminus Hunder. unfold swap.
  destruct (Ascii.eqb_spec c "+") as [->|Hplus]; [reflexivity|].
  destruct (Ascii.eqb_spec c "/") as [->|Hslash]; [reflexivity|].
  destruct (Ascii.eqb_spec c "-") as [->|_]; [contradiction|].
  destruct (Ascii.eqb_spec c "_") as [->|_]; [contradiction|].
  reflexivity.
Qed.

Lemma replace_all_there_and_back s :
  occurs "-" s = false -> occurs "_" s = false ->
  replace_all "_" "/" (replace_all "-" "+" (replace_all "/" "_" (replace_all "+" "-" s))) = s.
Proof.
  induction s as [|c s IH]; [reflexivity|]. cbn [occurs replace_all].
  destruct (Ascii.eqb_spec c "-") as [|Hminus]; [discriminate|].
  destruct (Ascii.eqb_spec c "_") as [|Hunder]; [discriminate|].
  intros H1 H2. rewrite IH by assumption. f_equal.
  exact (there_and_back c Hminus Hunder).
Qed.

Lemma char_codes_append s t : char_codes (s +++ t) = char_codes s ++ char_codes t.
Proof.
  induction s as [|c s IH]; [reflexivity|].
  rewrite append_cons. cbn [char_codes app]. rewrite IH. reflexivity.
Qed.

(** The two loops undo each other. *)
Lemma char_codes_binary_of bytes : char_codes (binary_of bytes) = bytes.
Proof.
  unfold binary_of.
  assert (H : forall acc,
            char_codes (fold_left (fun binary b => binary +++ String (ascii_of_byte b) EmptyString)
                                  bytes acc)
            = char_codes acc ++ bytes).
  { induction bytes as [|b l IH]; intros acc; cbn [fold_left].
    - symmetry. apply app_nil_r.
    - rewrite IH, char_codes_append. cbn [char_codes].
      rewrite byte_of_ascii_of_byte, <- app_assoc. reflexivity. }
  apply (H "").
Qed.

(** X24.  What [arrayBufferToBase64] returns is safe in a URL: whatever the
    host's [btoa] answers, the result has no ['+'] and no ['/']. *)
Theorem arrayBufferToBase64_is_url_safe (btoa : string -> string) (buffer : list Byte.byte) :
  occurs "+" (arrayBufferToBase64 btoa buffer) = false
  /\ occurs "/" (arrayBufferToBase64 btoa buffer) = false.
Proof.
  unfold arrayBufferToBase64. split.
  - apply occurs_replace_all_other; [discriminate|].
    apply occurs_replace_all. discriminate.
  - apply occurs_replace_all. discriminate.
Qed.

(** X25.  [base64ToArrayBuffer] reads back what [arrayBufferToBase64] wrote.
    For a buffer on whose binary string the host's [atob] undoes its
    [btoa], and where [btoa] answers in the standard alphabet (no ['-'],
    no ['_']), decoding the encoded buffer gives the buffer. *)
Theorem base64_round_trip (atob : string -> Outcome string) (btoa : string -> string)
    (buffer : list Byte.byte) :
  atob (btoa (binary_of buffer)) = Ok (binary_of buffer) ->
  occurs "-" (btoa (binary_of buffer)) = false ->
  occurs "_" (btoa (binary_of buffer)) = false ->
  base64ToArrayBuffer atob (arrayBufferToBase64 btoa buffer) = Ok buffer.
Proof.
  intros Hhost Hminus Hunder. unfold base64ToArrayBuffer, arrayBufferToBase64.
  rewrite replace_all_there_and_back by assumption.
  rewrite Hhost, char_codes_binary_of. reflexivity.
Qed.

(** A [btoa] and an [atob] of a host, for padded base64 text. *)
Definition base64_alphabet : string :=
  "ABCDEFGHIJKLMNOPQRSTUVWXYZabcdefghijklmnopqrstuvwxyz0123456789+/".

Definition sextet_char (n : N) : ascii :=
  default "="%char (String.get (N.to_nat n) base64_alphabet).

Fixpoint position (c : ascii) (alphabet : string) (i : N) : option N :=
  match alphabet with
  | EmptyString => None
  | String d r => if Ascii.eqb c d then Some i else position c r (N.succ i)
  end.

Definition char_sextet (c : ascii) : option N := position c base64_alphabet 0%N.

Fixpoint encode_codes (codes : list N) : string :=
  match codes with
  | [] => ""
  | [a] =>
      let n := (a * 65536)%N in
      String (sextet_char (n / 262144)) (String (sextet_char ((n / 4096) mod 64)) "==")
  | [a; b] =>
      let n := (a * 65536 + b * 256)%N in
      String (sextet_char (n / 262144))
        (String (sextet_char ((n / 4096) mod 64))
           (String (sextet_char ((n / 64) mod 64)) "="))
  | a :: b :: c :: rest =>
      let n := (a * 65536 + b * 256 + c)%N in
      String (sextet_char (n / 262144))
        (String (sextet_char ((n / 4096) mod 64))
           (String (sextet_char ((n / 64) mod 64))
              (String (sextet_char (n mod 64)) (encode_codes rest))))
  end.

Definition host_btoa (binary : string) : string :=
  encode_codes (map N_of_ascii (list_ascii_of_string binary)).

Fixpoint decode_chars (chars : list ascii) : option (list N) :=
  match chars with
  | [] => Some []
  | a :: b :: c :: d :: rest =>
      x ← char_sextet a; y ← char_sextet b;
      if Ascii.eqb c "=" then
        if Ascii.eqb d "=" && bool_decide (rest = [])
        then Some [((x * 64 + y) / 16)%N] else None
      else
        z ← char_sextet c;
        if Ascii.eqb d "=" then
          if bool_decide (rest = [])
          then let n := (((x * 64 + y) * 64 + z) / 4)%N in Some [(n / 256)%N; (n mod 256)%N]
          else None
        else
          u ← char_sextet d;
          more ← decode_chars rest;
          let n := (((x * 64 + y) * 64 + z) * 64 + u)%N in
          Some ((n / 65536)%N :: ((n / 256) mod 256)%N :: (n mod 256)%N :: more)
  | _ => None
  end.

Definition host_atob (base64 : string) : Outcome string :=
  match decode_chars (list_ascii_of_string base64) with
  | Some codes => Ok (string_of_list_ascii (map ascii_of_N codes))
  | None => Throw "InvalidCharacterError"
  end.

Lemma base64_round_trip_witness :
  arrayBufferToBase64 host_btoa [Byte.xfb; Byte.xff; Byte.x01; Byte.x00] = "-_8BAA=="
  /\ base64ToArrayBuffer host_atob
       (arrayBufferToBase64 host_btoa [Byte.xfb; Byte.xff; Byte.x01; Byte.x00])
     = Ok [Byte.xfb; Byte.xff; Byte.x01; Byte.x00].
Proof.
  split; [vm_compute; reflexivity|].
  apply base64_round_trip; vm_compute; reflexivity.
Defined.

(** ** What the tracker reads *)

Lemma connections_elem_iff m edgeIds type c :
  c ∈ connections m (map (stored_edge m) edgeIds) type <->
  exists edgeId e t,
    edgeId ∈ edgeIds /\ stored_edge m edgeId = Some e /\ edge_type e = type
    /\ stored_node m (toNodeId e) = Some t
    /\ c = {| conn_node := t; stats := edge_properties e |}.
Proof.
  induction edgeIds as [|i l IH]; cbn [map connections].
  { split; [inversion 1|]. intros (edgeId & e & t & H & _). inversion H. }
  assert (Hsplit :
    (exists edgeId e t,
       edgeId ∈ i :: l /\ stored_edge m edgeId = Some e /\ edge_type e = type
       /\ stored_node m (toNodeId e) = Some t
       /\ c = {| conn_node := t; stats := edge_properties e |})
    <-> (exists e t, stored_edge m i = Some e /\ edge_type e = type
                     /\ stored_node m (toNodeId e) = Some t
                     /\ c = {| conn_node := t; stats := edge_properties e |})
        \/ (exists edgeId e t,
              edgeId ∈ l /\ stored_edge m edgeId = Some e /\ edge_type e = type
              /\ stored_node m (toNodeId e) = Some t
              /\ c = {| conn_node := t; stats := edge_properties e |})).
  { split.
    - intros (j & e & t & [->|Hj]%elem_of_cons & H); [left; eauto|right; eauto 10].
    - intros [(e & t & H)|(j & e & t & Hj & H)].
      + exists i, e, t. split; [left|exact H].
      + exists j, e, t. split; [right; exact Hj|exact H]. }
  rewrite Hsplit, <- IH. clear Hsplit IH.
  destruct (stored_edge m i) as [e|] eqn:He.
  2:{ split; [auto|]. intros [(e & t & H & _)|H]; [discriminate|exact H]. }
  destruct (String.eqb_spec (edge_type e) type) as [Htype|Htype].
  2:{ split; [auto|]. intros [(e' & t & [= <-] & H & _)|H]; [contradiction|exact H]. }
  destruct (stored_node m (toNodeId e)) as [t|] eqn:Ht.
  2:{ split; [auto|]. intros [(e' & t & [= <-] & _ & H & _)|H]; [congruence|exact H]. }
  rewrite elem_of_cons. split.
  - intros [->|H]; [left; eauto 10|right; exact H].
  - intros [(e' & t' & [= <-] & _ & Ht' & ->)|H]; [left|right; exact H].
    congruence.
Qed.

(** X20.  [getNodeConnections] never throws and writes nothing.  An entry is in
    its answer exactly when it pairs the node on record at the target of
    an edge with the properties of that edge, for an edge on record that
    is listed in the [outEdges] of the node and has the type asked for;
    edges that are missing, or whose target is missing, are passed over. *)
Theorem getNodeConnections_answer (node : Node) (type : string) (w : World) :
  exists conns,
    getNodeConnections node type w = (Ok conns, w)
    /\ forall c, c ∈ conns <->
         exists edgeId edge target,
           edgeId ∈ outEdges node
           /\ result (getEdge edgeId) w = Ok (Some edge)
           /\ edge_type edge = type
           /\ result (getNode (toNodeId edge)) w = Ok (Some target)
           /\ c = {| conn_node := target; stats := edge_properties edge |}.
Proof.
  eexists. split; [apply getNodeConnections_run|].
  intros c. rewrite connections_elem_iff. unfold result. split.
  - intros (edgeId & e & t & Hin & He & Htype & Ht & ->).
    exists edgeId, e, t. rewrite getEdge_run, getNode_run. cbn [fst]. rewrite He, Ht. auto.
  - intros (edgeId & e & t & Hin & He & Htype & Ht & ->).
    rewrite getEdge_run in He. rewrite getNode_run in Ht. cbn [fst] in He, Ht.
    injection He as He. injection Ht as Ht. eauto 10.
Qed.


(** ** query without a filter *)

Definition no_filter : QueryOptions :=
  {| q_type := None; q_property := None; q_value := None;
     q_limit := None; q_cursor := None |}.

Lemma omap_all_found {A B} (f : A -> option B) (l : list A) (b : B) :
  (forall x, x ∈ l -> f x = Some b) -> omap id (map f l) = replicate (length l) b.
Proof.
  induction l as [|x l IH]; intros H; [reflexivity|].
  cbn [map omap list_omap length replicate]. rewrite (H x) by left. cbn.
  f_equal. apply IH. intros y Hy. apply H. right. exact Hy.
Qed.

(** X22.  Without a type and without a property, [query] lists the index rows,
    and so answers with a node once for each of its properties.  On an
    empty store, after [createNode(p)] for [p] with keys without [':'],
    [query({})] returns the new node as many times as [p] has keys, up to
    the default limit of 100. *)
Theorem query_without_filter_repeats_nodes (p : gmap string value) (w : World) :
  nanoid_ok w -> kv w = ∅ -> plain_keys p ->
  let nodeId := nanoid_draws w (drawn w) in
  let w' := run (createNode p) w in
  exists r,
    result (query no_filter) w' = Ok r
    /\ items r = replicate (Nat.min (size p) 100) (new_node nodeId p).
Proof.
  intros [Hcolon _] Hkv Hplain nodeId w'.
  destruct (query_run no_filter w') as (r & Hquery & Hitems).
  exists r. unfold result. rewrite Hquery. split; [reflexivity|].
  rewrite Hitems. clear Hquery Hitems r.
  subst w'. unfold run. rewrite createNode_run. fold nodeId. cbn [snd after_draw kv].
  rewrite Hkv. set (node := new_node nodeId p).
  set (m := put_rows nodeId (map_to_list p) (<[NODE_PREFIX +++ nodeId := JNode node]> ∅)).
  cbn [no_filter q_limit q_cursor q_type q_property q_value default query_prefix].
  unfold page, resolve. rewrite !take_take.
  change (drop (default 0%nat None) (keys_with_prefix INDEX_PREFIX m))
    with (keys_with_prefix INDEX_PREFIX m).
  change (BATCH_SIZE `min` BATCH_SIZE)%nat with 100%nat.
  set (L := keys_with_prefix INDEX_PREFIX m).
  assert (Hrows : forall key, key ∈ L <-> is_row_of nodeId (map_to_list p) key).
  { intros key. subst L. rewrite keys_with_prefix_elem. subst m.
    rewrite is_Some_put_rows. split.
    - intros [[Hrow|Hnode] Hprefix]; [exact Hrow|].
      destruct (decide (key = NODE_PREFIX +++ nodeId)) as [->|Hne]; [discriminate|].
      rewrite lookup_insert_ne, lookup_empty in Hnode by congruence.
      destruct Hnode as [? Hnode]. discriminate.
    - intros Hrow. split; [left; exact Hrow|].
      destruct Hrow as (k & v & _ & ->). apply prefix_append. }
  assert (Hnode : stored_node m nodeId = Some node).
  { subst m. rewrite stored_node_put_rows, stored_node_insert_node.
    rewrite decide_True by reflexivity. reflexivity. }
  assert (Hlen : length L = size p).
  { rewrite <- (length_map_to_list p).
    rewrite <- (length_fmap (fun kvp : string * value => index_key kvp.1 kvp.2 nodeId)
                  (map_to_list p)).
    apply Permutation_length, NoDup_Permutation.
    - apply keys_with_prefix_NoDup.
    - apply NoDup_fmap_2_strong; [|apply NoDup_map_to_list].
      intros [k v] [k' v'] Hkv1%elem_of_map_to_list Hkv2%elem_of_map_to_list Heq.
      cbn [fst snd] in Heq. rewrite !index_key_row_key in Heq.
      apply row_key_inj in Heq as (-> & _ & _);
        [|apply Hplain; eauto|apply Hplain; eauto|apply Hcolon|apply Hcolon].
      congruence.
    - intros key. rewrite Hrows, list_elem_of_fmap. split.
      + intros (k & v & Hin & ->). exists (k, v). auto.
      + intros ([k v] & -> & Hin). exists k, v. auto. }
  rewrite (omap_all_found (stored_node m) _ node).
  - rewrite length_map, length_take, Hlen. f_equal. lia.
  - intros i (key & -> & Hkey)%list_elem_of_fmap.
    apply elem_of_take in Hkey as (j & Hj & _).
    apply list_elem_of_lookup_2 in Hj. apply Hrows in Hj as (k & v & _ & ->).
    rewrite index_key_row_key, last_segment_row_key by apply Hcolon. exact Hnode.
Qed.

Lemma query_without_filter_repeats_nodes_witness :
  let p : gmap string value :=
    {[ "type" := VStr "USER"; "userId" := VStr "u1"; "lastSeen" := VNum 1704067200000 ]} in
  exists r,
    result (query no_filter) (run (createNode p) tally_world) = Ok r
    /\ items r = replicate (Nat.min (size p) 100) (new_node "n" p).
Proof.
  intros p.
  refine (query_without_filter_repeats_nodes p tally_world nanoid_ok_tally eq_refl _).
  apply plain_keys_check. vm_compute. reflexivity.
Defined.
